(** * Contract OCR service: text recovery chain and structured field extractor

    A shallow embedding of [functions-python/main.py] ([OCRService]):
    the PDF text recovery chain, the Vision API adapter and the five
    pattern-based extraction passes, with the properties of the
    specification stated over them. *)

From Stdlib Require Import String Ascii.
From Stdlib Require Import List NArith ZArith QArith Arith Bool Lia.
From Stdlib Require Import Permutation Sorted.
From Stdlib Require Import Lqa.
Import ListNotations.

Close Scope Q_scope.
Open Scope nat_scope.
Set Implicit Arguments.

(** ** Python strings

    A Python [str] is a sequence of Unicode code points; [len], slicing and
    [match.start()] all count code points. *)

Abbreviation char := N.
Abbreviation pystr := (list char).

Module Utf8.
(** Source literals are written as UTF-8 byte strings and decoded to code
    points once, when the constant is defined. *)
Fixpoint decode (need : nat) (acc : N) (bs : list N) : pystr :=
  match bs with
  | [] => []
  | b :: bs' =>
    match need with
    | O =>
      if (b <? 0x80)%N then b :: decode 0 0%N bs'
      else if (b <? 0xE0)%N then decode 1 (b - 0xC0)%N bs'
      else if (b <? 0xF0)%N then decode 2 (b - 0xE0)%N bs'
      else decode 3 (b - 0xF0)%N bs'
    | S n =>
      let acc' := (acc * 64 + (b - 0x80))%N in
      match n with
      | O => acc' :: decode 0 0%N bs'
      | _ => decode n acc' bs'
      end
    end
  end.

Definition str (s : string) : pystr :=
  decode 0 0%N (map N_of_ascii (list_ascii_of_string s)).
End Utf8.

Definition u (s : string) : pystr := Utf8.str s.

Definition char_eqb (a b : char) : bool := N.eqb a b.

Fixpoint str_eqb (a b : pystr) : bool :=
  match a, b with
  | [], [] => true
  | x :: a', y :: b' => char_eqb x y && str_eqb a' b'
  | _, _ => false
  end.

(** [Py_UNICODE_ISSPACE]: the characters removed by [str.strip()] and
    matched by [\s] in a [str] pattern. *)
Definition is_space (c : char) : bool :=
  ((9 <=? c) && (c <=? 13) || (28 <=? c) && (c <=? 32)
   || (c =? 0x85) || (c =? 0xA0) || (c =? 0x1680)
   || (0x2000 <=? c) && (c <=? 0x200A)
   || (c =? 0x2028) || (c =? 0x2029) || (c =? 0x202F)
   || (c =? 0x205F) || (c =? 0x3000))%N.

Fixpoint lstrip (s : pystr) : pystr :=
  match s with
  | c :: s' => if is_space c then lstrip s' else s
  | [] => []
  end.

Definition rstrip (s : pystr) : pystr := rev (lstrip (rev s)).

(** [s.strip()] *)
Definition strip (s : pystr) : pystr := rstrip (lstrip s).

(** Truthiness of a [str]: non-empty. *)
Definition truthy (s : pystr) : bool :=
  match s with [] => false | _ => true end.

Fixpoint starts_with (p s : pystr) : bool :=
  match p, s with
  | [], _ => true
  | x :: p', y :: s' => char_eqb x y && starts_with p' s'
  | _ :: _, [] => false
  end.

(** [needle in hay] *)
Fixpoint contains (needle hay : pystr) : bool :=
  starts_with needle hay ||
  match hay with
  | [] => false
  | _ :: hay' => contains needle hay'
  end.

(** [s[a:b]] for [0 <= a]. *)
Definition substr (s : pystr) (a b : nat) : pystr := firstn (b - a) (skipn a s).

(** Decimal rendering of a non-negative [int], as in an f-string. *)
Definition digit_char (d : N) : char := (48 + d)%N.

Fixpoint str_of_N_fuel (fuel : nat) (n : N) (acc : pystr) : pystr :=
  match fuel with
  | O => acc
  | S f =>
    let acc' := digit_char (n mod 10) :: acc in
    if (n / 10 =? 0)%N then acc' else str_of_N_fuel f (n / 10) acc'
  end.

Definition str_of_N (n : N) : pystr := str_of_N_fuel (S (N.size_nat n)) n [].
Definition str_of_nat (n : nat) : pystr := str_of_N (N.of_nat n).

(** ** Unicode character database

    [\d] and [\w] in a [str] pattern, and [int()], consult the interpreter's
    Unicode tables, which are not part of the repository.  The development is
    parametric in them. *)

Record UnicodeData := {
  decimal : char -> option N;     (* value of a decimal digit (category Nd) *)
  word_char : char -> bool        (* alphanumeric or underscore *)
}.

(** A fragment of the tables, enough for the examples below: ASCII, the
    full-width digits, kana and the unified CJK ideographs. *)
Definition sample_decimal (c : char) : option N :=
  if ((48 <=? c) && (c <=? 57))%N then Some (c - 48)%N
  else if ((0xFF10 <=? c) && (c <=? 0xFF19))%N then Some (c - 0xFF10)%N
  else None.

Definition sample_word_char (c : char) : bool :=
  ((48 <=? c) && (c <=? 57) || (65 <=? c) && (c <=? 90)
   || (97 <=? c) && (c <=? 122) || (c =? 95)
   || (0xFF10 <=? c) && (c <=? 0xFF19)
   || (0x3041 <=? c) && (c <=? 0x3096)
   || (0x30A1 <=? c) && (c <=? 0x30FA)
   || (0x4E00 <=? c) && (c <=? 0x9FFF))%N.

Definition sample_ucd : UnicodeData :=
  {| decimal := sample_decimal; word_char := sample_word_char |}.

(** ** Regular expressions

    The fragment of [re] the service uses, with the backtracking semantics
    of the [re] module: leftmost match, greedy repetition, alternatives
    tried in order.  The matcher counts characters from the start of the
    attempt; [match_at] turns the counts into offsets in the text. *)

Inductive regex :=
| Emp
| Cls (p : char -> bool)                       (* one character of a class *)
| Cat (r1 r2 : regex)
| Alt (r1 r2 : regex)
| Rep (r : regex) (lo : nat) (hi : option nat) (* greedy r{lo,hi} *)
| Grp (i : nat) (r : regex).                   (* capturing group i *)

Definition spans := list (nat * (nat * nat)).

Section Matcher.
Variable A : Type.

Definition cont := nat -> pystr -> spans -> option A.

Definition or_else (x y : option A) : option A :=
  match x with Some _ => x | None => y end.

(** Greedy repetition of [body]: one more iteration is tried first, the
    continuation only when that fails.  An iteration that consumes nothing
    is not repeated. *)
Fixpoint rep (body : nat -> pystr -> spans -> cont -> option A)
         (fuel lo : nat) (hi : option nat)
         (pos : nat) (s : pystr) (cs : spans) (k : cont) : option A :=
  let stop := match lo with O => k pos s cs | S _ => None end in
  match fuel with
  | O => stop
  | S f =>
    match hi with
    | Some O => stop
    | _ =>
      or_else
        (body pos s cs (fun pos' s' cs' =>
           if pos' <=? pos then None
           else rep body f (pred lo) (option_map pred hi) pos' s' cs' k))
        stop
    end
  end.

Fixpoint rmatch (r : regex) (pos : nat) (s : pystr) (cs : spans) (k : cont)
  : option A :=
  match r with
  | Emp => k pos s cs
  | Cls p =>
    match s with
    | c :: s' => if p c then k (S pos) s' cs else None
    | [] => None
    end
  | Cat r1 r2 =>
    rmatch r1 pos s cs (fun pos' s' cs' => rmatch r2 pos' s' cs' k)
  | Alt r1 r2 => or_else (rmatch r1 pos s cs k) (rmatch r2 pos s cs k)
  | Rep r lo hi =>
    rep (rmatch r)
        (match hi with Some n => n | None => length s end)
        lo hi pos s cs k
  | Grp i r =>
    rmatch r pos s cs (fun pos' s' cs' => k pos' s' ((i, (pos, pos')) :: cs'))
  end.
End Matcher.

(** A match object: [start()], [end()] and the spans of its groups. *)
Record Match := { m_start : nat; m_end : nat; m_groups : spans }.

Definition shift_span (pos : nat) (sp : nat * (nat * nat)) : nat * (nat * nat) :=
  (fst sp, (pos + fst (snd sp), pos + snd (snd sp))).

(** [pattern.match(text, pos)]: [s] is the text from offset [pos] on. *)
Definition match_at (r : regex) (pos : nat) (s : pystr) : option Match :=
  rmatch r 0 s []
         (fun n _ cs => Some {| m_start := pos; m_end := pos + n;
                                m_groups := map (shift_span pos) cs |}).

(** [re.finditer]: non-overlapping matches, left to right.  [skip] counts the
    characters of the previous match still to be passed. *)
Fixpoint scan (r : regex) (pos : nat) (s : pystr) (skip : nat) : list Match :=
  match skip with
  | S k =>
    match s with
    | [] => []
    | _ :: s' => scan r (S pos) s' k
    end
  | O =>
    match match_at r pos s with
    | Some m =>
      m :: match s with
           | [] => []
           | _ :: s' => scan r (S pos) s' (m_end m - pos - 1)
           end
    | None =>
      match s with
      | [] => []
      | _ :: s' => scan r (S pos) s' 0
      end
    end
  end.

Definition finditer (r : regex) (text : pystr) : list Match := scan r 0 text 0.

Fixpoint span_of (i : nat) (cs : spans) : option (nat * nat) :=
  match cs with
  | [] => None
  | (j, sp) :: cs' => if i =? j then Some sp else span_of i cs'
  end.

(** [match.group(0)] *)
Definition group0 (text : pystr) (m : Match) : pystr :=
  substr text (m_start m) (m_end m).

(** [match.group(i)] for a group that took part in the match. *)
Definition group (text : pystr) (m : Match) (i : nat) : pystr :=
  match span_of i (m_groups m) with
  | Some (a, b) => substr text a b
  | None => []
  end.

(** Pattern building blocks. *)
Definition lit1 (c : char) : regex := Cls (char_eqb c).

Fixpoint lit (s : pystr) : regex :=
  match s with
  | [] => Emp
  | [c] => lit1 c
  | c :: s' => Cat (lit1 c) (lit s')
  end.

Definition one_of (cs : pystr) : regex := Cls (fun c => existsb (char_eqb c) cs).
Definition range (a b : char) : regex := Cls (fun c => ((a <=? c) && (c <=? b))%N).
Definition star (r : regex) : regex := Rep r 0 None.
Definition plus (r : regex) : regex := Rep r 1 None.
Definition opt (r : regex) : regex := Rep r 0 (Some 1).
Definition times (r : regex) (lo hi : nat) : regex := Rep r lo (Some hi).

Fixpoint cat (rs : list regex) : regex :=
  match rs with
  | [] => Emp
  | [r] => r
  | r :: rs' => Cat r (cat rs')
  end.

Fixpoint alt (rs : list regex) : regex :=
  match rs with
  | [] => Cls (fun _ => false)
  | [r] => r
  | r :: rs' => Alt r (alt rs')
  end.

Definition is_digit (ucd : UnicodeData) (c : char) : bool :=
  match decimal ucd c with Some _ => true | None => false end.

Definition digit (ucd : UnicodeData) : regex := Cls (is_digit ucd).        (* \d *)
Definition space : regex := Cls is_space.                                  (* \s *)

(** [re.split] for a pattern without groups: the pieces between matches. *)
Fixpoint split_at (text : pystr) (ms : list Match) (from : nat) : list pystr :=
  match ms with
  | [] => [skipn from text]
  | m :: ms' => substr text from (m_start m) :: split_at text ms' (m_end m)
  end.

Definition re_split (r : regex) (text : pystr) : list pystr :=
  split_at text (finditer r text) 0.

(** ** Calendar dates

    [datetime(year, month, day)] raises [ValueError] outside the proleptic
    Gregorian calendar of years 1..9999. *)

Definition is_leap (y : N) : bool :=
  ((y mod 4 =? 0) && (negb (y mod 100 =? 0) || (y mod 400 =? 0)))%N.

Definition days_in_month (y m : N) : N :=
  (match m with
   | 2 => if is_leap y then 29 else 28
   | 4 | 6 | 9 | 11 => 30
   | _ => 31
   end)%N.

Record datetime := { dt_year : N; dt_month : N; dt_day : N }.

Definition make_datetime (y m d : N) : option datetime :=
  if ((1 <=? y) && (y <=? 9999) && (1 <=? m) && (m <=? 12)
      && (1 <=? d) && (d <=? days_in_month y m))%N
  then Some {| dt_year := y; dt_month := m; dt_day := d |}
  else None.

(** The calendar condition itself, independent of the constructor. *)
Definition valid_ymd (y m d : N) : Prop :=
  (1 <= y <= 9999 /\ 1 <= m <= 12 /\ 1 <= d <= days_in_month y m)%N.

(** ["%0{w}d"] *)
Definition zero_pad (w : nat) (n : N) : pystr :=
  let ds := str_of_N n in
  repeat (digit_char 0) (w - length ds) ++ ds.

(** [datetime.isoformat()] of a date built without a time of day. *)
Definition isoformat (dt : datetime) : pystr :=
  zero_pad 4 (dt_year dt) ++ u "-" ++ zero_pad 2 (dt_month dt) ++ u "-"
  ++ zero_pad 2 (dt_day dt) ++ u "T00:00:00".

(** ** Extracted records

    Each record is the dict literal the source appends. *)

Record Party := { name : pystr; type : pystr; party_position : nat }.
Record DateEntry := { date : pystr; original_text : pystr; position : nat }.
Record Amount := {
  value : Q; amount_original_text : pystr; currency : pystr;
  amount_position : nat }.
Record KeyTerm := { keyword : pystr; text : pystr; importance : pystr }.
Record Clause := { clause_type : pystr; content : pystr; clause_keyword : pystr }.

(** The [dates] mapping when it is not empty; a value [None] is a key
    bound to Python's [None]. *)
Record Dates := {
  contract_date : option DateEntry;
  effective_date : option DateEntry;
  expiration_date : option DateEntry;
  all_dates : list DateEntry }.

Record ContractInfo := {
  parties : list Party;
  dates : option Dates;          (* [None] is the empty dict *)
  amounts : list Amount;
  key_terms : list KeyTerm;
  clauses : list Clause }.

(** [sorted(l, key=lambda x: x['position'])]: stable. *)
Fixpoint insert_by_position (x : DateEntry) (l : list DateEntry) : list DateEntry :=
  match l with
  | [] => [x]
  | y :: l' =>
    if position x <=? position y then x :: l
    else y :: insert_by_position x l'
  end.

Definition sorted_by_position (l : list DateEntry) : list DateEntry :=
  fold_right insert_by_position [] l.

(** [l[-1]] of a non-empty list. *)
Definition last_entry (l : list DateEntry) : option DateEntry :=
  match rev l with
  | [] => None
  | x :: _ => Some x
  end.

Fixpoint filter_map {X Y : Type} (f : X -> option Y) (l : list X) : list Y :=
  match l with
  | [] => []
  | x :: l' =>
    match f x with
    | Some y => y :: filter_map f l'
    | None => filter_map f l'
    end
  end.

Fixpoint split_on (sep : char -> bool) (s cur : pystr) : list pystr :=
  match s with
  | [] => [rev cur]
  | c :: s' =>
    if sep c then rev cur :: split_on sep s' []
    else split_on sep s' (c :: cur)
  end.

Fixpoint pow10 (n : nat) : positive :=
  match n with
  | O => 1%positive
  | S k => (10 * pow10 k)%positive
  end.

Inductive date_format := japanese | slash | hyphen | us_format.

Section Extractor.
Variable ucd : UnicodeData.

Let d := digit ucd.
Let w_or_s := Cls (fun c => word_char ucd c || is_space c).   (* [\w\s] *)

(** [int(s)] on a run of decimal digits; [None] stands for [ValueError]. *)
Fixpoint int_digits (s : pystr) (acc : N) : option N :=
  match s with
  | [] => Some acc
  | c :: s' =>
    match decimal ucd c with
    | Some v => int_digits s' (10 * acc + v)%N
    | None => None
    end
  end.

Definition py_int (s : pystr) : option N :=
  match s with
  | [] => None
  | _ => int_digits s 0
  end.

(** *** Parties *)

Definition entity_chars : pystr :=
  Eval vm_compute in
    u "株式会社|有限会社|合同会社|合資会社|合名会社|一般社団法人|公益社団法人|学校法人|医療法人".

Definition company_patterns : list regex :=
  [ Grp 1 (Cat (one_of entity_chars) (plus w_or_s));
    Grp 1 (Cat (plus w_or_s) (one_of entity_chars));
    Grp 1 (cat [range 65%N 90%N; plus (range 97%N 122%N); lit (u " ");
                range 65%N 90%N; plus (range 97%N 122%N); lit (u " ");
                alt [lit (u "Inc."); lit (u "Corp."); lit (u "Ltd.");
                     lit (u "LLC"); lit (u "Co.")]]) ].

Definition party_of_match (text : pystr) (m : Match) : option Party :=
  let party_name := strip (group text m 1) in
  if truthy party_name && (2 <? length party_name)
  then Some {| name := party_name; type := u "company";
               party_position := m_start m |}
  else None.

(** The list [parties] after the first loop. *)
Definition party_matches (text : pystr) : list Party :=
  flat_map (fun pattern => filter_map (party_of_match text) (finditer pattern text))
           company_patterns.

(** The second loop: [seen] is [seen_names]. *)
Fixpoint unique_parties (ps : list Party) (seen : list pystr) : list Party :=
  match ps with
  | [] => []
  | party :: ps' =>
    if existsb (str_eqb (name party)) seen then unique_parties ps' seen
    else party :: unique_parties ps' (name party :: seen)
  end.

Definition extract_parties (text : pystr) : list Party :=
  firstn 10 (unique_parties (party_matches text) []).

(** *** Dates *)

Definition date_patterns : list (regex * date_format) :=
  [ (cat [Grp 1 (times d 4 4); lit (u "年"); Grp 2 (times d 1 2); lit (u "月");
          Grp 3 (times d 1 2); lit (u "日")], japanese);
    (cat [Grp 1 (times d 4 4); lit (u "/"); Grp 2 (times d 1 2); lit (u "/");
          Grp 3 (times d 1 2)], slash);
    (cat [Grp 1 (times d 4 4); lit (u "-"); Grp 2 (times d 1 2); lit (u "-");
          Grp 3 (times d 1 2)], hyphen);
    (cat [Grp 1 (times d 1 2); lit (u "/"); Grp 2 (times d 1 2); lit (u "/");
          Grp 3 (times d 4 4)], us_format) ].

(** [year, month, day] as the branch on [format_type] binds them. *)
Definition ymd_groups (fmt : date_format) (text : pystr) (m : Match)
  : pystr * pystr * pystr :=
  match fmt with
  | us_format => (group text m 3, group text m 1, group text m 2)
  | _ => (group text m 1, group text m 2, group text m 3)
  end.

(** The [try] body; [None] is the [ValueError] branch, [continue]. *)
Definition date_of_match (fmt : date_format) (text : pystr) (m : Match)
  : option DateEntry :=
  let '(year, month, day) := ymd_groups fmt text m in
  match py_int year, py_int month, py_int day with
  | Some y, Some mo, Some dd =>
    match make_datetime y mo dd with
    | Some date_obj =>
      Some {| date := isoformat date_obj;
              original_text := group0 text m;
              position := m_start m |}
    | None => None
    end
  | _, _, _ => None
  end.

(** [all_dates] before sorting. *)
Definition date_pool (text : pystr) : list DateEntry :=
  flat_map (fun pf => filter_map (date_of_match (snd pf) text)
                                 (finditer (fst pf) text))
           date_patterns.

Definition extract_dates (text : pystr) : option Dates :=
  match date_pool text with
  | [] => None
  | pool =>
    let sorted_dates := sorted_by_position pool in
    Some {| contract_date := nth_error sorted_dates 0;
            effective_date :=
              if 1 <? length sorted_dates then nth_error sorted_dates 1 else None;
            expiration_date :=
              if 2 <? length sorted_dates then last_entry sorted_dates else None;
            all_dates := sorted_dates |}
  end.

(** *** Amounts *)

(** [float(s)] on a string of decimal digits and dots, which is all
    [re.sub(r'[^\d.]', '', ...)] leaves; [None] is [ValueError].  The value
    is kept as the exact decimal. *)
Fixpoint float_digits (s : pystr) (dot : bool) (num : N) (frac digits : nat)
  : option Q :=
  match s with
  | [] =>
    match digits with
    | O => None
    | S _ => Some (Z.of_N num # pow10 frac)%Q
    end
  | c :: s' =>
    if char_eqb c 46%N then
      if dot then None else float_digits s' true num frac digits
    else
      match decimal ucd c with
      | Some v =>
        float_digits s' dot (10 * num + v)%N
                     (if dot then S frac else frac) (S digits)
      | None => None
      end
  end.

Definition py_float (s : pystr) : option Q := float_digits s false 0 0 0.

(** [\d{1,3}(?:,\d{3})*(?:\.\d{2})?] *)
Definition number : regex :=
  cat [times d 1 3; star (Cat (lit (u ",")) (times d 3 3));
       opt (Cat (lit (u ".")) (times d 2 2))].

Definition amount_patterns : list regex :=
  [ Cat (Grp 1 number) (alt [lit (u "円"); lit (u "万円"); lit (u "億円")]);
    Cat (lit (u "¥")) (Grp 1 number);
    Cat (lit (u "$")) (Grp 1 number);
    cat [Grp 1 number; star (lit (u " "));
         alt [lit (u "USD"); lit (u "JPY"); lit (u "EUR")]] ].

Definition detect_currency (text : pystr) : pystr :=
  if contains (u "円") text || contains (u "¥") text || contains (u "JPY") text
  then u "JPY"
  else if contains (u "$") text || contains (u "USD") text then u "USD"
  else if contains (u "EUR") text || contains (u "€") text then u "EUR"
  else u "UNKNOWN".

Definition amount_of_match (text : pystr) (m : Match) : option Amount :=
  let amount_text := group0 text m in
  let amount_value :=
    filter (fun c => is_digit ucd c || char_eqb c 46%N) (group text m 1) in
  match py_float amount_value with
  | Some v =>
    Some {| value := v; amount_original_text := amount_text;
            currency := detect_currency amount_text;
            amount_position := m_start m |}
  | None => None
  end.

(** The list [amounts] before the slice. *)
Definition amount_matches (text : pystr) : list Amount :=
  flat_map (fun pattern => filter_map (amount_of_match text) (finditer pattern text))
           amount_patterns.

Definition extract_amounts (text : pystr) : list Amount :=
  firstn 5 (amount_matches text).
End Extractor.

(** *** Key terms *)

Definition important_keywords : list pystr :=
  Eval vm_compute in
    map u [ "責任"; "義務"; "権利"; "保証"; "補償"; "違約金"; "解除"; "終了";
            "更新"; "延長"; "変更"; "修正"; "通知"; "承諾"; "合意"; "協議";
            "支払"; "料金"; "費用"; "手数料"; "税金"; "消費税" ]%string.

Definition high_keywords : list pystr :=
  Eval vm_compute in map u [ "責任"; "義務"; "違約金"; "解除" ]%string.

(** [re.split(r'[。．\n]', text)] *)
Definition sentences_of (text : pystr) : list pystr :=
  split_on (fun c => existsb (char_eqb c) [0x3002; 0xFF0E; 10]%N) text [].

Definition key_term_of (kw sentence : pystr) : option KeyTerm :=
  if contains kw sentence && (10 <? length (strip sentence))
  then Some {| keyword := kw; text := strip sentence;
               importance := if existsb (str_eqb kw) high_keywords
                             then u "high" else u "medium" |}
  else None.

(** The list [key_terms] before the slice. *)
Definition key_term_matches (text : pystr) : list KeyTerm :=
  flat_map (fun kw => filter_map (key_term_of kw) (sentences_of text))
           important_keywords.

Definition extract_key_terms (text : pystr) : list KeyTerm :=
  firstn 20 (key_term_matches text).

(** *** Clause classification *)

Definition clause_types : list (pystr * list pystr) :=
  Eval vm_compute in
    map (fun tk => (u (fst tk), map u (snd tk)))
      [ ("payment", ["支払"; "料金"; "費用"; "代金"; "報酬"]);
        ("termination", ["解除"; "終了"; "破棄"; "無効"]);
        ("liability", ["責任"; "損害"; "補償"; "賠償"]);
        ("confidentiality", ["秘密"; "機密"; "守秘"; "開示"]);
        ("intellectual_property", ["知的財産"; "著作権"; "特許"; "商標"]);
        ("general", ["一般"; "雑則"; "準拠法"; "管轄"]) ]%string.

(** [\n\s*\n] *)
Definition paragraph_break : regex := cat [lit1 10%N; star space; lit1 10%N].

(** The innermost loop: the first qualifying paragraph, then [break]. *)
Fixpoint first_clause (ctype kw : pystr) (paragraphs : list pystr) : list Clause :=
  match paragraphs with
  | [] => []
  | paragraph :: rest =>
    if contains kw paragraph && (20 <? length (strip paragraph))
    then [ {| clause_type := ctype; content := firstn 500 (strip paragraph);
              clause_keyword := kw |} ]
    else first_clause ctype kw rest
  end.

(** The body of [for keyword in keywords]. *)
Definition clauses_of_keyword (text ctype kw : pystr) : list Clause :=
  if contains kw text
  then first_clause ctype kw (re_split paragraph_break text)
  else [].

Definition classify_clauses (text : pystr) : list Clause :=
  flat_map (fun tk => flat_map (clauses_of_keyword text (fst tk)) (snd tk))
           clause_types.

(** *** The structured record

    None of the five passes raises in this model, so the [except] branch of
    [extract_contract_information] is not taken. *)
Definition extract_contract_information (ucd : UnicodeData) (text : pystr)
  : ContractInfo :=
  {| parties := extract_parties ucd text;
     dates := extract_dates ucd text;
     amounts := extract_amounts ucd text;
     key_terms := extract_key_terms text;
     clauses := classify_clauses text |}.

(** The dict each record is in the source, field by field. *)
Inductive pyval := VStr (s : pystr) | VInt (n : nat) | VFloat (q : Q).

Definition pydict := list (string * pyval).

Fixpoint lookup (key : string) (dict : pydict) : option pyval :=
  match dict with
  | [] => None
  | (k, v) :: dict' => if String.eqb key k then Some v else lookup key dict'
  end.

Definition party_dict (p : Party) : pydict :=
  [ ("name", VStr (name p)); ("type", VStr (type p));
    ("position", VInt (party_position p)) ]%string.

Definition date_dict (e : DateEntry) : pydict :=
  [ ("date", VStr (date e)); ("original_text", VStr (original_text e));
    ("position", VInt (position e)) ]%string.

Definition amount_dict (a : Amount) : pydict :=
  [ ("value", VFloat (value a)); ("original_text", VStr (amount_original_text a));
    ("currency", VStr (currency a)); ("position", VInt (amount_position a)) ]%string.

Definition key_term_dict (k : KeyTerm) : pydict :=
  [ ("keyword", VStr (keyword k)); ("text", VStr (text k));
    ("importance", VStr (importance k)) ]%string.

Definition clause_dict (c : Clause) : pydict :=
  [ ("type", VStr (clause_type c)); ("content", VStr (content c));
    ("keyword", VStr (clause_keyword c)) ]%string.

Definition option_list {X : Type} (o : option X) : list X :=
  match o with Some x => [x] | None => [] end.

(** The date records reachable from the [dates] mapping. *)
Definition date_entries (ds : option Dates) : list DateEntry :=
  match ds with
  | None => []
  | Some ds =>
    option_list (contract_date ds) ++ option_list (effective_date ds)
    ++ option_list (expiration_date ds) ++ all_dates ds
  end.

(** Every item of a [ContractInfo], as the dict it is. *)
Definition items (info : ContractInfo) : list pydict :=
  map party_dict (parties info) ++ map date_dict (date_entries (dates info))
  ++ map amount_dict (amounts info) ++ map key_term_dict (key_terms info)
  ++ map clause_dict (clauses info).

(** ** Text recovery

    What the collaborators do on a given file is the input: each PDF reader
    either fails to open it or yields pages whose [extract_text()] returns
    or raises, and the recognition service answers or fails.  An exception is
    represented by its [str(e)]. *)

Definition exn := pystr.

Inductive page_outcome :=
| Extracts (page_text : option pystr)   (* a [str], or [None] *)
| PageRaises (e : exn).

Inductive reader_outcome :=
| OpenRaises (e : exn)
| Opened (pages : list page_outcome).

(** Confidences are Python floats; they are represented by rationals, and
    sums are taken left to right, in the order of the loops. *)
Record Word := { symbols : list pystr; word_confidence : Q }.
Record Paragraph := { words : list Word; paragraph_confidence : Q }.
Record Block := { paragraphs : list Paragraph }.
Record Page := { blocks : list Block }.
Record TextAnnotation := { annotation_text : pystr; annotation_pages : list Page }.

Inductive vision_outcome :=
| ReadRaises (e : exn)                   (* [io.open] / [read] *)
| CallRaises (e : exn)                   (* [document_text_detection] *)
| Response (error_message : pystr) (full_text_annotation : option TextAnnotation).

Record Document := {
  pypdf2 : reader_outcome;
  pdfplumber : reader_outcome;
  vision : vision_outcome }.

Record BlockEntry := { block_text : pystr; block_confidence : Q }.

Inductive PageEntry :=
| TextPage (page_number : nat) (page_text method : pystr)
| OcrPage (page_number : nat) (page_text : pystr) (page_blocks : list BlockEntry).

Record Metadata := {
  meta_method : option pystr;
  language_hints : option (list pystr);
  error : option pystr }.

Record ExtractedDocument := {
  doc_text : pystr;
  pages : list PageEntry;
  metadata : Metadata;
  confidence : Q }.

Definition no_metadata : Metadata :=
  {| meta_method := None; language_hints := None; error := None |}.

(** The dict every [except] handler returns. *)
Definition error_document (e : exn) : ExtractedDocument :=
  {| doc_text := []; pages := [];
     metadata := {| meta_method := None; language_hints := None; error := Some e |};
     confidence := 0 |}.

(** *** The two structural PDF stages *)

Inductive stage_result :=
| Returned (d : ExtractedDocument)           (* [return extracted_data] *)
| Fallthrough (extracted_data : ExtractedDocument).

(** [f"\n--- Page {page_num + 1} ---\n{page_text}"] *)
Definition page_marker (page_num : nat) (page_text : pystr) : pystr :=
  u (String "010" "--- Page ") ++ str_of_nat (page_num + 1)
  ++ u (String.append " ---" (String "010" "")) ++ page_text.

(** The test guarding the loop body: [page_text.strip()] for PyPDF2, which
    raises on [None], and [page_text] for pdfplumber. *)
Definition pypdf2_keeps (t : option pystr) : exn + bool :=
  match t with
  | Some page_text => inr (truthy (strip page_text))
  | None => inl (u "'NoneType' object has no attribute 'strip'")
  end.

Definition pdfplumber_keeps (t : option pystr) : exn + bool :=
  match t with
  | Some page_text => inr (truthy page_text)
  | None => inr false
  end.

(** The page loop.  [acc] is [extracted_data['pages']], appended to in place,
    so what was appended before an exception stays appended. *)
Fixpoint page_loop (keeps : option pystr -> exn + bool) (method : pystr)
         (outs : list page_outcome) (page_num : nat)
         (text_content : pystr) (acc : list PageEntry)
  : pystr * list PageEntry * option exn :=
  match outs with
  | [] => (text_content, acc, None)
  | PageRaises e :: _ => (text_content, acc, Some e)
  | Extracts t :: rest =>
    match keeps t, t with
    | inl e, _ => (text_content, acc, Some e)
    | inr true, Some page_text =>
      page_loop keeps method rest (S page_num)
                (text_content ++ page_marker page_num page_text)
                (acc ++ [TextPage (page_num + 1) page_text method])
    | inr _, _ => page_loop keeps method rest (S page_num) text_content acc
    end
  end.

Definition with_pages (d : ExtractedDocument) (ps : list PageEntry) : ExtractedDocument :=
  {| doc_text := doc_text d; pages := ps; metadata := metadata d;
     confidence := confidence d |}.

Definition structural_stage (keeps : option pystr -> exn + bool) (method : pystr)
           (conf : Q) (extracted_data : ExtractedDocument) (r : reader_outcome)
  : stage_result :=
  match r with
  | OpenRaises _ => Fallthrough extracted_data
  | Opened outs =>
    match page_loop keeps method outs 0 [] (pages extracted_data) with
    | (_, acc, Some _) => Fallthrough (with_pages extracted_data acc)
    | (text_content, acc, None) =>
      if truthy (strip text_content)
      then Returned {| doc_text := text_content; pages := acc;
                       metadata := metadata extracted_data; confidence := conf |}
      else Fallthrough (with_pages extracted_data acc)
    end
  end.

Definition pypdf2_stage := structural_stage pypdf2_keeps (u "PyPDF2") 0.9.
Definition pdfplumber_stage := structural_stage pdfplumber_keeps (u "pdfplumber") 0.85.

(** *** The Vision API adapter *)

(** [''.join([symbol.text for symbol in word.symbols])] *)
Definition word_text (w : Word) : pystr := concat (symbols w).

(** The loop over [paragraph.words]: state is
    [(paragraph_text, total_confidence, word_count)]. *)
Definition word_step (st : pystr * Q * nat) (w : Word) : pystr * Q * nat :=
  let '(paragraph_text, total_confidence, word_count) := st in
  (paragraph_text ++ word_text w ++ u " ",
   (total_confidence + word_confidence w)%Q, word_count + 1).

(** The loop over [block.paragraphs]: state is
    [(block_text, block_confidence, paragraph_count, total_confidence, word_count)]. *)
Definition paragraph_step (st : pystr * Q * nat * Q * nat) (p : Paragraph)
  : pystr * Q * nat * Q * nat :=
  let '(block_text, block_confidence, paragraph_count, total_confidence, word_count) := st in
  let '(paragraph_text, total_confidence', word_count') :=
    fold_left word_step (words p) ([], total_confidence, word_count) in
  (block_text ++ paragraph_text ++ [10%N], block_confidence, paragraph_count + 1,
   total_confidence', word_count').

Definition q_of_nat (n : nat) : Q := inject_Z (Z.of_nat n).

(** The loop over [page.blocks]: state is
    [(page text, blocks, total_confidence, word_count)]. *)
Definition block_step (st : pystr * list BlockEntry * Q * nat) (b : Block)
  : pystr * list BlockEntry * Q * nat :=
  let '(page_text, page_blocks, total_confidence, word_count) := st in
  let '(block_text, block_confidence, paragraph_count, total_confidence', word_count') :=
    fold_left paragraph_step (paragraphs b) ([], 0%Q, 0, total_confidence, word_count) in
  (page_text ++ block_text,
   page_blocks ++ [ {| block_text := strip block_text;
                       block_confidence :=
                         (block_confidence / q_of_nat (Nat.max paragraph_count 1))%Q |} ],
   total_confidence', word_count').

(** The loop over [document.pages]: state is
    [(extracted_data['pages'], total_confidence, word_count)]. *)
Definition page_step (st : list PageEntry * Q * nat) (pg : Page)
  : list PageEntry * Q * nat :=
  let '(acc, total_confidence, word_count) := st in
  let '(page_text, page_blocks, total_confidence', word_count') :=
    fold_left block_step (blocks pg) ([], [], total_confidence, word_count) in
  (acc ++ [OcrPage (length acc + 1) page_text page_blocks],
   total_confidence', word_count').

Definition vision_metadata : Metadata :=
  {| meta_method := Some (u "Vision API");
     language_hints := Some [u "ja"; u "en"]; error := None |}.

(** The [try] body of [extract_text_with_vision_api]; [inl] is a raise. *)
Definition vision_body (v : vision_outcome) : exn + ExtractedDocument :=
  match v with
  | ReadRaises e => inl e
  | CallRaises e => inl e
  | Response error_message document =>
    if truthy error_message
    then inl (u "Vision API error: " ++ error_message)
    else
      match document with
      | None =>
        inr {| doc_text := []; pages := []; metadata := vision_metadata;
               confidence := 0 |}
      | Some doc =>
        let '(acc, total_confidence, word_count) :=
          fold_left page_step (annotation_pages doc) ([], 0%Q, 0) in
        inr {| doc_text := annotation_text doc; pages := acc;
               metadata := vision_metadata;
               confidence := (total_confidence / q_of_nat (Nat.max word_count 1))%Q |}
      end
  end.

Definition extract_text_with_vision_api (v : vision_outcome) : ExtractedDocument :=
  match vision_body v with
  | inr extracted_data => extracted_data
  | inl e => error_document e
  end.

(** *** The chain *)

Definition fresh_document : ExtractedDocument :=
  {| doc_text := []; pages := []; metadata := no_metadata; confidence := 0 |}.

(** The outer [try] body of [extract_text_from_pdf]. *)
Definition pdf_body (doc : Document) : exn + ExtractedDocument :=
  match pypdf2_stage fresh_document (pypdf2 doc) with
  | Returned d => inr d
  | Fallthrough extracted_data =>
    match pdfplumber_stage extracted_data (pdfplumber doc) with
    | Returned d => inr d
    | Fallthrough _ => inr (extract_text_with_vision_api (vision doc))
    end
  end.

Definition extract_text_from_pdf (doc : Document) : ExtractedDocument :=
  match pdf_body doc with
  | inr d => d
  | inl e => error_document e
  end.

(** *** Images

    [preprocess_image] either writes a normalised image and returns its path,
    or fails on the way and returns the path it was given; the adapter is
    then called on that path. *)
Record ImageFile := {
  processed : option vision_outcome;   (* [None]: preprocessing raised *)
  unprocessed : vision_outcome }.

Definition preprocess_image (img : ImageFile) : vision_outcome :=
  match processed img with
  | Some v => v
  | None => unprocessed img
  end.

(** The [try] body of [extract_text_from_image]. *)
Definition image_body (img : ImageFile) : exn + ExtractedDocument :=
  inr (extract_text_with_vision_api (preprocess_image img)).

Definition extract_text_from_image (img : ImageFile) : ExtractedDocument :=
  match image_body img with
  | inr d => d
  | inl e => error_document e
  end.

(** *** What a structural stage does, read off its input

    The pages a stage keeps (numbered from 1) up to its first exception, the
    exception if any, and the text it would return. *)

Fixpoint kept_pages (keeps : option pystr -> exn + bool)
         (outs : list page_outcome) (page_num : nat) : list (nat * pystr) :=
  match outs with
  | [] => []
  | PageRaises _ :: _ => []
  | Extracts t :: rest =>
    match keeps t, t with
    | inl _, _ => []
    | inr true, Some page_text =>
      (page_num + 1, page_text) :: kept_pages keeps rest (S page_num)
    | inr _, _ => kept_pages keeps rest (S page_num)
    end
  end.

Fixpoint first_raise (keeps : option pystr -> exn + bool)
         (outs : list page_outcome) : option exn :=
  match outs with
  | [] => None
  | PageRaises e :: _ => Some e
  | Extracts t :: rest =>
    match keeps t with
    | inl e => Some e
    | inr _ => first_raise keeps rest
    end
  end.

Definition marked (np : nat * pystr) : pystr := page_marker (fst np - 1) (snd np).

Definition entries (method : pystr) (kept : list (nat * pystr)) : list PageEntry :=
  map (fun np => TextPage (fst np) (snd np) method) kept.

(** The page entries a stage appends, whether or not it returns. *)
Definition stage_entries (keeps : option pystr -> exn + bool) (method : pystr)
           (r : reader_outcome) : list PageEntry :=
  match r with
  | OpenRaises _ => []
  | Opened outs => entries method (kept_pages keeps outs 0)
  end.

(** The text a stage yields: it opened the file, no page raised, and the
    concatenated text is non-empty once stripped. *)
Definition stage_yield (keeps : option pystr -> exn + bool) (r : reader_outcome)
  : option pystr :=
  match r with
  | OpenRaises _ => None
  | Opened outs =>
    match first_raise keeps outs with
    | Some _ => None
    | None =>
      let text_content := concat (map marked (kept_pages keeps outs 0)) in
      if truthy (strip text_content) then Some text_content else None
    end
  end.

(** The text the recognition stage yields, when it does not raise. *)
Definition vision_yield (v : vision_outcome) : option pystr :=
  match v with
  | Response [] (Some doc) => Some (annotation_text doc)
  | Response [] None => Some []
  | _ => None
  end.

Definition is_some {X : Type} (o : option X) : bool :=
  match o with Some _ => true | None => false end.

(** The words of an annotation in document order. *)
Definition block_words (b : Block) : list Word := flat_map words (paragraphs b).
Definition page_words (pg : Page) : list Word := flat_map block_words (blocks pg).
Definition all_words (doc : TextAnnotation) : list Word :=
  flat_map page_words (annotation_pages doc).

(** Left-to-right sum, as the accumulation in the loops. *)
Definition sum_from (start : Q) (qs : list Q) : Q := fold_left Qplus qs start.

(** The block records of an extracted document. *)
Definition block_entries (d : ExtractedDocument) : list BlockEntry :=
  flat_map (fun e => match e with
                     | OcrPage _ _ bs => bs
                     | TextPage _ _ _ => []
                     end) (pages d).

(** The failure of the recognition stage, when it raises. *)
Definition vision_failure (v : vision_outcome) : option exn :=
  match v with
  | ReadRaises e => Some e
  | CallRaises e => Some e
  | Response [] _ => None
  | Response error_message _ => Some (u "Vision API error: " ++ error_message)
  end.

(** The aggregate the specification gives for a block: its paragraphs'
    confidences over their number, the number guarded against zero. *)
Definition paragraph_average (b : Block) : Q :=
  (sum_from 0 (map paragraph_confidence (paragraphs b))
   / q_of_nat (Nat.max (length (paragraphs b)) 1))%Q.

(** The aggregate for the document: its words' confidences over their
    number, guarded the same way. *)
Definition word_average (doc : TextAnnotation) : Q :=
  (sum_from 0 (map word_confidence (all_words doc))
   / q_of_nat (Nat.max (length (all_words doc)) 1))%Q.

(** What the adapter's result is, case by case: the error document with
    the failure's description when it fails; the annotation's text, one page
    entry per annotated page and the word average, with no error recorded,
    when it answers. *)
Definition adapter_result (v : vision_outcome) (d : ExtractedDocument) : Prop :=
  (forall e, vision_failure v = Some e ->
     doc_text d = [] /\ pages d = [] /\ confidence d = 0%Q /\
     error (metadata d) = Some e) /\
  (forall t, vision_yield v = Some t ->
     doc_text d = t /\ error (metadata d) = None /\
     match v with
     | Response _ (Some annotation) =>
       confidence d = word_average annotation /\
       length (pages d) = length (annotation_pages annotation)
     | _ => confidence d = 0%Q /\ pages d = []
     end).

(** *** Sample documents *)

Definition empty_reader : reader_outcome := Opened [].

(** A PDF with a text layer. *)
Definition doc_text_layer : Document :=
  {| pypdf2 := Opened [Extracts (Some (u "Service Agreement")); Extracts (Some (u " "))];
     pdfplumber := Opened [Extracts (Some (u "Service Agreement"))];
     vision := CallRaises (u "unavailable") |}.

(** A PDF whose second page breaks PyPDF2 and which pdfplumber reads. *)
Definition doc_second_stage : Document :=
  {| pypdf2 := Opened [Extracts (Some (u "alpha")); PageRaises (u "bad xref")];
     pdfplumber := Opened [Extracts (Some (u "beta"))];
     vision := CallRaises (u "unavailable") |}.

(** A scanned PDF the service recognises, reporting confidence 0 for its
    one word. *)
Definition unscored_annotation : TextAnnotation :=
  {| annotation_text := u "契約書";
     annotation_pages :=
       [ {| blocks :=
              [ {| paragraphs :=
                     [ {| words := [ {| symbols := [u "契"; u "約"; u "書"];
                                        word_confidence := 0 |} ];
                          paragraph_confidence := 0 |} ] |} ] |} ] |}.

Definition doc_unscored : Document :=
  {| pypdf2 := Opened [Extracts (Some [])];
     pdfplumber := Opened [Extracts None];
     vision := Response [] (Some unscored_annotation) |}.

(** A scanned PDF for which the service returns no annotation. *)
Definition doc_blank : Document :=
  {| pypdf2 := Opened [Extracts (Some [])];
     pdfplumber := Opened [Extracts None];
     vision := Response [] None |}.

(** A scanned PDF on which every stage raises. *)
Definition doc_unreadable : Document :=
  {| pypdf2 := OpenRaises (u "EOF marker not found");
     pdfplumber := OpenRaises (u "No /Root object");
     vision := Response (u "Bad image data") None |}.

(** One block, one paragraph, two scored words. *)
Definition scored_block : Block :=
  {| paragraphs :=
       [ {| words := [ {| symbols := [u "甲"]; word_confidence := 0.9 |};
                       {| symbols := [u "乙"]; word_confidence := 0.7 |} ];
            paragraph_confidence := 0.8 |} ] |}.

Definition scored_annotation : TextAnnotation :=
  {| annotation_text := u "甲乙";
     annotation_pages := [ {| blocks := [scored_block] |} ] |}.

(** The first testable property of the specification, as it is worded:
    some strategy yields non-empty text, or none does. *)
Definition some_strategy_yields (doc : Document) : bool :=
  is_some (stage_yield pypdf2_keeps (pypdf2 doc))
  || is_some (stage_yield pdfplumber_keeps (pdfplumber doc))
  || match vision_yield (vision doc) with
     | Some t => truthy t
     | None => false
     end.

Definition recover_text_as_specified (doc : Document) : Prop :=
  let d := extract_text_from_pdf doc in
  (some_strategy_yields doc = true ->
   (0 < confidence d)%Q /\ pages d <> []) /\
  (some_strategy_yields doc = false ->
   doc_text d = [] /\ pages d = [] /\ (confidence d == 0)%Q /\
   exists e, error (metadata d) = Some e).

(** ** Order and sample texts for the extractor *)

(** [l1] is [l2] with some elements left out, the order kept. *)
Inductive subseq {X : Type} : list X -> list X -> Prop :=
| subseq_nil : subseq [] []
| subseq_skip x l1 l2 : subseq l1 l2 -> subseq l1 (x :: l2)
| subseq_keep x l1 l2 : subseq l1 l2 -> subseq (x :: l1) (x :: l2).

Fixpoint ascending (l : list nat) : bool :=
  match l with
  | a :: (b :: _) as l' => (a <=? b) && ascending l'
  | _ => true
  end.

(** The parties list as the data model words it: no name twice, and in
    the order of the source positions. *)
Definition parties_as_specified (ucd : UnicodeData) (text : pystr) : Prop :=
  let kept := unique_parties (party_matches ucd text) [] in
  NoDup (map name kept) /\ ascending (map party_position kept) = true.

Definition two_companies : pystr :=
  Eval vm_compute in u "Acme Trading Inc. と株式会社テスト".

(** A termination clause in one paragraph, naming both [解除] and [終了]. *)
Definition termination_text : pystr :=
  Eval vm_compute in
    u "本契約の解除または終了に関する事項は、次の各号に定めるとおりとする。".

(** The traceability invariant as the data model words it: every item
    carries a [position], an offset into the source text. *)
Definition positioned (text : pystr) (item : pydict) : Prop :=
  exists p, lookup "position" item = Some (VInt p) /\ p <= length text.

Definition items_positioned (ucd : UnicodeData) (text : pystr) : Prop :=
  Forall (positioned text) (items (extract_contract_information ucd text)).

(** [pattern] matches in [text] at offset [p], as the match [m]. *)
Definition matches_at (pattern : regex) (text : pystr) (p : nat) (m : Match) : Prop :=
  p <= length text /\ match_at pattern p (skipn p text) = Some m.

(** The year, month and day a date match denotes, when all three are
    numerals. *)
Definition parsed_ymd (ucd : UnicodeData) (fmt : date_format) (text : pystr)
           (m : Match) : option (N * N * N) :=
  let '(year, month, day) := ymd_groups fmt text m in
  match py_int ucd year, py_int ucd month, py_int ucd day with
  | Some y, Some mo, Some dd => Some (y, mo, dd)
  | _, _, _ => None
  end.

Definition entry_of (text : pystr) (m : Match) (ymd : N * N * N) : DateEntry :=
  let '(y, mo, dd) := ymd in
  {| date := isoformat {| dt_year := y; dt_month := mo; dt_day := dd |};
     original_text := group0 text m;
     position := m_start m |}.

Definition position_le (a b : DateEntry) : Prop := position a <= position b.

(** The dates pass as the specification words it: the mapping always
    holds [all_dates], the full sorted pool, and the three selected dates. *)
Definition dates_as_specified (ucd : UnicodeData) (text : pystr) : Prop :=
  let sorted := sorted_by_position (date_pool ucd text) in
  exists ds,
    extract_dates ucd text = Some ds /\
    all_dates ds = sorted /\
    contract_date ds = nth_error sorted 0 /\
    effective_date ds = nth_error sorted 1 /\
    expiration_date ds = (if 2 <? length sorted then last_entry sorted else None).

(** A text whose only date has a thirteenth month. *)
Definition month_thirteen : pystr :=
  Eval vm_compute in u "納期は2024年13月1日とする。".

(** A text with a thirteenth month and a thirty-second day. *)
Definition malformed_dates : pystr :=
  Eval vm_compute in u "期限は2024年13月1日または2024/1/32、納期は2024/6/30とする。".

(** *** The two-date example of the specification *)

Definition date1 : pystr := Eval vm_compute in u "2024年1月15日".
Definition date2 : pystr := Eval vm_compute in u "2024年6月30日".

Definition two_dates_text : pystr :=
  Eval vm_compute in u "契約締結日は2024年1月15日、納期は2024年6月30日とする。".

Definition is_japanese (fmt : date_format) : bool :=
  match fmt with japanese => true | _ => false end.

(** No date pattern matches anywhere in [text], except the first one at
    the offsets [p1] and [p2]. *)
Definition no_other_date_shapes (ucd : UnicodeData) (text : pystr) (p1 p2 : nat)
  : bool :=
  forallb (fun p =>
    forallb (fun pf =>
      is_japanese (snd pf) && ((p =? p1) || (p =? p2))
      || negb (is_some (match_at (fst pf) p (skipn p text))))
      (date_patterns ucd))
    (seq 0 (S (length text))).

(** The table gives the ASCII digits their values. *)
Definition ascii_digits (ucd : UnicodeData) : Prop :=
  forall c, (48 <= c <= 57)%N -> decimal ucd c = Some (c - 48)%N.

(** The dates example as the specification words it. *)
Definition two_dates_as_specified (ucd : UnicodeData) (text : pystr) : Prop :=
  exists ds e,
    extract_dates ucd text = Some ds /\
    contract_date ds = Some e /\ date e = u "2024-01-15" /\
    expiration_date ds = None /\
    length (all_dates ds) = 2 /\
    ascending (map position (all_dates ds)) = true.

Definition iso1 : pystr := Eval vm_compute in u "2024-01-15T00:00:00".
Definition iso2 : pystr := Eval vm_compute in u "2024-06-30T00:00:00".

(** ** Properties of matchers *)

Section MatcherProperties.
Variable A : Type.

(** Whatever a matcher returns, it got from its continuation, called
    [n] characters further on. *)
Definition advances (f : nat -> pystr -> spans -> cont A -> option A) : Prop :=
  forall pos s cs k x,
    f pos s cs k = Some x ->
    exists n cs', n <= length s /\ k (pos + n) (skipn n s) cs' = Some x.

Definition cont_eq (k k' : cont A) : Prop := forall n s cs, k n s cs = k' n s cs.

(** Two matchers that agree on continuations that agree. *)
Definition matcher_eq (f f' : nat -> pystr -> spans -> cont A -> option A) : Prop :=
  forall n s cs k k', cont_eq k k' -> f n s cs k = f' n s cs k'.
End MatcherProperties.

(** Two patterns of the same shape whose classes hold the same characters. *)
Inductive regex_eq : regex -> regex -> Prop :=
| regex_eq_Emp : regex_eq Emp Emp
| regex_eq_Cls p q : (forall c, p c = q c) -> regex_eq (Cls p) (Cls q)
| regex_eq_Cat r1 r1' r2 r2' :
    regex_eq r1 r1' -> regex_eq r2 r2' -> regex_eq (Cat r1 r2) (Cat r1' r2')
| regex_eq_Alt r1 r1' r2 r2' :
    regex_eq r1 r1' -> regex_eq r2 r2' -> regex_eq (Alt r1 r2) (Alt r1' r2')
| regex_eq_Rep r r' lo hi : regex_eq r r' -> regex_eq (Rep r lo hi) (Rep r' lo hi)
| regex_eq_Grp i r r' : regex_eq r r' -> regex_eq (Grp i r) (Grp i r').

(** A table with the ASCII digits filled in. *)
Definition with_ascii_digits (ucd : UnicodeData) : UnicodeData :=
  {| decimal := fun c => if ((48 <=? c) && (c <=? 57))%N
                         then Some (c - 48)%N else decimal ucd c;
     word_char := word_char ucd |}.

(** The match of [date1] or [date2] at offset [p]: four digits, one digit,
    two digits. *)
Definition date_match (p : nat) : Match :=
  {| m_start := p; m_end := p + 10;
     m_groups := [(3, (p + 7, p + 9)); (2, (p + 5, p + 6)); (1, (p + 0, p + 4))] |}.

Definition two_dates_result (p1 p2 : nat) : Dates :=
  let e1 := {| date := iso1; original_text := date1; position := p1 |} in
  let e2 := {| date := iso2; original_text := date2; position := p2 |} in
  {| contract_date := Some e1; effective_date := Some e2;
     expiration_date := None; all_dates := [e1; e2] |}.

(** The first date pattern. *)
Definition jp_pattern (ucd : UnicodeData) : regex :=
  fst (nth 0 (date_patterns ucd) (Emp, slash)).

(** ** Further descriptions used by the properties below *)

(** A string of whitespace only. *)
Definition blank (s : pystr) : bool := forallb is_space s.

(** The first character, if any, is not whitespace. *)
Definition no_lead (s : pystr) : Prop :=
  match s with
  | c :: _ => is_space c = false
  | [] => True
  end.

(** The line a page entry of a structural stage contributes to the text. *)
Definition entry_marker (e : PageEntry) : pystr :=
  match e with
  | TextPage n t _ => page_marker (n - 1) t
  | OcrPage _ _ _ => []
  end.

Definition entry_number (e : PageEntry) : nat :=
  match e with
  | TextPage n _ _ => n
  | OcrPage n _ _ => n
  end.

Definition entry_text (e : PageEntry) : pystr :=
  match e with
  | TextPage _ t _ => t
  | OcrPage _ t _ => t
  end.

Definition entry_method (e : PageEntry) : option pystr :=
  match e with
  | TextPage _ _ m => Some m
  | OcrPage _ _ _ => None
  end.

(** A PDF whose only page holds spaces. *)
Definition doc_spaces : Document :=
  {| pypdf2 := Opened [Extracts (Some (u "   "))];
     pdfplumber := Opened [Extracts (Some (u "   "))];
     vision := CallRaises (u "unavailable") |}.

(** The text the adapter rebuilds: a word is followed by a space, a
    paragraph by a line feed. *)
Definition render_paragraph (p : Paragraph) : pystr :=
  concat (map (fun w => word_text w ++ u " ") (words p)).

Definition render_block (b : Block) : pystr :=
  concat (map (fun p => render_paragraph p ++ [10%N]) (paragraphs b)).

Definition render_page (pg : Page) : pystr := concat (map render_block (blocks pg)).

Definition block_entry_of (b : Block) : BlockEntry :=
  {| block_text := strip (render_block b);
     block_confidence := (0 / q_of_nat (Nat.max (length (paragraphs b)) 1))%Q |}.

(** The page entries of an annotation, numbered from [n]. *)
Fixpoint ocr_pages (n : nat) (pgs : list Page) : list PageEntry :=
  match pgs with
  | [] => []
  | pg :: rest =>
    OcrPage n (render_page pg) (map block_entry_of (blocks pg)) :: ocr_pages (S n) rest
  end.

(** Every word confidence the service reports lies between 0 and 1. *)
Definition unit_scores (v : vision_outcome) : Prop :=
  match v with
  | Response _ (Some doc) =>
    Forall (fun w => (0 <= word_confidence w <= 1)%Q) (all_words doc)
  | _ => True
  end.

(** An image whose normalisation fails and which the service reads. *)
Definition scored_image : ImageFile :=
  {| processed := None; unprocessed := Response [] (Some scored_annotation) |}.

(** The characters [re.split(r'[。．\n]', ...)] splits on. *)
Definition is_terminator (c : char) : bool :=
  existsb (char_eqb c) [0x3002; 0xFF0E; 10]%N.

(** A clause's category and keyword, and the pairs the table allows, in
    the order of the table. *)
Definition clause_key (c : Clause) : pystr * pystr := (clause_type c, clause_keyword c).

Definition clause_pairs : list (pystr * pystr) :=
  flat_map (fun tk => map (pair (fst tk)) (snd tk)) clause_types.

Definition key_eqb (a b : pystr * pystr) : bool :=
  str_eqb (fst a) (fst b) && str_eqb (snd a) (snd b).

Fixpoint distinct_keys (l : list (pystr * pystr)) : bool :=
  match l with
  | [] => true
  | x :: l' => negb (existsb (key_eqb x) l') && distinct_keys l'
  end.

(** The one sentence of [termination_text], without its full stop. *)
Definition termination_sentence : pystr :=
  Eval vm_compute in
    u "本契約の解除または終了に関する事項は、次の各号に定めるとおりとする".

Definition termination_key_term : KeyTerm :=
  Eval vm_compute in
    {| keyword := u "解除";
       text := termination_sentence;
       importance := u "high" |}.

(** [s] is a contiguous excerpt of [t]. *)
Definition occurs_in (s t : pystr) : Prop := exists pre post, t = pre ++ s ++ post.

(** A non-empty string with no whitespace at either end. *)
Definition solid (s : pystr) : bool :=
  match s, rev s with
  | c :: _, c' :: _ => negb (is_space c) && negb (is_space c')
  | _, _ => false
  end.

(** ** What a match is

    [sem r pos w cs cs']: the pattern [r], tried [pos] characters after the
    start of the attempt, can consume the word [w], taking the group spans
    from [cs] to [cs'].  A repetition never iterates on the empty word. *)
Inductive sem : regex -> nat -> pystr -> spans -> spans -> Prop :=
| sem_Emp pos cs : sem Emp pos [] cs cs
| sem_Cls p c pos cs : p c = true -> sem (Cls p) pos [c] cs cs
| sem_Cat r1 r2 pos w1 w2 cs cs1 cs2 :
    sem r1 pos w1 cs cs1 -> sem r2 (pos + length w1) w2 cs1 cs2 ->
    sem (Cat r1 r2) pos (w1 ++ w2) cs cs2
| sem_Alt_l r1 r2 pos w cs cs' : sem r1 pos w cs cs' -> sem (Alt r1 r2) pos w cs cs'
| sem_Alt_r r1 r2 pos w cs cs' : sem r2 pos w cs cs' -> sem (Alt r1 r2) pos w cs cs'
| sem_Rep_stop r hi pos cs : sem (Rep r 0 hi) pos [] cs cs
| sem_Rep_step r lo hi pos w1 w2 cs cs1 cs2 :
    hi <> Some 0 -> w1 <> [] ->
    sem r pos w1 cs cs1 ->
    sem (Rep r (pred lo) (option_map pred hi)) (pos + length w1) w2 cs1 cs2 ->
    sem (Rep r lo hi) pos (w1 ++ w2) cs cs2
| sem_Grp i r pos w cs cs' :
    sem r pos w cs cs' ->
    sem (Grp i r) pos w cs ((i, (pos, pos + length w)) :: cs').

(** Every character a pattern can consume satisfies [P]. *)
Fixpoint classes_within (P : char -> Prop) (r : regex) : Prop :=
  match r with
  | Emp => True
  | Cls p => forall c, p c = true -> P c
  | Cat r1 r2 | Alt r1 r2 => classes_within P r1 /\ classes_within P r2
  | Rep r _ _ | Grp _ r => classes_within P r
  end.

Fixpoint nogroups (r : regex) : Prop :=
  match r with
  | Emp | Cls _ => True
  | Cat r1 r2 | Alt r1 r2 => nogroups r1 /\ nogroups r2
  | Rep r _ _ => nogroups r
  | Grp _ _ => False
  end.

Section MatcherSound.
Variable A : Type.

(** Whatever a matcher returns, it got from its continuation after
    consuming a word of the pattern [r]. *)
Definition sound (r : regex) (f : nat -> pystr -> spans -> cont A -> option A) : Prop :=
  forall pos s cs k x,
    f pos s cs k = Some x ->
    exists w s' cs',
      s = w ++ s' /\ sem r pos w cs cs' /\ k (pos + length w) s' cs' = Some x.
End MatcherSound.

(** A text with one amount, and the record extracted from it. *)
Definition fee_text : pystr :=
  Eval vm_compute in u "甲は乙に対し、月額500,000円（税別）の報酬を支払う。".

Definition fee_amount : Amount :=
  Eval vm_compute in
    {| value := 500000 # 1;
       amount_original_text := u "500,000円";
       currency := u "JPY";
       amount_position := 9 |}.

(** ** The storage URL of a request

    The handler reads the bucket and the object path off [file_url] with
    [file_url.split('/')[2]] and ['/'.join(file_url.split('/')[3:])]. *)
Definition is_slash (c : char) : bool := char_eqb c 47%N.

(** [s.split('/')] *)
Definition split_slash (s : pystr) : list pystr := split_on is_slash s [].

(** ['/'.join(parts)] *)
Fixpoint join_slash (parts : list pystr) : pystr :=
  match parts with
  | [] => []
  | [p] => p
  | p :: rest => p ++ 47%N :: join_slash rest
  end.

(** [None] stands for the [IndexError] of the subscript. *)
Definition bucket_name (file_url : pystr) : option pystr :=
  nth_error (split_slash file_url) 2.

Definition file_path (file_url : pystr) : pystr :=
  join_slash (skipn 3 (split_slash file_url)).

(** The URL the test script sends. *)
Definition test_url : pystr := Eval vm_compute in u "gs://test-bucket/sample.pdf".

(** * Properties *)

(** ** Text recovery chain *)

Lemma marked_page page_num page_text :
  marked (page_num + 1, page_text) = page_marker page_num page_text.
Proof. unfold marked; simpl. now replace (page_num + 1 - 1) with page_num by lia. Qed.

Lemma page_loop_spec keeps method outs : forall page_num text_content acc,
  page_loop keeps method outs page_num text_content acc =
  (text_content ++ concat (map marked (kept_pages keeps outs page_num)),
   acc ++ entries method (kept_pages keeps outs page_num),
   first_raise keeps outs).
Proof.
  induction outs as [|o outs IH]; intros page_num text_content acc;
    cbn [page_loop kept_pages first_raise].
  - cbn. now rewrite !app_nil_r.
  - destruct o as [t|e].
    + destruct (keeps t) as [e|[|]] eqn:Hk.
      * cbn. now rewrite !app_nil_r.
      * destruct t as [page_text|]; rewrite IH; [|reflexivity].
        cbn [map concat entries fst snd].
        now rewrite marked_page, <- !app_assoc.
      * destruct t; now rewrite IH.
    + cbn. now rewrite !app_nil_r.
Qed.

(** A stage returns exactly when it yields text; otherwise it leaves its
    page entries behind in the shared accumulator. *)
Lemma structural_stage_spec keeps method conf d0 r :
  structural_stage keeps method conf d0 r =
  match stage_yield keeps r with
  | Some t =>
    Returned {| doc_text := t;
                pages := pages d0 ++ stage_entries keeps method r;
                metadata := metadata d0; confidence := conf |}
  | None => Fallthrough (with_pages d0 (pages d0 ++ stage_entries keeps method r))
  end.
Proof.
  destruct r as [e|outs]; simpl.
  - rewrite app_nil_r. destruct d0; reflexivity.
  - rewrite page_loop_spec; simpl.
    destruct (first_raise keeps outs); [reflexivity|].
    destruct (truthy _); reflexivity.
Qed.

Lemma stage_yield_kept keeps r t :
  stage_yield keeps r = Some t ->
  truthy (strip t) = true /\
  exists outs, r = Opened outs /\ kept_pages keeps outs 0 <> [].
Proof.
  destruct r as [e|outs]; simpl; [discriminate|].
  destruct (first_raise keeps outs); [discriminate|].
  destruct (truthy _) eqn:Ht; [|discriminate].
  intros [= <-]. split; [exact Ht|].
  exists outs; split; [reflexivity|].
  intros Hk. rewrite Hk in Ht. discriminate.
Qed.

Lemma stage_yield_entries keeps method r t :
  stage_yield keeps r = Some t -> stage_entries keeps method r <> [].
Proof.
  intros H. apply stage_yield_kept in H as [_ (outs & -> & Hk)].
  simpl. unfold entries. destruct (kept_pages keeps outs 0); [congruence|discriminate].
Qed.

(** The chain, case by case. *)
Lemma extract_text_from_pdf_cases doc :
  extract_text_from_pdf doc =
  match stage_yield pypdf2_keeps (pypdf2 doc) with
  | Some t =>
    {| doc_text := t;
       pages := stage_entries pypdf2_keeps (u "PyPDF2") (pypdf2 doc);
       metadata := no_metadata; confidence := 0.9 |}
  | None =>
    match stage_yield pdfplumber_keeps (pdfplumber doc) with
    | Some t =>
      {| doc_text := t;
         pages := stage_entries pypdf2_keeps (u "PyPDF2") (pypdf2 doc)
                  ++ stage_entries pdfplumber_keeps (u "pdfplumber") (pdfplumber doc);
         metadata := no_metadata; confidence := 0.85 |}
    | None => extract_text_with_vision_api (vision doc)
    end
  end.
Proof.
  unfold extract_text_from_pdf, pdf_body, pypdf2_stage, pdfplumber_stage.
  rewrite structural_stage_spec.
  destruct (stage_yield pypdf2_keeps (pypdf2 doc)); [reflexivity|].
  rewrite structural_stage_spec.
  destruct (stage_yield pdfplumber_keeps (pdfplumber doc)); reflexivity.
Qed.

(** C1. A result of the first stage (PyPDF2) has confidence exactly 0.9, a
    result of the second stage (pdfplumber) exactly 0.85, never both; the chain
    returns at the first stage that completes with non-empty stripped text,
    and goes on to the recognition adapter when neither does. *)
Theorem pdf_chain_confidence (doc : Document) :
  let d := extract_text_from_pdf doc in
  (forall t, stage_yield pypdf2_keeps (pypdf2 doc) = Some t ->
     pypdf2_stage fresh_document (pypdf2 doc) = Returned d /\
     doc_text d = t /\ truthy (strip t) = true /\ confidence d = 0.9%Q) /\
  (forall t, stage_yield pypdf2_keeps (pypdf2 doc) = None ->
     stage_yield pdfplumber_keeps (pdfplumber doc) = Some t ->
     (exists d1, pypdf2_stage fresh_document (pypdf2 doc) = Fallthrough d1 /\
                 pdfplumber_stage d1 (pdfplumber doc) = Returned d) /\
     doc_text d = t /\ truthy (strip t) = true /\ confidence d = 0.85%Q) /\
  (stage_yield pypdf2_keeps (pypdf2 doc) = None ->
   stage_yield pdfplumber_keeps (pdfplumber doc) = None ->
   d = extract_text_with_vision_api (vision doc)) /\
  ~ (confidence d = 0.9%Q /\ confidence d = 0.85%Q).
Proof.
  intros d; subst d. rewrite extract_text_from_pdf_cases.
  unfold pypdf2_stage, pdfplumber_stage.
  split; [|split; [|split]].
  - intros t H. rewrite structural_stage_spec, H.
    destruct (stage_yield_kept _ _ H) as [Ht _]. auto.
  - intros t H1 H2. rewrite structural_stage_spec, H1, H2.
    destruct (stage_yield_kept _ _ H2) as [Ht _].
    split; [|auto].
    eexists; split; [reflexivity|].
    rewrite structural_stage_spec, H2. reflexivity.
  - intros H1 H2. now rewrite H1, H2.
  - intros [H H0]. rewrite H in H0. discriminate.
Qed.

Lemma pdf_chain_confidence_witness :
  confidence (extract_text_from_pdf doc_text_layer) = 0.9%Q /\
  confidence (extract_text_from_pdf doc_second_stage) = 0.85%Q /\
  extract_text_from_pdf doc_unreadable =
  extract_text_with_vision_api (vision doc_unreadable).
Proof.
  split; [|split].
  - destruct (pdf_chain_confidence doc_text_layer) as [H _].
    destruct (H _ eq_refl) as (_ & _ & _ & Hc). exact Hc.
  - destruct (pdf_chain_confidence doc_second_stage) as (_ & H & _).
    destruct (H _ eq_refl eq_refl) as (_ & _ & _ & Hc). exact Hc.
  - destruct (pdf_chain_confidence doc_unreadable) as (_ & _ & H & _).
    exact (H eq_refl eq_refl).
Defined.

(** Whatever the first stage appended stays in [pages] when the second
    stage returns. *)
Lemma pdf_second_stage_pages doc t :
  stage_yield pypdf2_keeps (pypdf2 doc) = None ->
  stage_yield pdfplumber_keeps (pdfplumber doc) = Some t ->
  pages (extract_text_from_pdf doc) =
  stage_entries pypdf2_keeps (u "PyPDF2") (pypdf2 doc)
  ++ stage_entries pdfplumber_keeps (u "pdfplumber") (pdfplumber doc).
Proof.
  intros H1 H2. now rewrite extract_text_from_pdf_cases, H1, H2.
Qed.

(** C10. The pages accumulator is shared by the two structural stages and
    not reset between them: there is a PDF on which PyPDF2 records a page and
    then raises, pdfplumber succeeds, and the result has confidence 0.85 and
    the text of the second stage only, while its pages still hold the PyPDF2
    entry, whose text occurs nowhere in the result's text. *)
Theorem pdf_pages_shared_between_stages :
  exists (doc : Document) (t1 t2 : pystr) (e : exn),
    pypdf2 doc = Opened [Extracts (Some t1); PageRaises e] /\
    pdfplumber doc = Opened [Extracts (Some t2)] /\
    let d := extract_text_from_pdf doc in
    confidence d = 0.85%Q /\
    doc_text d = page_marker 0 t2 /\
    pages d = [TextPage 1 t1 (u "PyPDF2"); TextPage 1 t2 (u "pdfplumber")] /\
    contains t1 (doc_text d) = false.
Proof.
  exists doc_second_stage, (u "alpha"), (u "beta"), (u "bad xref").
  repeat split.
Qed.

(** ** Vision API adapter *)

Lemma vision_body_failure v e :
  vision_body v = inl e <-> vision_failure v = Some e.
Proof.
  destruct v as [e'|e'|[|c msg] [doc|]]; cbn [vision_body vision_failure truthy];
    first [ split; discriminate
          | split; intros H; inversion H; reflexivity
          | idtac ].
  destruct (fold_left _ _ _) as [[? ?] ?]. split; discriminate.
Qed.

Lemma vision_body_total v :
  vision_failure v = None -> exists d, vision_body v = inr d.
Proof.
  destruct (vision_body v) as [e|d] eqn:H; [|eauto].
  apply vision_body_failure in H. congruence.
Qed.

Lemma sum_from_app start qs qs' :
  sum_from start (qs ++ qs') = sum_from (sum_from start qs) qs'.
Proof. apply fold_left_app. Qed.

Lemma word_loop ws : forall paragraph_text total word_count,
  exists paragraph_text',
    fold_left word_step ws (paragraph_text, total, word_count) =
    (paragraph_text', sum_from total (map word_confidence ws),
     word_count + length ws).
Proof.
  induction ws as [|w ws IH]; intros pt total n; cbn [fold_left map length].
  - eexists. now rewrite Nat.add_0_r.
  - unfold word_step at 2.
    match goal with
    | |- context [fold_left word_step ws (?a, ?b, ?c)] =>
      destruct (IH a b c) as [pt' Hrw]
    end.
    eexists. rewrite Hrw. unfold sum_from; cbn [fold_left]. f_equal. lia.
Qed.

Lemma paragraph_loop ps : forall block_text bc paragraph_count total word_count,
  exists block_text',
    fold_left paragraph_step ps (block_text, bc, paragraph_count, total, word_count) =
    (block_text', bc, paragraph_count + length ps,
     sum_from total (map word_confidence (flat_map words ps)),
     word_count + length (flat_map words ps)).
Proof.
  induction ps as [|p ps IH]; intros bt bc pc total n;
    cbn [fold_left map length flat_map].
  - eexists. now rewrite !Nat.add_0_r.
  - destruct (word_loop (words p) [] total n) as [pt' Hw].
    unfold paragraph_step at 2. rewrite Hw.
    match goal with
    | |- context [fold_left paragraph_step ps (?a, ?b, ?c, ?d, ?e)] =>
      destruct (IH a b c d e) as [bt' Hrw]
    end.
    eexists. rewrite Hrw, map_app, sum_from_app, length_app.
    f_equal; [f_equal; f_equal|]; lia.
Qed.

Lemma block_loop bs : forall page_text page_blocks total word_count,
  exists page_text' new_blocks,
    fold_left block_step bs (page_text, page_blocks, total, word_count) =
    (page_text', page_blocks ++ new_blocks,
     sum_from total (map word_confidence (flat_map block_words bs)),
     word_count + length (flat_map block_words bs)) /\
    Forall2 (fun (b : Block) (entry : BlockEntry) =>
               block_confidence entry =
               (0 / q_of_nat (Nat.max (length (paragraphs b)) 1))%Q)
            bs new_blocks.
Proof.
  induction bs as [|b bs IH]; intros pt pbs total n;
    cbn [fold_left map length flat_map].
  - exists pt, []. now rewrite app_nil_r, Nat.add_0_r.
  - destruct (paragraph_loop (paragraphs b) [] 0%Q 0 total n) as [bt' Hp].
    unfold block_step at 2. rewrite Hp.
    match goal with
    | |- context [fold_left block_step bs (?a, ?b, ?c, ?d)] =>
      destruct (IH a b c d) as (pt' & new & Hrw & Hnew)
    end.
    eexists; eexists; split.
    + rewrite Hrw, <- app_assoc. fold (block_words b).
      rewrite map_app, sum_from_app, length_app, Nat.add_assoc. reflexivity.
    + constructor; [reflexivity|exact Hnew].
Qed.

Lemma page_loop_vision pgs : forall acc total word_count,
  exists acc',
    fold_left page_step pgs (acc, total, word_count) =
    (acc', sum_from total (map word_confidence (flat_map page_words pgs)),
     word_count + length (flat_map page_words pgs)) /\
    length acc' = length acc + length pgs /\
    (Forall (fun entry => (block_confidence entry == 0)%Q)
            (flat_map (fun e => match e with
                                | OcrPage _ _ bs => bs
                                | TextPage _ _ _ => []
                                end) acc) ->
     Forall (fun entry => (block_confidence entry == 0)%Q)
            (flat_map (fun e => match e with
                                | OcrPage _ _ bs => bs
                                | TextPage _ _ _ => []
                                end) acc')).
Proof.
  induction pgs as [|pg pgs IH]; intros acc total n;
    cbn [fold_left map length flat_map].
  - exists acc. rewrite !Nat.add_0_r. auto.
  - destruct (block_loop (blocks pg) [] [] total n) as (pt' & new & Hb & Hnew).
    unfold page_step at 2. rewrite Hb.
    match goal with
    | |- context [fold_left page_step pgs (?a, ?b, ?c)] =>
      destruct (IH a b c) as (acc' & Hrw & Hlen & Hz)
    end.
    exists acc'. split; [|split].
    + rewrite Hrw. fold (page_words pg).
      rewrite map_app, sum_from_app, length_app, Nat.add_assoc. reflexivity.
    + rewrite Hlen, length_app. simpl. lia.
    + intros Hacc. apply Hz. rewrite flat_map_app. apply Forall_app. split; [exact Hacc|].
      cbn [flat_map app]. rewrite app_nil_r.
      clear -Hnew. induction Hnew as [|b entry bs new Hbe _ IHn]; constructor; [|exact IHn].
      rewrite Hbe. reflexivity.
Qed.

(** The document-level confidence is the word average, and every block
    record has confidence zero: [block_confidence] is never added to. *)
Lemma vision_confidences (doc : TextAnnotation) :
  let d := extract_text_with_vision_api (Response [] (Some doc)) in
  confidence d = word_average doc /\
  length (pages d) = length (annotation_pages doc) /\
  Forall (fun entry => (block_confidence entry == 0)%Q) (block_entries d).
Proof.
  unfold extract_text_with_vision_api, block_entries, word_average, all_words.
  cbn [vision_body truthy].
  destruct (page_loop_vision (annotation_pages doc) [] 0%Q 0)
    as (acc' & Hrw & Hlen & Hz).
  rewrite Hrw. cbn [pages confidence]. split; [reflexivity|]. split; [exact Hlen|].
  apply Hz. constructor.
Qed.

(** C7. On an annotation with one block of one paragraph (confidence 0.8)
    holding two words (0.9 and 0.7), the document confidence is the word
    average 0.8, but the block record's confidence is 0 and not the
    paragraph aggregate 0.8 the specification describes. *)
Theorem vision_block_confidence_unaggregated :
  let d := extract_text_with_vision_api (Response [] (Some scored_annotation)) in
  (confidence d == 0.8)%Q /\
  confidence d = word_average scored_annotation /\
  (paragraph_average scored_block == 0.8)%Q /\
  exists entry, block_entries d = [entry] /\
                (block_confidence entry == 0)%Q /\
                ~ (block_confidence entry == paragraph_average scored_block)%Q.
Proof.
  cbv zeta. split; [reflexivity|]. split; [reflexivity|]. split; [reflexivity|].
  eexists. split; [reflexivity|]. split; [reflexivity|]. discriminate.
Qed.

(** ** The chain never raises *)

Lemma pdf_body_returns doc : exists d, pdf_body doc = inr d.
Proof.
  unfold pdf_body.
  destruct (pypdf2_stage _ _); [eauto|].
  destruct (pdfplumber_stage _ _); eauto.
Qed.

(** C2, as the specification words it, fails on a scan recognised with
    word confidence 0 (non-empty text, confidence 0) and on a scan with no
    annotation (nothing recovered, yet no error recorded). *)
Lemma recover_text_as_specified_fails :
  ~ recover_text_as_specified doc_unscored /\
  ~ recover_text_as_specified doc_blank.
Proof.
  split.
  - intros [H _]. destruct (H eq_refl) as [Hc _].
    vm_compute in Hc. discriminate.
  - intros [_ H]. destruct (H eq_refl) as (_ & _ & _ & e & He).
    vm_compute in He. discriminate.
Qed.

(** The adapter's result: the error document when it fails, the converted
    annotation when it answers. *)
Lemma vision_result_cases (v : vision_outcome) :
  adapter_result v (extract_text_with_vision_api v).
Proof.
  unfold adapter_result. split.
  - intros e He. apply vision_body_failure in He.
    unfold extract_text_with_vision_api. rewrite He. repeat split.
  - intros t Ht. destruct v as [e|e|[|c msg] [annotation|]];
      try discriminate; injection Ht as <-.
    + destruct (vision_confidences annotation) as (Hc & Hl & _).
      split; [|split; [|split; assumption]].
      * unfold extract_text_with_vision_api. cbn [vision_body truthy].
        destruct (fold_left _ _ _) as [[? ?] ?]. reflexivity.
      * unfold extract_text_with_vision_api. cbn [vision_body truthy].
        destruct (fold_left _ _ _) as [[? ?] ?]. reflexivity.
    + repeat split.
Qed.

(** C2, amended.  Neither [extract_text_from_pdf] nor
    [extract_text_from_image] raises.  For a PDF, when one of the two
    structural stages yields text, the confidence is positive and the pages
    are not empty.  When neither does, and for an image, the result is the
    recognition adapter's: if the adapter fails, the text and the pages are
    empty, the confidence is 0.0 and [metadata.error] is that failure's
    description; if it answers, the text is the annotation's, one page entry
    is recorded per annotated page, the confidence is the word average, and
    no error is recorded. *)
Theorem recover_text_total (doc : Document) (img : ImageFile) :
  let d := extract_text_from_pdf doc in
  (exists d', pdf_body doc = inr d') /\
  (exists d', image_body img = inr d') /\
  (is_some (stage_yield pypdf2_keeps (pypdf2 doc))
   || is_some (stage_yield pdfplumber_keeps (pdfplumber doc)) = true ->
   (0 < confidence d)%Q /\ pages d <> []) /\
  (stage_yield pypdf2_keeps (pypdf2 doc) = None ->
   stage_yield pdfplumber_keeps (pdfplumber doc) = None ->
   adapter_result (vision doc) d) /\
  adapter_result (preprocess_image img) (extract_text_from_image img).
Proof.
  cbv zeta. split; [apply pdf_body_returns|].
  split; [eexists; reflexivity|].
  rewrite extract_text_from_pdf_cases. split; [|split].
  - destruct (stage_yield pypdf2_keeps (pypdf2 doc)) as [t|] eqn:H1.
    + intros _. split; [reflexivity|]. simpl. eapply stage_yield_entries; eauto.
    + destruct (stage_yield pdfplumber_keeps (pdfplumber doc)) as [t|] eqn:H2;
        [|discriminate].
      intros _. split; [reflexivity|]. cbn [pages].
      intros Happ. apply app_eq_nil in Happ as [_ Happ].
      revert Happ. eapply stage_yield_entries; eauto.
  - intros H1 H2. rewrite H1, H2. apply vision_result_cases.
  - apply (vision_result_cases (preprocess_image img)).
Qed.

Lemma recover_text_total_witness :
  (0 < confidence (extract_text_from_pdf doc_second_stage))%Q /\
  error (metadata (extract_text_from_pdf doc_unreadable)) =
  Some (u "Vision API error: Bad image data") /\
  doc_text (extract_text_from_pdf doc_unscored) = u "契約書".
Proof.
  pose (img := {| processed := None; unprocessed := vision doc_unreadable |}).
  split; [|split].
  - destruct (recover_text_total doc_second_stage img) as (_ & _ & H & _).
    exact (proj1 (H eq_refl)).
  - destruct (recover_text_total doc_unreadable img) as (_ & _ & _ & H & _).
    destruct (H eq_refl eq_refl) as [Hf _].
    exact (proj2 (proj2 (proj2 (Hf _ eq_refl)))).
  - destruct (recover_text_total doc_unscored img) as (_ & _ & _ & H & _).
    destruct (H eq_refl eq_refl) as [_ Hy].
    exact (proj1 (Hy _ eq_refl)).
Defined.

(** ** The matcher *)

Section MatcherFacts.
Variable A : Type.

Lemma or_else_some (a b : option A) x :
  or_else a b = Some x -> a = Some x \/ b = Some x.
Proof. destruct a; simpl; auto. Qed.

Lemma rep_advances body :
  @advances A body -> forall fuel lo hi, @advances A (rep body fuel lo hi).
Proof.
  intros Hbody fuel.
  assert (Hstop : forall lo pos s cs (k : cont A) x,
             match lo with O => k pos s cs | S _ => None end = Some x ->
             exists n cs', n <= length s /\ k (pos + n) (skipn n s) cs' = Some x).
  { intros lo pos s cs k x H. destruct lo; [|discriminate].
    exists 0, cs. rewrite Nat.add_0_r. split; [lia|exact H]. }
  induction fuel as [|fuel IH]; intros lo hi pos s cs k x H; cbn [rep] in H.
  - eauto.
  - assert (Hmore :
      or_else
        (body pos s cs (fun pos' s' cs' =>
           if pos' <=? pos then None
           else rep body fuel (pred lo) (option_map pred hi) pos' s' cs' k))
        match lo with O => k pos s cs | S _ => None end = Some x ->
      exists n cs', n <= length s /\ k (pos + n) (skipn n s) cs' = Some x).
    { intros H'. apply or_else_some in H' as [H'|H']; [|eauto].
      apply Hbody in H' as (n & cs' & Hn & H').
      destruct (pos + n <=? pos); [discriminate|].
      apply IH in H' as (n2 & cs'' & Hn2 & H').
      exists (n + n2), cs''. rewrite length_skipn in Hn2.
      rewrite skipn_skipn in H'. split; [lia|].
      now rewrite Nat.add_assoc, (Nat.add_comm n n2). }
    destruct hi as [[|h]|]; eauto.
Qed.

Lemma rmatch_advances r : @advances A (rmatch (A:=A) r).
Proof.
  induction r as [|p|r1 IH1 r2 IH2|r1 IH1 r2 IH2|r IH lo hi|i r IH];
    intros pos s cs k x H; cbn [rmatch] in H.
  - exists 0, cs. rewrite Nat.add_0_r. split; [lia|exact H].
  - destruct s as [|c s]; [discriminate|].
    destruct (p c); [|discriminate].
    exists 1, cs. rewrite Nat.add_1_r. split; [simpl; lia|exact H].
  - apply IH1 in H as (n & cs' & Hn & H).
    apply IH2 in H as (n2 & cs'' & Hn2 & H).
    exists (n + n2), cs''. rewrite length_skipn in Hn2.
    rewrite skipn_skipn in H. split; [lia|].
    now rewrite Nat.add_assoc, (Nat.add_comm n n2).
  - apply or_else_some in H as [H|H]; eauto.
  - eapply rep_advances; eauto.
  - apply IH in H as (n & cs' & Hn & H). eauto.
Qed.
End MatcherFacts.

Lemma match_at_span r pos s m :
  match_at r pos s = Some m ->
  m_start m = pos /\ pos <= m_end m <= pos + length s.
Proof.
  unfold match_at. intros H.
  apply rmatch_advances in H as (n & cs' & Hn & H).
  injection H as <-. simpl. lia.
Qed.

(** Every match [finditer] reports is a match of the pattern at its own
    start offset, inside the text. *)
Lemma scan_matches r s : forall pos skip m,
  In m (scan r pos s skip) ->
  pos <= m_start m <= pos + length s /\
  match_at r (m_start m) (skipn (m_start m - pos) s) = Some m.
Proof.
  induction s as [|c s IH]; intros pos skip m Hin.
  - destruct skip; [|contradiction]. cbn [scan] in Hin.
    destruct (match_at r pos []) as [m'|] eqn:Hm; [|contradiction].
    destruct Hin as [<-|[]].
    destruct (match_at_span _ _ _ Hm) as [-> _].
    rewrite Nat.sub_diag. simpl. split; [lia|exact Hm].
  - assert (Hrest : forall skip', In m (scan r (S pos) s skip') ->
              pos <= m_start m <= pos + length (c :: s) /\
              match_at r (m_start m) (skipn (m_start m - pos) (c :: s)) = Some m).
    { intros skip' H. apply IH in H as [Hb Hm]. simpl. split; [lia|].
      replace (m_start m - pos) with (S (m_start m - S pos)) by lia.
      exact Hm. }
    destruct skip; cbn [scan] in Hin; [|eauto].
    destruct (match_at r pos (c :: s)) as [m'|] eqn:Hm; [|eauto].
    destruct Hin as [<-|Hin]; [|eauto].
    destruct (match_at_span _ _ _ Hm) as [-> _].
    rewrite Nat.sub_diag. simpl. split; [lia|exact Hm].
Qed.

Lemma finditer_matches r text m :
  In m (finditer r text) ->
  m_start m <= length text /\
  match_at r (m_start m) (skipn (m_start m) text) = Some m.
Proof.
  intros H. apply scan_matches in H as [Hb Hm].
  rewrite Nat.sub_0_r in Hm. split; [lia|exact Hm].
Qed.

(** Matches are reported left to right. *)
Lemma scan_ascending r s : forall pos skip,
  StronglySorted (fun a b => m_start a < m_start b) (scan r pos s skip).
Proof.
  induction s as [|c s IH]; intros pos skip.
  - destruct skip; cbn [scan]; [|constructor].
    destruct (match_at r pos []); repeat constructor.
  - destruct skip; cbn [scan]; [|apply IH].
    destruct (match_at r pos (c :: s)) as [m|] eqn:Hm; [|apply IH].
    constructor; [apply IH|].
    apply Forall_forall. intros m' Hin.
    apply scan_matches in Hin as [Hb _].
    destruct (match_at_span _ _ _ Hm) as [-> _]. lia.
Qed.

(** ** Structured field extractor *)

Lemma str_eqb_eq a : forall b, str_eqb a b = true <-> a = b.
Proof.
  induction a as [|x a IH]; intros [|y b]; simpl; try (split; congruence).
  unfold char_eqb. rewrite andb_true_iff, N.eqb_eq, IH.
  split; [intros [-> ->]; reflexivity|intros [= -> ->]; auto].
Qed.

Lemma seen_name n seen : existsb (str_eqb n) seen = true <-> In n seen.
Proof.
  rewrite existsb_exists. split.
  - intros (x & Hin & Hx). apply str_eqb_eq in Hx. now subst.
  - intros Hin. exists n. split; [exact Hin|now apply str_eqb_eq].
Qed.

Lemma filter_map_in {X Y : Type} (f : X -> option Y) l y :
  In y (filter_map f l) <-> exists x, In x l /\ f x = Some y.
Proof.
  induction l as [|a l IH]; simpl.
  - split; [contradiction|intros (x & [] & _)].
  - destruct (f a) as [b|] eqn:Hf; simpl; rewrite IH; split.
    + intros [<-|(x & Hin & Hx)]; eauto.
    + intros (x & [<-|Hin] & Hx); [left; congruence|eauto].
    + intros (x & Hin & Hx); eauto.
    + intros (x & [<-|Hin] & Hx); [congruence|eauto].
Qed.

Lemma firstn_length_le {X : Type} n (l : list X) : length (firstn n l) <= n.
Proof. rewrite length_firstn. lia. Qed.

Lemma NoDup_firstn {X : Type} n (l : list X) : NoDup l -> NoDup (firstn n l).
Proof.
  intros H. rewrite <- (firstn_skipn n l) in H.
  now apply NoDup_app_remove_r in H.
Qed.

(** The second loop of [extract_parties]. *)
Lemma unique_parties_spec ps : forall seen,
  let kept := unique_parties ps seen in
  NoDup (map name kept) /\
  subseq kept ps /\
  (forall p, In p ps -> In (name p) seen \/ In (name p) (map name kept)) /\
  (forall p, In p kept ->
     ~ In (name p) seen /\
     exists before after,
       ps = before ++ p :: after /\ ~ In (name p) (map name before)).
Proof.
  induction ps as [|q ps IH]; intros seen; cbn [unique_parties].
  - cbv zeta. repeat split; try constructor; try contradiction.
  - destruct (existsb (str_eqb (name q)) seen) eqn:Hseen.
    + apply seen_name in Hseen.
      destruct (IH seen) as (Hnd & Hsub & Hall & Hfirst). cbv zeta.
      split; [exact Hnd|]. split; [now constructor|]. split.
      * intros p [<-|Hin]; auto.
      * intros p Hin. destruct (Hfirst p Hin) as (Hns & before & after & -> & Hb).
        split; [exact Hns|].
        exists (q :: before), after. split; [reflexivity|].
        simpl. intros [Heq|Hin']; [|auto]. apply Hns. now rewrite <- Heq.
    + assert (Hns : ~ In (name q) seen).
      { intros Hin. apply seen_name in Hin. congruence. }
      destruct (IH (name q :: seen)) as (Hnd & Hsub & Hall & Hfirst). cbv zeta.
      split; [|split; [now constructor|split]].
      * simpl. constructor; [|exact Hnd].
        intros Hin. apply in_map_iff in Hin as (p & Hp & Hin).
        destruct (Hfirst p Hin) as [Hn _]. apply Hn. left. auto.
      * intros p [<-|Hin]; [right; left; reflexivity|].
        destruct (Hall p Hin) as [[Heq|Hs]|Hk]; auto.
        -- right. left. auto.
        -- right. right. exact Hk.
      * intros p [<-|Hin].
        -- split; [exact Hns|]. exists [], ps. split; [reflexivity|auto].
        -- destruct (Hfirst p Hin) as (Hn & before & after & -> & Hb).
           split; [intros Hs; apply Hn; now right|].
           exists (q :: before), after. split; [reflexivity|].
           simpl. intros [Heq|Hin']; [|auto]. apply Hn. now left.
Qed.

(** C9. The record has at most 10 parties, no two with the same name, at
    most 5 amounts and at most 20 key terms. *)
Theorem contract_info_bounds (ucd : UnicodeData) (text : pystr) :
  let info := extract_contract_information ucd text in
  length (parties info) <= 10 /\
  NoDup (map name (parties info)) /\
  length (amounts info) <= 5 /\
  length (key_terms info) <= 20.
Proof.
  cbn [extract_contract_information parties amounts key_terms].
  unfold extract_parties, extract_amounts, extract_key_terms.
  repeat split; try apply firstn_length_le.
  rewrite <- firstn_map. apply NoDup_firstn.
  apply (unique_parties_spec (party_matches ucd text) []).
Qed.

(** C6, as worded, fails on a text naming an English company before a
    Japanese one: the entries come out at offsets 19, 17 and 0. *)
Lemma parties_as_specified_fails :
  map party_position (extract_parties sample_ucd two_companies) = [19; 17; 0] /\
  ~ parties_as_specified sample_ucd two_companies.
Proof.
  split; [reflexivity|].
  intros [_ H]. vm_compute in H. discriminate.
Qed.

Lemma party_positions_ascending text pattern :
  StronglySorted lt
    (map party_position (filter_map (party_of_match text) (finditer pattern text))).
Proof.
  unfold finditer. generalize (scan_ascending pattern text 0 0).
  generalize (scan pattern 0 text 0). intros ms Hs.
  induction Hs as [|m ms Hs IH Hm]; simpl; [constructor|].
  assert (Hall : Forall (lt (m_start m))
                   (map party_position (filter_map (party_of_match text) ms))).
  { apply Forall_forall. intros x Hx.
    apply in_map_iff in Hx as (p & <- & Hp).
    apply filter_map_in in Hp as (m' & Hin & Hm').
    rewrite Forall_forall in Hm. specialize (Hm m' Hin).
    unfold party_of_match in Hm'.
    destruct (truthy _ && _); [|discriminate]. injection Hm' as <-. exact Hm. }
  destruct (party_of_match text m) as [p|] eqn:Hp; [|exact IH].
  simpl. constructor; [exact IH|].
  unfold party_of_match in Hp.
  destruct (truthy _ && _); [|discriminate]. injection Hp as <-. exact Hall.
Qed.

(** C6, amended.  The parties are deduplicated by exact equality of the
    name, keeping for each name its first entry in match order: the matches
    of the first pattern, then of the second, then of the third, each
    pattern's matches ascending by position; the result is the first 10. *)
Theorem parties_first_in_match_order (ucd : UnicodeData) (text : pystr) :
  let found := party_matches ucd text in
  let kept := unique_parties found [] in
  extract_parties ucd text = firstn 10 kept /\
  NoDup (map name kept) /\
  subseq kept found /\
  (forall p, In p found -> In (name p) (map name kept)) /\
  (forall p, In p kept ->
     exists before after,
       found = before ++ p :: after /\ ~ In (name p) (map name before)) /\
  found = flat_map (fun pattern =>
                      filter_map (party_of_match text) (finditer pattern text))
                   (company_patterns ucd) /\
  (forall pattern,
     StronglySorted lt
       (map party_position
            (filter_map (party_of_match text) (finditer pattern text)))).
Proof.
  cbv zeta.
  destruct (unique_parties_spec (party_matches ucd text) [])
    as (Hnd & Hsub & Hall & Hfirst).
  split; [reflexivity|]. split; [exact Hnd|]. split; [exact Hsub|].
  split; [|split; [|split]].
  - intros p Hin. destruct (Hall p Hin) as [[]|H]. exact H.
  - intros p Hin. now destruct (Hfirst p Hin) as [_ H].
  - reflexivity.
  - intros pattern. apply party_positions_ascending.
Qed.

Lemma parties_first_in_match_order_witness :
  In (u "Acme Trading Inc.")
     (map name (unique_parties (party_matches sample_ucd two_companies) [])).
Proof.
  destruct (parties_first_in_match_order sample_ucd two_companies)
    as (_ & _ & _ & H & _).
  apply (H {| name := u "Acme Trading Inc."; type := u "company";
              party_position := 0 |}).
  vm_compute. auto.
Defined.

(** C3. On a single paragraph longer than 20 characters that contains
    both [解除] and [終了], the scan does not stop at the first keyword of the
    category: two clauses of type [termination] are returned, one for each
    keyword, with the same content. *)
Theorem classify_clauses_two_termination :
  20 < length (strip termination_text) /\
  contains (u "解除") termination_text = true /\
  classify_clauses termination_text =
  [ {| clause_type := u "termination"; content := termination_text;
       clause_keyword := u "解除" |};
    {| clause_type := u "termination"; content := termination_text;
       clause_keyword := u "終了" |} ].
Proof.
  split; [vm_compute; lia|]. split; reflexivity.
Qed.

(** C5, as worded, fails: a key-term record has no [position]. *)
Lemma items_positioned_fails : ~ items_positioned sample_ucd termination_text.
Proof.
  unfold items_positioned. rewrite Forall_forall. intros H.
  destruct (H (key_term_dict
                 {| keyword := u "解除";
                    text := u "本契約の解除または終了に関する事項は、次の各号に定めるとおりとする";
                    importance := u "high" |})) as (p & Hp & _).
  - vm_compute. auto.
  - discriminate.
Qed.

Lemma in_firstn {X : Type} n (l : list X) x : In x (firstn n l) -> In x l.
Proof.
  intros H. rewrite <- (firstn_skipn n l). apply in_or_app. now left.
Qed.

Lemma subseq_in {X : Type} (l1 l2 : list X) x : subseq l1 l2 -> In x l1 -> In x l2.
Proof.
  induction 1 as [|y l1 l2 _ IH|y l1 l2 _ IH]; simpl; intuition.
Qed.

Lemma matches_at_finditer pattern text m :
  In m (finditer pattern text) -> matches_at pattern text (m_start m) m.
Proof. apply finditer_matches. Qed.

(** *** Sorting by position *)

Lemma insert_by_position_perm x l : Permutation (x :: l) (insert_by_position x l).
Proof.
  induction l as [|y l IH]; simpl; [reflexivity|].
  destruct (position x <=? position y); [reflexivity|].
  rewrite perm_swap. now constructor.
Qed.

Lemma sorted_by_position_perm l : Permutation l (sorted_by_position l).
Proof.
  induction l as [|x l IH]; simpl; [constructor|].
  rewrite <- insert_by_position_perm. now constructor.
Qed.

Lemma insert_by_position_sorted x l :
  Sorted position_le l -> Sorted position_le (insert_by_position x l).
Proof.
  induction 1 as [|y l Hs IH Hhd]; simpl; [repeat constructor|].
  destruct (position x <=? position y) eqn:Hle.
  - apply Nat.leb_le in Hle. repeat constructor; assumption.
  - apply Nat.leb_gt in Hle. constructor; [exact IH|].
    destruct Hhd as [|z l Hz]; simpl.
    + constructor. unfold position_le. lia.
    + destruct (position x <=? position z); constructor;
        unfold position_le in *; lia.
Qed.

Lemma sorted_by_position_sorted l : Sorted position_le (sorted_by_position l).
Proof.
  induction l as [|x l IH]; simpl; [constructor|].
  now apply insert_by_position_sorted.
Qed.

Lemma sorted_by_position_in l e : In e (sorted_by_position l) <-> In e l.
Proof.
  split; apply Permutation_in;
    [symmetry|]; apply sorted_by_position_perm.
Qed.

Lemma last_entry_in l e : last_entry l = Some e -> In e l.
Proof.
  unfold last_entry. destruct (rev l) as [|x r] eqn:Hr; [discriminate|].
  intros [= <-]. apply in_rev. rewrite Hr. now left.
Qed.

(** *** Dates *)

Lemma make_datetime_valid y m d :
  make_datetime y m d = Some {| dt_year := y; dt_month := m; dt_day := d |}
  <-> valid_ymd y m d.
Proof.
  unfold make_datetime, valid_ymd.
  destruct ((1 <=? y)%N && (y <=? 9999)%N && (1 <=? m)%N && (m <=? 12)%N
            && (1 <=? d)%N && (d <=? days_in_month y m)%N) eqn:H.
  - rewrite !andb_true_iff, !N.leb_le in H. intuition.
  - split; [discriminate|]. intros Hv. exfalso.
    rewrite <- not_true_iff_false in H. apply H.
    rewrite !andb_true_iff, !N.leb_le. intuition.
Qed.

Lemma make_datetime_some y m d dt :
  make_datetime y m d = Some dt ->
  dt = {| dt_year := y; dt_month := m; dt_day := d |}.
Proof.
  unfold make_datetime. destruct (_ && _); [|discriminate]. congruence.
Qed.

(** A match yields an entry exactly when its three groups are numerals of
    a calendar date. *)
Lemma date_of_match_spec ucd fmt text m e :
  date_of_match ucd fmt text m = Some e <->
  exists y mo d,
    parsed_ymd ucd fmt text m = Some (y, mo, d) /\ valid_ymd y mo d /\
    e = entry_of text m (y, mo, d).
Proof.
  unfold date_of_match, parsed_ymd.
  destruct (ymd_groups fmt text m) as [[year month] day].
  destruct (py_int ucd year) as [y|]; [|split; [discriminate|intros (?&?&?&?&_); discriminate]].
  destruct (py_int ucd month) as [mo|]; [|split; [discriminate|intros (?&?&?&?&_); discriminate]].
  destruct (py_int ucd day) as [d|]; [|split; [discriminate|intros (?&?&?&?&_); discriminate]].
  split.
  - destruct (make_datetime y mo d) as [dt|] eqn:Hdt; [|discriminate].
    intros [= <-]. pose proof (make_datetime_some _ _ _ Hdt) as ->.
    exists y, mo, d. split; [reflexivity|]. split; [|reflexivity].
    now apply make_datetime_valid.
  - intros (y' & mo' & d' & [= <- <- <-] & Hv & ->).
    apply make_datetime_valid in Hv. rewrite Hv. reflexivity.
Qed.

Lemma date_pool_in ucd text e :
  In e (date_pool ucd text) <->
  exists pf m, In pf (date_patterns ucd) /\ In m (finditer (fst pf) text) /\
               date_of_match ucd (snd pf) text m = Some e.
Proof.
  unfold date_pool. rewrite in_flat_map. split.
  - intros (pf & Hpf & Hin). apply filter_map_in in Hin as (m & Hm & He). eauto.
  - intros (pf & m & Hpf & Hm & He). exists pf. split; [exact Hpf|].
    apply filter_map_in. eauto.
Qed.

Lemma extract_dates_entries ucd text e :
  In e (date_entries (extract_dates ucd text)) -> In e (date_pool ucd text).
Proof.
  unfold extract_dates.
  destruct (date_pool ucd text) as [|e0 pool] eqn:Hpool; [contradiction|].
  rewrite <- Hpool. clear Hpool.
  cbn [date_entries contract_date effective_date expiration_date all_dates].
  rewrite !in_app_iff. intros H.
  apply sorted_by_position_in.
  destruct H as [H|[H|[H|H]]]; [| | |exact H].
  - destruct (nth_error _ 0) eqn:Hn; [|contradiction].
    destruct H as [<-|[]]. eapply nth_error_In; eauto.
  - destruct (1 <? _); [|contradiction].
    destruct (nth_error _ 1) eqn:Hn; [|contradiction].
    destruct H as [<-|[]]. eapply nth_error_In; eauto.
  - destruct (2 <? _); [|contradiction].
    destruct (last_entry _) eqn:Hn; [|contradiction].
    destruct H as [<-|[]]. now apply last_entry_in.
Qed.

(** C5, amended.  Every party, date entry and amount carries a
    [position], the offset at which a match of one of the pass's patterns
    begins, and is built from that match; key-term and clause records have
    no [position] field. *)
Theorem items_traceable (ucd : UnicodeData) (text : pystr) :
  let info := extract_contract_information ucd text in
  (forall p, In p (parties info) ->
     lookup "position" (party_dict p) = Some (VInt (party_position p)) /\
     exists pattern m,
       In pattern (company_patterns ucd) /\
       matches_at pattern text (party_position p) m /\
       name p = strip (group text m 1)) /\
  (forall e, In e (date_entries (dates info)) ->
     lookup "position" (date_dict e) = Some (VInt (position e)) /\
     exists pf m,
       In pf (date_patterns ucd) /\
       matches_at (fst pf) text (position e) m /\
       original_text e = substr text (position e) (m_end m)) /\
  (forall a, In a (amounts info) ->
     lookup "position" (amount_dict a) = Some (VInt (amount_position a)) /\
     exists pattern m,
       In pattern (amount_patterns ucd) /\
       matches_at pattern text (amount_position a) m /\
       amount_original_text a = substr text (amount_position a) (m_end m)) /\
  (forall k, In k (key_terms info) -> lookup "position" (key_term_dict k) = None) /\
  (forall c, In c (clauses info) -> lookup "position" (clause_dict c) = None).
Proof.
  cbn [extract_contract_information parties dates amounts key_terms clauses].
  split; [|split; [|split; [|split]]].
  - intros p Hin. split; [reflexivity|].
    apply in_firstn in Hin.
    destruct (unique_parties_spec (party_matches ucd text) []) as (_ & Hsub & _).
    eapply subseq_in in Hin; [|exact Hsub].
    unfold party_matches in Hin. apply in_flat_map in Hin as (pattern & Hpat & Hin).
    apply filter_map_in in Hin as (m & Hm & Hp).
    exists pattern, m. split; [exact Hpat|].
    unfold party_of_match in Hp. destruct (truthy _ && _); [|discriminate].
    injection Hp as <-. split; [now apply matches_at_finditer|reflexivity].
  - intros e Hin. split; [reflexivity|].
    apply extract_dates_entries, date_pool_in in Hin as (pf & m & Hpf & Hm & He).
    apply date_of_match_spec in He as (y & mo & d & _ & _ & ->).
    exists pf, m. split; [exact Hpf|].
    split; [now apply matches_at_finditer|reflexivity].
  - intros a Hin. split; [reflexivity|].
    apply in_firstn in Hin.
    unfold amount_matches in Hin. apply in_flat_map in Hin as (pattern & Hpat & Hin).
    apply filter_map_in in Hin as (m & Hm & Ha).
    exists pattern, m. split; [exact Hpat|].
    unfold amount_of_match in Ha. destruct (py_float _ _); [|discriminate].
    injection Ha as <-. split; [now apply matches_at_finditer|reflexivity].
  - reflexivity.
  - reflexivity.
Qed.

Lemma items_traceable_witness :
  exists pattern m,
    In pattern (company_patterns sample_ucd) /\
    matches_at pattern two_companies 19 m /\
    u "株式会社テスト" = strip (group two_companies m 1).
Proof.
  destruct (items_traceable sample_ucd two_companies) as (H & _).
  destruct (H {| name := u "株式会社テスト"; type := u "company";
                 party_position := 19 |}) as [_ Hm].
  - vm_compute. auto.
  - exact Hm.
Defined.

Lemma last_entry_last l d : l <> [] -> last_entry l = Some (last l d).
Proof.
  intros Hl. destruct (exists_last Hl) as (l' & x & ->).
  unfold last_entry. rewrite rev_app_distr, last_last. reflexivity.
Qed.

(** C4, as worded, fails on a text without a valid date: the malformed
    match is discarded, and the mapping returned is empty, without
    [all_dates]. *)
Lemma dates_as_specified_fails :
  date_pool sample_ucd month_thirteen = [] /\
  ~ dates_as_specified sample_ucd month_thirteen.
Proof.
  split; [reflexivity|].
  intros (ds & Hds & _). vm_compute in Hds. discriminate.
Qed.

(** C4, amended.  A date match whose year, month and day are not a
    calendar date yields no entry and raises nothing; the entries of the
    calendar-valid matches, and only those, make up the pool.  When the pool
    is empty the mapping returned is empty.  Otherwise, sorted ascending by
    position, the pool is [all_dates], its first element [contract_date], its
    second [effective_date] when there is one, and its last
    [expiration_date] only when it has more than two entries. *)
Theorem extract_dates_sorted_pool (ucd : UnicodeData) (text : pystr) :
  let sorted := sorted_by_position (date_pool ucd text) in
  (forall pf m y mo d,
     In pf (date_patterns ucd) -> In m (finditer (fst pf) text) ->
     parsed_ymd ucd (snd pf) text m = Some (y, mo, d) ->
     ~ valid_ymd y mo d ->
     date_of_match ucd (snd pf) text m = None) /\
  (forall e,
     In e sorted <->
     exists pf m y mo d,
       In pf (date_patterns ucd) /\ In m (finditer (fst pf) text) /\
       parsed_ymd ucd (snd pf) text m = Some (y, mo, d) /\
       valid_ymd y mo d /\ e = entry_of text m (y, mo, d)) /\
  Permutation (date_pool ucd text) sorted /\
  StronglySorted position_le sorted /\
  match sorted with
  | [] => extract_dates ucd text = None
  | first :: rest =>
    exists ds,
      extract_dates ucd text = Some ds /\
      contract_date ds = Some first /\
      effective_date ds = hd_error rest /\
      expiration_date ds =
        (if 2 <? length sorted then Some (last sorted first) else None) /\
      all_dates ds = sorted
  end.
Proof.
  cbv zeta. split; [|split; [|split; [|split]]].
  - intros pf m y mo d _ _ Hp Hnv.
    destruct (date_of_match ucd (snd pf) text m) as [e|] eqn:He; [|reflexivity].
    apply date_of_match_spec in He as (y' & mo' & d' & Hp' & Hv & _).
    rewrite Hp in Hp'. injection Hp' as <- <- <-. contradiction.
  - intros e. rewrite sorted_by_position_in, date_pool_in. split.
    + intros (pf & m & Hpf & Hm & He).
      apply date_of_match_spec in He as (y & mo & d & Hp & Hv & ->).
      exists pf, m, y, mo, d. repeat (split; [assumption|]). reflexivity.
    + intros (pf & m & y & mo & d & Hpf & Hm & Hp & Hv & ->).
      exists pf, m. split; [exact Hpf|]. split; [exact Hm|].
      apply date_of_match_spec. exists y, mo, d. auto.
  - apply sorted_by_position_perm.
  - apply Sorted_StronglySorted; [|apply sorted_by_position_sorted].
    intros a b c. unfold position_le. lia.
  - unfold extract_dates.
    pose proof (sorted_by_position_perm (date_pool ucd text)) as Hperm.
    destruct (date_pool ucd text) as [|e0 pool]; [reflexivity|].
    destruct (sorted_by_position (e0 :: pool)) as [|first rest] eqn:Hs.
    { apply Permutation_sym, Permutation_nil in Hperm. discriminate. }
    eexists. split; [reflexivity|]. cbn [contract_date effective_date
      expiration_date all_dates nth_error]. repeat split.
    + destruct rest; reflexivity.
    + destruct (2 <? length (first :: rest)); [|reflexivity].
      apply last_entry_last. discriminate.
Qed.

Lemma extract_dates_sorted_pool_witness :
  date_of_match sample_ucd japanese malformed_dates
    {| m_start := 3; m_end := 13;
       m_groups := [(3, (11, 12)); (2, (8, 10)); (1, (3, 7))] |} = None /\
  In {| date := u "2024-06-30T00:00:00"; original_text := u "2024/6/30";
        position := 29 |}
     (sorted_by_position (date_pool sample_ucd malformed_dates)).
Proof.
  destruct (extract_dates_sorted_pool sample_ucd malformed_dates)
    as (Hdrop & Hin & _).
  split.
  - apply (Hdrop (nth 0 (date_patterns sample_ucd) (Emp, slash)) _ 2024 13 1)%N.
    + left. reflexivity.
    + cbn [nth fst]. vm_compute. auto.
    + reflexivity.
    + unfold valid_ymd. lia.
  - apply Hin.
    exists (nth 1 (date_patterns sample_ucd) (Emp, slash)),
           {| m_start := 29; m_end := 38;
              m_groups := [(3, (36, 38)); (2, (34, 35)); (1, (29, 33))] |},
           2024%N, 6%N, 30%N.
    split; [right; left; reflexivity|].
    split; [cbn [nth fst]; vm_compute; auto|].
    split; [reflexivity|].
    split; [unfold valid_ymd; change (days_in_month 2024 6) with 30%N; lia|reflexivity].
Defined.

(** *** Scanning a fixed text, by absolute offsets *)

Lemma skipn_step {X : Type} (l : list X) : forall p,
  p < length l -> exists c, skipn p l = c :: skipn (S p) l.
Proof.
  induction l as [|x l IH]; intros p Hp; simpl in Hp; [lia|].
  destruct p; [eexists; reflexivity|].
  destruct (IH p) as [c Hc]; [lia|]. exists c. exact Hc.
Qed.

Lemma scan_skip r text : forall k p,
  p + k <= length text ->
  scan r p (skipn p text) k = scan r (p + k) (skipn (p + k) text) 0.
Proof.
  induction k as [|k IH]; intros p Hp.
  - now rewrite Nat.add_0_r.
  - destruct (skipn_step text (p:=p)) as [c Hc]; [lia|].
    rewrite Hc. cbn [scan]. rewrite (IH (S p)) by lia. now rewrite Nat.add_succ_r.
Qed.

Lemma scan_gap r text : forall n p,
  p + n <= length text ->
  (forall i, i < n -> match_at r (p + i) (skipn (p + i) text) = None) ->
  scan r p (skipn p text) 0 = scan r (p + n) (skipn (p + n) text) 0.
Proof.
  induction n as [|n IH]; intros p Hp Hnone.
  - now rewrite Nat.add_0_r.
  - destruct (skipn_step text (p:=p)) as [c Hc]; [lia|].
    pose proof (Hnone 0 ltac:(lia)) as H0. rewrite Nat.add_0_r in H0.
    rewrite Hc in *. cbn [scan]. rewrite H0.
    rewrite (IH (S p)); [now rewrite Nat.add_succ_r|lia|].
    intros i Hi. specialize (Hnone (S i) ltac:(lia)).
    now rewrite Nat.add_succ_r in Hnone.
Qed.

Lemma scan_hit r text p m :
  p < length text ->
  match_at r p (skipn p text) = Some m ->
  p < m_end m ->
  scan r p (skipn p text) 0 = m :: scan r (m_end m) (skipn (m_end m) text) 0.
Proof.
  intros Hp Hm He.
  destruct (match_at_span _ _ _ Hm) as [_ Hspan].
  rewrite length_skipn in Hspan.
  destruct (skipn_step text (p:=p)) as [c Hc]; [lia|].
  rewrite Hc in *. cbn [scan]. rewrite Hm. f_equal.
  rewrite scan_skip by lia. f_equal; [lia|f_equal; lia].
Qed.

Lemma scan_end r text p :
  p <= length text ->
  (forall q, p <= q <= length text -> match_at r q (skipn q text) = None) ->
  scan r p (skipn p text) 0 = [].
Proof.
  intros Hp Hnone.
  rewrite (scan_gap r text (n:=length text - p)) by
      (try lia; intros i Hi; apply Hnone; lia).
  replace (p + (length text - p)) with (length text) by lia.
  specialize (Hnone (length text) ltac:(lia)).
  rewrite skipn_all in *. cbn [scan]. now rewrite Hnone.
Qed.

(** *** The passes depend on the Unicode tables only through their values *)

Section MatcherExt.
Variable A : Type.

Lemma rep_ext body body' :
  @matcher_eq A body body' ->
  forall fuel lo hi, @matcher_eq A (rep body fuel lo hi) (rep body' fuel lo hi).
Proof.
  intros Hb fuel. induction fuel as [|fuel IH]; intros lo hi n s cs k k' Hk;
    cbn [rep].
  - destruct lo; [apply Hk|reflexivity].
  - assert (Hstop : match lo with O => k n s cs | S _ => None end =
                    match lo with O => k' n s cs | S _ => None end).
    { destruct lo; [apply Hk|reflexivity]. }
    assert (Hmore :
      body n s cs (fun pos' s' cs' =>
        if pos' <=? n then None
        else rep body fuel (pred lo) (option_map pred hi) pos' s' cs' k) =
      body' n s cs (fun pos' s' cs' =>
        if pos' <=? n then None
        else rep body' fuel (pred lo) (option_map pred hi) pos' s' cs' k')).
    { apply Hb. intros n' s' cs'. destruct (n' <=? n); [reflexivity|].
      now apply IH. }
    destruct hi as [[|h]|]; rewrite ?Hstop, ?Hmore; reflexivity.
Qed.

Lemma rmatch_ext r r' : regex_eq r r' -> @matcher_eq A (rmatch (A:=A) r) (rmatch r').
Proof.
  induction 1 as [|p q Hpq|r1 r1' r2 r2' _ IH1 _ IH2|r1 r1' r2 r2' _ IH1 _ IH2
                  |r r' lo hi _ IH|i r r' _ IH];
    intros n s cs k k' Hk; cbn [rmatch].
  - apply Hk.
  - destruct s as [|c s]; [reflexivity|]. rewrite Hpq.
    destruct (q c); [apply Hk|reflexivity].
  - apply IH1. intros n' s' cs'. now apply IH2.
  - rewrite (IH1 n s cs k k' Hk), (IH2 n s cs k k' Hk). reflexivity.
  - now apply rep_ext.
  - apply IH. intros n' s' cs'. apply Hk.
Qed.
End MatcherExt.

Lemma match_at_ext r r' pos s :
  regex_eq r r' -> match_at r pos s = match_at r' pos s.
Proof.
  intros H. unfold match_at. apply (@rmatch_ext _ r r' H). intros n s' cs. reflexivity.
Qed.

Lemma scan_ext r r' s : regex_eq r r' ->
  forall pos skip, scan r pos s skip = scan r' pos s skip.
Proof.
  intros H. induction s as [|c s IH]; intros pos skip; destruct skip; cbn [scan];
    rewrite ?(@match_at_ext r r' _ _ H), ?IH; try reflexivity.
  destruct (match_at r' pos (c :: s)); now rewrite ?IH.
Qed.

Lemma int_digits_ext ucd ucd' s :
  (forall c, decimal ucd c = decimal ucd' c) ->
  forall acc, int_digits ucd s acc = int_digits ucd' s acc.
Proof.
  intros H. induction s as [|c s IH]; intros acc; simpl; [reflexivity|].
  rewrite H. destruct (decimal ucd' c); [apply IH|reflexivity].
Qed.

Lemma date_patterns_ext ucd ucd' :
  (forall c, decimal ucd c = decimal ucd' c) ->
  Forall2 (fun pf pf' => regex_eq (fst pf) (fst pf') /\ snd pf = snd pf')
          (date_patterns ucd) (date_patterns ucd').
Proof.
  intros H.
  assert (Hd : regex_eq (digit ucd) (digit ucd')).
  { constructor. intros c. unfold is_digit. now rewrite H. }
  assert (Hl : forall c, regex_eq (lit1 c) (lit1 c)).
  { intros c. constructor. reflexivity. }
  unfold date_patterns.
  repeat (apply Forall2_cons || apply Forall2_nil);
    (split; [|reflexivity]); cbn [fst cat lit u Utf8.str];
    repeat first [ exact Hd | apply Hl | constructor ].
Qed.

Lemma date_of_match_ext ucd ucd' fmt text m :
  (forall c, decimal ucd c = decimal ucd' c) ->
  date_of_match ucd fmt text m = date_of_match ucd' fmt text m.
Proof.
  intros H. unfold date_of_match, py_int.
  destruct (ymd_groups fmt text m) as [[y mo] d].
  rewrite !(@int_digits_ext ucd ucd' _ H). reflexivity.
Qed.

Lemma date_pool_ext ucd ucd' text :
  (forall c, decimal ucd c = decimal ucd' c) ->
  date_pool ucd text = date_pool ucd' text.
Proof.
  intros H. unfold date_pool.
  induction (@date_patterns_ext ucd ucd' H) as [|pf pf' l l' [Hr Hf] _ IH]; simpl;
    [reflexivity|].
  rewrite IH, Hf. unfold finditer. rewrite (@scan_ext _ _ text Hr).
  f_equal. induction (scan (fst pf') 0 text 0) as [|m ms IHm]; simpl; [reflexivity|].
  now rewrite (@date_of_match_ext ucd ucd' _ text m H), IHm.
Qed.

Lemma extract_dates_ext ucd ucd' text :
  (forall c, decimal ucd c = decimal ucd' c) ->
  extract_dates ucd text = extract_dates ucd' text.
Proof.
  intros H. unfold extract_dates. now rewrite (@date_pool_ext ucd ucd' text H).
Qed.

Lemma forallb_pointwise {X : Type} (f g : X -> bool) l :
  (forall x, f x = g x) -> forallb f l = forallb g l.
Proof.
  intros H. induction l as [|x l IH]; cbn [forallb]; [reflexivity|].
  now rewrite H, IH.
Qed.

Lemma no_other_date_shapes_ext ucd ucd' text p1 p2 :
  (forall c, decimal ucd c = decimal ucd' c) ->
  no_other_date_shapes ucd text p1 p2 = no_other_date_shapes ucd' text p1 p2.
Proof.
  intros H. unfold no_other_date_shapes.
  apply forallb_pointwise. intros p.
  induction (@date_patterns_ext ucd ucd' H) as [|pf pf' l l' [Hr Hf] _ IH];
    cbn [forallb]; [reflexivity|].
  now rewrite IH, Hf, (@match_at_ext _ _ p (skipn p text) Hr).
Qed.

Lemma with_ascii_digits_agrees ucd :
  ascii_digits ucd -> forall c, decimal ucd c = decimal (with_ascii_digits ucd) c.
Proof.
  intros H c. simpl.
  destruct ((48 <=? c)%N && (c <=? 57)%N) eqn:Hc; [|reflexivity].
  apply andb_true_iff in Hc as [H1 H2]. apply N.leb_le in H1, H2.
  now apply H.
Qed.

(** *** The two-date example *)

Lemma skipn_app_length {X : Type} (l1 l2 : list X) : skipn (length l1) (l1 ++ l2) = l2.
Proof. induction l1; simpl; auto. Qed.

Lemma substr_offset (pre s : pystr) a b :
  substr (pre ++ s) (length pre + a) (length pre + b) = substr s a b.
Proof.
  unfold substr. rewrite skipn_app.
  rewrite skipn_all2 by lia.
  replace (length pre + a - length pre) with a by lia.
  replace (length pre + b - (length pre + a)) with (b - a) by lia.
  reflexivity.
Qed.

Lemma substr_offset0 (pre s : pystr) b :
  substr (pre ++ s) (length pre) (length pre + b) = substr s 0 b.
Proof. rewrite <- (Nat.add_0_r (length pre)) at 1. apply substr_offset. Qed.

Lemma date1_match ucd0 p rest :
  match_at (jp_pattern (with_ascii_digits ucd0)) p (date1 ++ rest) = Some (date_match p).
Proof.
  destruct ucd0 as [dec wc]. unfold match_at, date_match.
  lazy -[Nat.add]. destruct (dec 26376%N); reflexivity.
Qed.

Lemma date2_match ucd0 p rest :
  match_at (jp_pattern (with_ascii_digits ucd0)) p (date2 ++ rest) = Some (date_match p).
Proof.
  destruct ucd0 as [dec wc]. unfold match_at, date_match.
  lazy -[Nat.add]. destruct (dec 26376%N); reflexivity.
Qed.

Lemma date1_entry ucd0 pre rest :
  date_of_match (with_ascii_digits ucd0) japanese (pre ++ date1 ++ rest)
                (date_match (length pre)) =
  Some {| date := iso1; original_text := date1; position := length pre |}.
Proof.
  unfold date_of_match, ymd_groups, group, group0, date_match.
  cbn [m_groups m_start m_end span_of Nat.eqb].
  rewrite !substr_offset, substr_offset0. reflexivity.
Qed.

Lemma date2_entry ucd0 pre rest :
  date_of_match (with_ascii_digits ucd0) japanese (pre ++ date2 ++ rest)
                (date_match (length pre)) =
  Some {| date := iso2; original_text := date2; position := length pre |}.
Proof.
  unfold date_of_match, ymd_groups, group, group0, date_match.
  cbn [m_groups m_start m_end span_of Nat.eqb].
  rewrite !substr_offset, substr_offset0. reflexivity.
Qed.

Lemma no_other_date_shapes_spec ucd text p1 p2 :
  no_other_date_shapes ucd text p1 p2 = true ->
  forall pf p,
    In pf (date_patterns ucd) -> p <= length text ->
    (is_japanese (snd pf) = true /\ (p = p1 \/ p = p2)) \/
    match_at (fst pf) p (skipn p text) = None.
Proof.
  unfold no_other_date_shapes. intros H pf p Hpf Hp.
  rewrite forallb_forall in H. specialize (H p).
  rewrite in_seq, forallb_forall in H.
  specialize (H ltac:(lia) pf Hpf).
  apply orb_true_iff in H as [H|H].
  - left. apply andb_true_iff in H as [Hj H]. split; [exact Hj|].
    apply orb_true_iff in H as [H|H]; apply Nat.eqb_eq in H; auto.
  - right. destruct (match_at _ _ _); [discriminate|reflexivity].
Qed.

Lemma finditer_none r text :
  (forall q, q <= length text -> match_at r q (skipn q text) = None) ->
  finditer r text = [].
Proof.
  intros H. unfold finditer. change text with (skipn 0 text) at 1.
  apply scan_end; [lia|]. intros q Hq. apply H. lia.
Qed.

(** With the ASCII digits in the table and no other date shape in the
    text, the pool holds the two dates, in order. *)
Lemma two_dates_pool ucd0 pre mid post :
  let ucd := with_ascii_digits ucd0 in
  let text := pre ++ date1 ++ mid ++ date2 ++ post in
  let p1 := length pre in
  let p2 := length pre + 10 + length mid in
  no_other_date_shapes ucd text p1 p2 = true ->
  date_pool ucd text =
  [ {| date := iso1; original_text := date1; position := p1 |};
    {| date := iso2; original_text := date2; position := p2 |} ].
Proof.
  intros ucd text p1 p2 H.
  pose proof (@no_other_date_shapes_spec _ _ _ _ H) as Hno. clear H.
  assert (Hlen : length text = p2 + 10 + length post).
  { unfold text, p2. rewrite !length_app. change (length date1) with 10.
    change (length date2) with 10. lia. }
  assert (Hs1 : skipn p1 text = date1 ++ mid ++ date2 ++ post).
  { apply skipn_app_length. }
  assert (Htext2 : text = (pre ++ date1 ++ mid) ++ date2 ++ post).
  { unfold text. now rewrite <- !app_assoc. }
  assert (Hl2 : length (pre ++ date1 ++ mid) = p2).
  { rewrite !length_app. change (length date1) with 10. unfold p2. lia. }
  assert (Hs2 : skipn p2 text = date2 ++ post).
  { rewrite Htext2, <- Hl2. apply skipn_app_length. }
  (* the three other patterns match nowhere *)
  assert (Hother : forall pf, In pf (date_patterns ucd) ->
                     is_japanese (snd pf) = false -> finditer (fst pf) text = []).
  { intros pf Hpf Hj. apply finditer_none. intros q Hq.
    destruct (Hno pf q Hpf Hq) as [[Hj' _]|Hn]; [congruence|exact Hn]. }
  (* the first pattern matches at the two dates only *)
  assert (Hjp : In (jp_pattern ucd, japanese) (date_patterns ucd)).
  { left. reflexivity. }
  assert (Hgap : forall q, q <= length text -> q <> p1 -> q <> p2 ->
                   match_at (jp_pattern ucd) q (skipn q text) = None).
  { intros q Hq H1 H2.
    destruct (Hno _ q Hjp Hq) as [[_ [Hq'|Hq']]|Hn]; [congruence|congruence|exact Hn]. }
  assert (Hfind : finditer (jp_pattern ucd) text = [date_match p1; date_match p2]).
  { unfold finditer. change text with (skipn 0 text) at 1.
    rewrite (@scan_gap _ text p1 0) by
        (try (cbn; lia); intros i Hi; apply Hgap; cbn; lia).
    cbn [Nat.add].
    rewrite (@scan_hit _ text p1 (date_match p1)); cycle 1.
    { lia. } { rewrite Hs1. apply date1_match. } { cbn. lia. }
    f_equal. cbn [m_end date_match].
    rewrite (@scan_gap _ text (length mid) (p1 + 10)) by
        (try (unfold p2 in *; lia); intros i Hi; apply Hgap; unfold p2 in *; lia).
    fold p2.
    rewrite (@scan_hit _ text p2 (date_match p2)); cycle 1.
    { lia. } { rewrite Hs2. apply date2_match. } { cbn. lia. }
    f_equal. cbn [m_end date_match].
    apply scan_end; [lia|]. intros q Hq. apply Hgap; lia. }
  unfold date_pool.
  change (date_patterns ucd) with
    [ (jp_pattern ucd, japanese);
      (fst (nth 1 (date_patterns ucd) (Emp, slash)), slash);
      (fst (nth 2 (date_patterns ucd) (Emp, slash)), hyphen);
      (fst (nth 3 (date_patterns ucd) (Emp, slash)), us_format) ].
  cbn [flat_map fst snd].
  rewrite Hfind.
  rewrite (Hother (nth 1 (date_patterns ucd) (Emp, slash))), 
          (Hother (nth 2 (date_patterns ucd) (Emp, slash))),
          (Hother (nth 3 (date_patterns ucd) (Emp, slash)));
    try reflexivity;
    try (right; left; reflexivity);
    try (right; right; left; reflexivity);
    try (right; right; right; left; reflexivity).
  assert (He1 : date_of_match ucd japanese text (date_match p1) =
                Some {| date := iso1; original_text := date1; position := p1 |}).
  { apply date1_entry. }
  assert (He2 : date_of_match ucd japanese text (date_match p2) =
                Some {| date := iso2; original_text := date2; position := p2 |}).
  { rewrite Htext2, <- Hl2. apply date2_entry. }
  cbn [filter_map app]. rewrite He1, He2. reflexivity.
Qed.

(** C8, as worded, fails: [date] is the [isoformat()] of a [datetime], with
    its time of day. *)
Lemma two_dates_as_specified_fails :
  ~ two_dates_as_specified sample_ucd two_dates_text.
Proof.
  intros (ds & e & Hds & He & Hdate & _).
  vm_compute in Hds. injection Hds as <-.
  cbn [contract_date] in He. injection He as <-.
  vm_compute in Hdate. discriminate.
Qed.

(** C8, amended.  For a text holding [2024年1月15日] and then
    [2024年6月30日] and no other date shape, [contract_date] is the first, with
    [date] equal to ["2024-01-15T00:00:00"], [effective_date] the second,
    [expiration_date] is [None], and [all_dates] holds the two in order of
    position, each with its ISO-8601 date and time, the matched substring and
    the offset. *)
Theorem two_dates_extracted (ucd : UnicodeData) (pre mid post : pystr) :
  ascii_digits ucd ->
  let text := pre ++ date1 ++ mid ++ date2 ++ post in
  let p1 := length pre in
  let p2 := length pre + 10 + length mid in
  no_other_date_shapes ucd text p1 p2 = true ->
  extract_dates ucd text = Some (two_dates_result p1 p2) /\
  substr text p1 (p1 + 10) = date1 /\
  substr text p2 (p2 + 10) = date2 /\
  p1 < p2.
Proof.
  intros Hd text p1 p2 H.
  pose proof (with_ascii_digits_agrees Hd) as Hagree.
  rewrite (@no_other_date_shapes_ext _ _ text p1 p2 Hagree) in H.
  rewrite (@extract_dates_ext _ _ text Hagree).
  subst text p1 p2.
  split; [|split; [|split]].
  - unfold extract_dates. rewrite (@two_dates_pool ucd pre mid post H).
    cbn [sorted_by_position fold_right insert_by_position position].
    replace (length pre <=? length pre + 10 + length mid) with true
      by (symmetry; apply Nat.leb_le; lia).
    reflexivity.
  - rewrite substr_offset0. reflexivity.
  - replace (pre ++ date1 ++ mid ++ date2 ++ post)
      with ((pre ++ date1 ++ mid) ++ date2 ++ post) by now rewrite <- !app_assoc.
    replace (length pre + 10 + length mid) with (length (pre ++ date1 ++ mid))
      by (rewrite !length_app; change (length date1) with 10; lia).
    rewrite substr_offset0. reflexivity.
  - lia.
Qed.

Lemma sample_ascii_digits : ascii_digits sample_ucd.
Proof.
  intros c [H1 H2]. cbn [sample_ucd decimal]. unfold sample_decimal.
  apply N.leb_le in H1, H2. now rewrite H1, H2.
Qed.

Lemma two_dates_extracted_witness :
  extract_dates sample_ucd two_dates_text = Some (two_dates_result 6 20).
Proof.
  exact (proj1 (@two_dates_extracted sample_ucd (u "契約締結日は") (u "、納期は")
                  (u "とする。") sample_ascii_digits eq_refl)).
Defined.

(** * Further properties *)

(** ** [strip] *)

Lemma lstrip_split s :
  exists sp, s = sp ++ lstrip s /\ blank sp = true.
Proof.
  induction s as [|c s (sp & Hs & Hsp)]; simpl.
  - exists []. auto.
  - destruct (is_space c) eqn:Hc.
    + exists (c :: sp). simpl. rewrite Hc, <- Hs. auto.
    + exists []. auto.
Qed.

Lemma lstrip_no_lead s : no_lead (lstrip s).
Proof.
  induction s as [|c s IH]; simpl; [exact I|].
  destruct (is_space c) eqn:Hc; [exact IH|exact Hc].
Qed.

Lemma lstrip_fixed s : no_lead s -> lstrip s = s.
Proof. destruct s as [|c s]; simpl; [reflexivity|]. now intros ->. Qed.

Lemma blank_app a b : blank (a ++ b) = blank a && blank b.
Proof. apply forallb_app. Qed.

Lemma blank_rev a : blank (rev a) = blank a.
Proof.
  induction a as [|c a IH]; [reflexivity|].
  simpl. rewrite blank_app, IH. simpl. rewrite andb_true_r. apply andb_comm.
Qed.

Lemma lstrip_nil s : lstrip s = [] <-> blank s = true.
Proof.
  induction s as [|c s IH]; simpl; [tauto|].
  destruct (is_space c); simpl; [exact IH|]. split; discriminate.
Qed.

Lemma strip_blank s : truthy (strip s) = negb (blank s).
Proof.
  unfold strip, rstrip.
  destruct (blank s) eqn:Hb; simpl.
  - apply lstrip_nil in Hb. now rewrite Hb.
  - destruct (rev (lstrip (rev (lstrip s)))) as [|c r] eqn:Hr; [|reflexivity].
    exfalso. apply (f_equal (@rev _)) in Hr. rewrite rev_involutive in Hr.
    simpl in Hr. apply lstrip_nil in Hr. rewrite blank_rev in Hr.
    destruct (lstrip_split s) as (sp & Hs & Hsp).
    rewrite Hs, blank_app, Hsp, Hr in Hb. discriminate.
Qed.

Lemma rstrip_no_lead a : no_lead a -> no_lead (rstrip a).
Proof.
  unfold rstrip. intros Ha.
  destruct (lstrip_split (rev a)) as (sp & Hs & Hsp).
  apply (f_equal (@rev _)) in Hs. rewrite rev_involutive, rev_app_distr in Hs.
  destruct (rev (lstrip (rev a))) as [|c r] eqn:Hr; [exact I|].
  rewrite Hs in Ha. exact Ha.
Qed.

(** [strip] leaves no whitespace at either end, and does nothing to a
    string that has none. *)
Lemma strip_ends s : no_lead (strip s) /\ no_lead (rev (strip s)).
Proof.
  split.
  - apply rstrip_no_lead, lstrip_no_lead.
  - unfold strip, rstrip. rewrite rev_involutive. apply lstrip_no_lead.
Qed.

Lemma strip_fixed s : no_lead s -> no_lead (rev s) -> strip s = s.
Proof.
  intros H1 H2. unfold strip, rstrip.
  now rewrite (lstrip_fixed _ H1), (lstrip_fixed _ H2), rev_involutive.
Qed.

Lemma strip_strip s : strip (strip s) = strip s.
Proof. apply strip_fixed; apply strip_ends. Qed.

(** ** Structural stages *)

Lemma page_marker_not_blank n t : blank (page_marker n t) = false.
Proof. reflexivity. Qed.

Lemma markers_blank kept :
  blank (concat (map marked kept)) = match kept with [] => true | _ => false end.
Proof.
  destruct kept as [|np kept]; [reflexivity|].
  cbn [map concat]. rewrite blank_app. unfold marked.
  now rewrite page_marker_not_blank.
Qed.

Lemma app_fixed {X : Type} (a b : list X) : a ++ b = a <-> b = [].
Proof.
  split; [|intros ->; apply app_nil_r].
  intros H. apply (f_equal (@length _)) in H. rewrite length_app in H.
  destruct b; [reflexivity|simpl in H; lia].
Qed.

(** X1. When the page loop of a structural stage ends without an
    exception, the test [text_content.strip()] that decides whether the stage
    returns succeeds exactly when the loop appended a page entry: the page
    marker alone makes the text non-blank. *)
Theorem stage_returns_iff_page_appended
        (keeps : option pystr -> exn + bool) (method : pystr)
        (outs : list page_outcome) (acc0 acc : list PageEntry) (text_content : pystr) :
  page_loop keeps method outs 0 [] acc0 = (text_content, acc, None) ->
  (truthy (strip text_content) = true <-> acc <> acc0).
Proof.
  rewrite page_loop_spec. intros [= <- <- _].
  rewrite strip_blank. cbn [app]. rewrite markers_blank, app_fixed.
  unfold entries. destruct (kept_pages keeps outs 0); simpl; split;
    congruence.
Qed.

Lemma stage_returns_iff_page_appended_witness :
  truthy (strip (page_marker 0 (u "   "))) = true /\
  confidence (extract_text_from_pdf doc_spaces) = 0.85%Q.
Proof.
  split; [|reflexivity].
  apply (@stage_returns_iff_page_appended pdfplumber_keeps (u "pdfplumber")
           [Extracts (Some (u "   "))] []
           [TextPage 1 (u "   ") (u "pdfplumber")] (page_marker 0 (u "   ")));
    [reflexivity|discriminate].
Defined.

Lemma kept_pages_numbers keeps outs : forall page_num,
  StronglySorted lt (map fst (kept_pages keeps outs page_num)) /\
  Forall (fun n => page_num < n <= page_num + length outs)
         (map fst (kept_pages keeps outs page_num)).
Proof.
  induction outs as [|o outs IH]; intros page_num; cbn [kept_pages].
  - split; constructor.
  - assert (Hrest : StronglySorted lt (map fst (kept_pages keeps outs (S page_num))) /\
                    Forall (fun n => page_num < n <= page_num + length (o :: outs))
                           (map fst (kept_pages keeps outs (S page_num)))).
    { destruct (IH (S page_num)) as [Hs Hb]. split; [exact Hs|].
      eapply Forall_impl; [|exact Hb]. simpl. intros n Hn. lia. }
    destruct o as [t|e]; [|split; constructor].
    destruct (keeps t) as [e|[|]]; [split; constructor| |exact Hrest].
    destruct t as [page_text|]; [|exact Hrest].
    destruct Hrest as [Hs Hb]. destruct (IH (S page_num)) as [_ Hb'].
    cbn [map fst]. split.
    + constructor; [exact Hs|].
      eapply Forall_impl; [|exact Hb']. simpl. intros n Hn. lia.
    + constructor; [simpl; lia|exact Hb].
Qed.

Lemma pypdf2_kept_not_blank outs : forall page_num,
  Forall (fun np => blank (snd np) = false) (kept_pages pypdf2_keeps outs page_num).
Proof.
  induction outs as [|o outs IH]; intros page_num; cbn [kept_pages]; [constructor|].
  destruct o as [[page_text|]|e]; cbn [pypdf2_keeps]; try constructor.
  destruct (truthy (strip page_text)) eqn:Ht; [|apply IH].
  constructor; [|apply IH]. rewrite strip_blank in Ht. simpl.
  now destruct (blank page_text).
Qed.

(** X2. A result returned by the PyPDF2 stage is consistent with its
    pages: the text is the concatenation, in order, of each page entry's
    marker line and text; every entry has method [PyPDF2] and a text that is
    not blank; the page numbers increase strictly and lie between 1 and the
    number of pages read, so a blank page leaves a gap in the numbering
    rather than an entry. *)
Theorem pypdf2_result_consistent (outs : list page_outcome) (d : ExtractedDocument) :
  pypdf2_stage fresh_document (Opened outs) = Returned d ->
  doc_text d = concat (map entry_marker (pages d)) /\
  Forall (fun e => entry_method e = Some (u "PyPDF2") /\ blank (entry_text e) = false)
         (pages d) /\
  StronglySorted lt (map entry_number (pages d)) /\
  Forall (fun e => 1 <= entry_number e <= length outs) (pages d) /\
  confidence d = 0.9%Q /\ metadata d = no_metadata.
Proof.
  unfold pypdf2_stage. rewrite structural_stage_spec.
  destruct (stage_yield pypdf2_keeps (Opened outs)) as [t|] eqn:Hy; [|discriminate].
  intros [= <-]. cbn [doc_text pages confidence metadata fresh_document app
                      stage_entries].
  cbn [stage_yield] in Hy.
  destruct (first_raise pypdf2_keeps outs); [discriminate|].
  destruct (truthy _); [|discriminate]. injection Hy as <-.
  destruct (kept_pages_numbers pypdf2_keeps outs 0) as [Hs Hb].
  pose proof (pypdf2_kept_not_blank outs 0) as Hnb.
  unfold entries. rewrite !map_map. cbn [entry_marker entry_number].
  repeat split; try assumption.
  - apply Forall_map. eapply Forall_impl; [|exact Hnb]. simpl. auto.
  - apply Forall_map. rewrite Forall_map in Hb.
    eapply Forall_impl; [|exact Hb]. simpl. intros np Hn. lia.
Qed.

Lemma pypdf2_result_consistent_witness :
  doc_text (extract_text_from_pdf doc_text_layer) =
  concat (map entry_marker (pages (extract_text_from_pdf doc_text_layer))).
Proof.
  exact (proj1 (@pypdf2_result_consistent
                  [Extracts (Some (u "Service Agreement")); Extracts (Some (u " "))]
                  (extract_text_from_pdf doc_text_layer) eq_refl)).
Defined.

(** X3. [extract_text_from_pdf] records an error only when both
    structural stages produced nothing and the recognition adapter failed;
    the error is the adapter's, and the document is then empty with
    confidence 0.  An exception of PyPDF2 or pdfplumber is never reported in
    the result. *)
Theorem pdf_error_is_adapter_failure (doc : Document) (e : exn) :
  error (metadata (extract_text_from_pdf doc)) = Some e ->
  vision_failure (vision doc) = Some e /\
  stage_yield pypdf2_keeps (pypdf2 doc) = None /\
  stage_yield pdfplumber_keeps (pdfplumber doc) = None /\
  extract_text_from_pdf doc = error_document e.
Proof.
  rewrite extract_text_from_pdf_cases.
  destruct (stage_yield pypdf2_keeps (pypdf2 doc)); [discriminate|].
  destruct (stage_yield pdfplumber_keeps (pdfplumber doc)); [discriminate|].
  unfold extract_text_with_vision_api.
  destruct (vision_body (vision doc)) as [e'|d] eqn:Hv.
  - intros [= <-]. apply vision_body_failure in Hv. auto.
  - intros He. exfalso.
    destruct (vision doc) as [x|x|[|c msg] [annotation|]]; cbn in Hv;
      try discriminate.
    + destruct (fold_left _ _ _) as [[? ?] ?]. injection Hv as <-. discriminate.
    + injection Hv as <-. discriminate.
Qed.

Lemma pdf_error_is_adapter_failure_witness :
  extract_text_from_pdf doc_unreadable =
  error_document (u "Vision API error: Bad image data").
Proof.
  exact (proj2 (proj2 (proj2 (@pdf_error_is_adapter_failure doc_unreadable _ eq_refl)))).
Defined.

(** ** The adapter's pages and confidence *)

Lemma word_loop_text ws : forall paragraph_text total word_count,
  fold_left word_step ws (paragraph_text, total, word_count) =
  (paragraph_text ++ concat (map (fun w => word_text w ++ u " ") ws),
   sum_from total (map word_confidence ws), word_count + length ws).
Proof.
  induction ws as [|w ws IH]; intros pt total n; cbn [fold_left map concat length].
  - now rewrite app_nil_r, Nat.add_0_r.
  - unfold word_step at 2. rewrite IH. unfold sum_from. cbn [fold_left].
    rewrite <- !app_assoc. f_equal. lia.
Qed.

Lemma paragraph_loop_text ps : forall block_text bc paragraph_count total word_count,
  fold_left paragraph_step ps (block_text, bc, paragraph_count, total, word_count) =
  (block_text ++ concat (map (fun p => render_paragraph p ++ [10%N]) ps), bc,
   paragraph_count + length ps,
   sum_from total (map word_confidence (flat_map words ps)),
   word_count + length (flat_map words ps)).
Proof.
  induction ps as [|p ps IH]; intros bt bc pc total n;
    cbn [fold_left map concat length flat_map].
  - now rewrite app_nil_r, !Nat.add_0_r.
  - unfold paragraph_step at 2. rewrite word_loop_text, IH.
    rewrite map_app, sum_from_app, length_app. unfold render_paragraph.
    cbn [app]. rewrite <- !app_assoc.
    f_equal; [f_equal; f_equal|]; lia.
Qed.

Lemma block_loop_text bs : forall page_text page_blocks total word_count,
  fold_left block_step bs (page_text, page_blocks, total, word_count) =
  (page_text ++ concat (map render_block bs),
   page_blocks ++ map block_entry_of bs,
   sum_from total (map word_confidence (flat_map block_words bs)),
   word_count + length (flat_map block_words bs)).
Proof.
  induction bs as [|b bs IH]; intros pt pbs total n;
    cbn [fold_left map concat length flat_map].
  - now rewrite !app_nil_r, Nat.add_0_r.
  - unfold block_step at 2. rewrite paragraph_loop_text, IH.
    fold (block_words b). rewrite map_app, sum_from_app, length_app.
    cbn [app Nat.add]. fold (render_block b). fold (block_entry_of b).
    rewrite <- !app_assoc. cbn [app]. f_equal. lia.
Qed.

Lemma page_loop_text pgs : forall acc total word_count,
  fold_left page_step pgs (acc, total, word_count) =
  (acc ++ ocr_pages (length acc + 1) pgs,
   sum_from total (map word_confidence (flat_map page_words pgs)),
   word_count + length (flat_map page_words pgs)).
Proof.
  induction pgs as [|pg pgs IH]; intros acc total n;
    cbn [fold_left map length flat_map ocr_pages].
  - now rewrite !app_nil_r, Nat.add_0_r.
  - unfold page_step at 2. rewrite block_loop_text, IH.
    fold (page_words pg). rewrite map_app, sum_from_app, !length_app.
    cbn [app length]. fold (render_page pg).
    rewrite <- !app_assoc. cbn [app].
    replace (length acc + 1 + 1) with (S (length acc + 1)) by lia.
    f_equal. lia.
Qed.

Lemma ocr_pages_numbers pgs : forall n,
  map entry_number (ocr_pages n pgs) = seq n (length pgs).
Proof.
  induction pgs as [|pg pgs IH]; intros n; simpl; [reflexivity|].
  now rewrite IH.
Qed.

(** X4. When the service answers with an annotation, the adapter records
    one entry per page, numbered 1, 2, ... in order; the text of an entry is
    the concatenation of its blocks, a block being its paragraphs each
    followed by a line feed and a paragraph its words each followed by a
    space; each block record holds that block's text stripped. *)
Theorem vision_pages_rendered (doc : TextAnnotation) :
  let d := extract_text_with_vision_api (Response [] (Some doc)) in
  pages d = ocr_pages 1 (annotation_pages doc) /\
  map entry_number (pages d) = seq 1 (length (annotation_pages doc)) /\
  map entry_text (pages d) = map render_page (annotation_pages doc) /\
  doc_text d = annotation_text doc.
Proof.
  unfold extract_text_with_vision_api. cbn [vision_body truthy].
  rewrite page_loop_text. cbn [pages doc_text app length Nat.add].
  split; [reflexivity|]. split; [apply ocr_pages_numbers|].
  split; [|reflexivity].
  generalize 1. induction (annotation_pages doc) as [|pg pgs IH]; intros n;
    simpl; [reflexivity|]. now rewrite IH.
Qed.

Lemma sum_from_bounds qs : forall start,
  Forall (fun q => (0 <= q <= 1)%Q) qs ->
  (start <= sum_from start qs <= start + q_of_nat (length qs))%Q.
Proof.
  induction qs as [|q qs IH]; intros start Hq.
  - unfold sum_from. cbn [fold_left length]. change (q_of_nat 0) with 0%Q. lra.
  - inversion Hq as [|? ? Hq1 Hq2]; subst.
    unfold sum_from. cbn [fold_left]. fold (sum_from (start + q) qs).
    specialize (IH (start + q)%Q Hq2).
    cbn [length]. unfold q_of_nat in *.
    rewrite Nat2Z.inj_succ, <- Z.add_1_r, inject_Z_plus.
    change (inject_Z 1) with 1%Q. lra.
Qed.

Lemma average_in_unit (total : Q) (n : nat) :
  (0 <= total <= q_of_nat n)%Q ->
  (0 <= total / q_of_nat (Nat.max n 1) <= 1)%Q.
Proof.
  intros [H0 H1].
  assert (Hm : (0 < q_of_nat (Nat.max n 1))%Q).
  { unfold q_of_nat. change 0%Q with (inject_Z 0). rewrite <- Zlt_Qlt. lia. }
  assert (Hn : (q_of_nat n <= q_of_nat (Nat.max n 1))%Q).
  { unfold q_of_nat. rewrite <- Zle_Qle. lia. }
  split.
  - apply Qle_shift_div_l; [exact Hm|]. lra.
  - apply Qle_shift_div_r; [exact Hm|]. lra.
Qed.

Lemma vision_confidence_in_unit (v : vision_outcome) :
  unit_scores v ->
  (0 <= confidence (extract_text_with_vision_api v) <= 1)%Q.
Proof.
  intros Hv.
  destruct v as [e|e|[|c msg] [doc|]];
    try (unfold extract_text_with_vision_api; cbn; lra).
  destruct (vision_confidences doc) as [Hc _]. cbv zeta in Hc. rewrite Hc.
  unfold word_average. apply average_in_unit.
  cbn [unit_scores] in Hv.
  assert (Hq : Forall (fun q => (0 <= q <= 1)%Q) (map word_confidence (all_words doc))).
  { apply Forall_map. exact Hv. }
  pose proof (sum_from_bounds 0 Hq) as Hb. rewrite length_map in Hb. lra.
Qed.

(** X5. The confidence of a recovered document lies between 0 and 1
    whenever the word confidences the service reports do: it is 0.9, 0.85, the
    average of the word confidences, or 0. *)
Theorem recovered_confidence_in_unit (doc : Document) (img : ImageFile) :
  (unit_scores (vision doc) ->
   (0 <= confidence (extract_text_from_pdf doc) <= 1)%Q) /\
  (unit_scores (preprocess_image img) ->
   (0 <= confidence (extract_text_from_image img) <= 1)%Q).
Proof.
  split.
  - intros Hv. rewrite extract_text_from_pdf_cases.
    destruct (stage_yield pypdf2_keeps (pypdf2 doc)); [cbn; lra|].
    destruct (stage_yield pdfplumber_keeps (pdfplumber doc)); [cbn; lra|].
    now apply vision_confidence_in_unit.
  - apply vision_confidence_in_unit.
Qed.

Lemma recovered_confidence_in_unit_witness :
  (0 <= confidence (extract_text_from_pdf doc_second_stage) <= 1)%Q /\
  (0 <= confidence (extract_text_from_image scored_image) <= 1)%Q.
Proof.
  destruct (recovered_confidence_in_unit doc_second_stage scored_image) as [H1 H2].
  split.
  - apply H1. exact I.
  - apply H2. cbn. repeat constructor; cbn; discriminate.
Defined.

(** ** Sentences and key terms *)

Lemma split_on_spec sep s : forall cur,
  Forall (fun c => sep c = false) cur ->
  let pieces := split_on sep s cur in
  concat pieces = rev cur ++ filter (fun c => negb (sep c)) s /\
  length pieces = S (length (filter sep s)) /\
  Forall (Forall (fun c => sep c = false)) pieces.
Proof.
  induction s as [|c s IH]; intros cur Hcur; cbn [split_on filter].
  - cbv zeta. cbn [concat length]. rewrite !app_nil_r.
    repeat split. constructor; [|constructor]. now apply Forall_rev.
  - destruct (sep c) eqn:Hc; cbn [negb].
    + destruct (IH [] (Forall_nil _)) as (H1 & H2 & H3). cbv zeta.
      cbn [concat length]. rewrite H1, H2. cbn [rev app].
      repeat split. constructor; [now apply Forall_rev|exact H3].
    + destruct (IH (c :: cur)) as (H1 & H2 & H3); [now constructor|].
      cbv zeta. rewrite H1, H2. cbn [rev]. rewrite <- app_assoc.
      repeat split. exact H3.
Qed.

(** X6. Splitting into sentences only removes the terminators: the
    pieces, concatenated, are the text without its [。], [．] and line feeds;
    there is one more piece than terminators; and no piece holds a
    terminator. *)
Theorem sentences_of_lossless (text : pystr) :
  concat (sentences_of text) = filter (fun c => negb (is_terminator c)) text /\
  length (sentences_of text) = S (length (filter is_terminator text)) /\
  Forall (Forall (fun c => is_terminator c = false)) (sentences_of text).
Proof.
  exact (split_on_spec is_terminator text (Forall_nil _)).
Qed.

Lemma Forall_lstrip (P : char -> Prop) s : Forall P s -> Forall P (lstrip s).
Proof.
  intros H. destruct (lstrip_split s) as (sp & Hs & _).
  rewrite Hs in H. now apply Forall_app in H.
Qed.

Lemma Forall_strip (P : char -> Prop) s : Forall P s -> Forall P (strip s).
Proof.
  intros H. unfold strip, rstrip.
  apply Forall_rev, Forall_lstrip, Forall_rev, Forall_lstrip, H.
Qed.

(** X7. Every key-term record comes from one sentence of the source
    that contains its keyword: its text is that sentence stripped, is longer
    than 10 characters, has no whitespace at either end and no sentence
    terminator; the keyword is one of the 22 listed, and the importance is
    [high] exactly for the four listed as such, [medium] otherwise. *)
Theorem key_terms_wellformed (source : pystr) (k : KeyTerm) :
  In k (extract_key_terms source) ->
  In (keyword k) important_keywords /\
  (exists sentence,
     In sentence (sentences_of source) /\
     contains (keyword k) sentence = true /\
     text k = strip sentence) /\
  10 < length (text k) /\
  strip (text k) = text k /\
  Forall (fun c => is_terminator c = false) (text k) /\
  importance k =
    (if existsb (str_eqb (keyword k)) high_keywords then u "high" else u "medium").
Proof.
  intros Hin. apply in_firstn in Hin.
  unfold key_term_matches in Hin. apply in_flat_map in Hin as (kw & Hkw & Hin).
  apply filter_map_in in Hin as (sentence & Hs & Hk).
  unfold key_term_of in Hk.
  destruct (contains kw sentence) eqn:Hc; [|discriminate].
  destruct (10 <? length (strip sentence)) eqn:Hl; [|discriminate].
  injection Hk as <-. cbn [keyword text importance].
  apply Nat.ltb_lt in Hl.
  split; [exact Hkw|]. split; [eauto|]. split; [exact Hl|].
  split; [apply strip_strip|]. split; [|reflexivity].
  apply Forall_strip.
  destruct (split_on_spec is_terminator source (Forall_nil _)) as (_ & _ & Hall).
  fold (sentences_of source) in Hall.
  rewrite Forall_forall in Hall. now apply Hall.
Qed.

Lemma key_terms_wellformed_witness :
  10 < length (text termination_key_term) /\
  strip (text termination_key_term) = text termination_key_term.
Proof.
  destruct (@key_terms_wellformed termination_text termination_key_term)
    as (_ & _ & H1 & H2 & _).
  - vm_compute. auto.
  - split; [exact H1|exact H2].
Defined.
(** ** Clause classification *)

Lemma subseq_app {X : Type} (a b c d : list X) :
  subseq a b -> subseq c d -> subseq (a ++ c) (b ++ d).
Proof.
  intros Hab Hcd. induction Hab; simpl; [exact Hcd| |]; now constructor.
Qed.

Lemma subseq_length {X : Type} (a b : list X) : subseq a b -> length a <= length b.
Proof. induction 1; simpl; lia. Qed.

Lemma subseq_NoDup {X : Type} (a b : list X) : subseq a b -> NoDup b -> NoDup a.
Proof.
  induction 1 as [|x a b Hs IH|x a b Hs IH]; intros Hnd.
  - constructor.
  - inversion Hnd; auto.
  - inversion Hnd as [|? ? Hx Hb]; subst. constructor; [|auto].
    intros Hin. apply Hx. eapply subseq_in; eauto.
Qed.

Lemma key_eqb_eq a b : key_eqb a b = true <-> a = b.
Proof.
  destruct a as [a1 a2], b as [b1 b2]. unfold key_eqb. cbn [fst snd].
  rewrite andb_true_iff, !str_eqb_eq. split.
  - intros [-> ->]. reflexivity.
  - intros [= -> ->]. auto.
Qed.

Lemma distinct_keys_NoDup l : distinct_keys l = true -> NoDup l.
Proof.
  induction l as [|x l IH]; cbn [distinct_keys]; [constructor|].
  rewrite andb_true_iff, negb_true_iff. intros [Hx Hl].
  constructor; [|auto]. intros Hin.
  assert (existsb (key_eqb x) l = true); [|congruence].
  apply existsb_exists. exists x. split; [exact Hin|]. now apply key_eqb_eq.
Qed.

(** The innermost loop stops at the first paragraph that qualifies. *)
Lemma first_clause_spec ctype kw ps :
  (first_clause ctype kw ps = [] /\
   Forall (fun p => contains kw p && (20 <? length (strip p)) = false) ps) \/
  exists pre paragraph post,
    ps = pre ++ paragraph :: post /\
    Forall (fun p => contains kw p && (20 <? length (strip p)) = false) pre /\
    contains kw paragraph = true /\ 20 < length (strip paragraph) /\
    first_clause ctype kw ps =
      [ {| clause_type := ctype; content := firstn 500 (strip paragraph);
           clause_keyword := kw |} ].
Proof.
  induction ps as [|p ps IH]; cbn [first_clause].
  - left. split; [reflexivity|constructor].
  - destruct (contains kw p && (20 <? length (strip p))) eqn:Hq.
    + right. exists [], p, ps. apply andb_true_iff in Hq as [Hc Hl].
      apply Nat.ltb_lt in Hl. repeat split; auto.
    + destruct IH as [[-> Hall]|(pre & paragraph & post & -> & Hall & Hc & Hl & ->)].
      * left. split; [reflexivity|]. now constructor.
      * right. exists (p :: pre), paragraph, post. repeat split; auto.
Qed.

Lemma clauses_of_keyword_key text ctype kw :
  subseq (map clause_key (clauses_of_keyword text ctype kw)) [(ctype, kw)].
Proof.
  unfold clauses_of_keyword. destruct (contains kw text).
  - destruct (first_clause_spec ctype kw (re_split paragraph_break text))
      as [[-> _]|(pre & paragraph & post & _ & _ & _ & _ & ->)].
    + apply subseq_skip, subseq_nil.
    + apply subseq_keep, subseq_nil.
  - apply subseq_skip, subseq_nil.
Qed.

Lemma clause_keys_of_type text ctype kws :
  subseq (map clause_key (flat_map (clauses_of_keyword text ctype) kws))
         (map (pair ctype) kws).
Proof.
  induction kws as [|kw kws IH]; cbn [flat_map map]; [constructor|].
  rewrite map_app.
  apply (subseq_app (clauses_of_keyword_key text ctype kw) IH).
Qed.

Lemma clause_keys_subseq text :
  subseq (map clause_key (classify_clauses text)) clause_pairs.
Proof.
  unfold classify_clauses, clause_pairs.
  induction clause_types as [|tk tks IH]; cbn [flat_map map]; [constructor|].
  rewrite map_app. apply subseq_app; [apply clause_keys_of_type|exact IH].
Qed.

(** X8. The classifier returns at most one clause for each pair of a
    category and one of its keywords, in the order of the table: at most 25
    clauses, no two with the same category and keyword. *)
Theorem clauses_one_per_keyword (text : pystr) :
  subseq (map clause_key (classify_clauses text)) clause_pairs /\
  NoDup (map clause_key (classify_clauses text)) /\
  length (classify_clauses text) <= 25.
Proof.
  pose proof (clause_keys_subseq text) as Hsub.
  split; [exact Hsub|]. split.
  - apply (subseq_NoDup Hsub). apply distinct_keys_NoDup. vm_compute. reflexivity.
  - apply subseq_length in Hsub. rewrite length_map in Hsub. exact Hsub.
Qed.

(** X9. Every clause is cut from the first paragraph of the text, as
    split on blank lines, that contains the clause's keyword and is longer
    than 20 characters once stripped: the content is the first 500
    characters of that stripped paragraph, so it has between 21 and 500
    characters and no whitespace in front; the keyword belongs to the
    clause's category and occurs in the text. *)
Theorem clauses_wellformed (source : pystr) (c : Clause) :
  In c (classify_clauses source) ->
  In (clause_key c) clause_pairs /\
  contains (clause_keyword c) source = true /\
  (exists pre paragraph post,
     re_split paragraph_break source = pre ++ paragraph :: post /\
     Forall (fun p => contains (clause_keyword c) p
                      && (20 <? length (strip p)) = false) pre /\
     contains (clause_keyword c) paragraph = true /\
     20 < length (strip paragraph) /\
     content c = firstn 500 (strip paragraph)) /\
  20 < length (content c) <= 500 /\
  no_lead (content c).
Proof.
  intros Hin. split.
  { apply (@subseq_in _ _ _ (clause_key c) (clause_keys_subseq source)).
    apply in_map. exact Hin. }
  unfold classify_clauses in Hin.
  apply in_flat_map in Hin as (tk & _ & Hin).
  apply in_flat_map in Hin as (kw & _ & Hin).
  unfold clauses_of_keyword in Hin.
  destruct (contains kw source) eqn:Hsrc; [|contradiction].
  destruct (first_clause_spec (fst tk) kw (re_split paragraph_break source))
    as [[Hnil _]|(pre & paragraph & post & Hps & Hall & Hc & Hl & Hfc)].
  { rewrite Hnil in Hin. contradiction. }
  rewrite Hfc in Hin. destruct Hin as [<-|[]].
  cbn [clause_keyword content].
  split; [exact Hsrc|]. split; [eauto 10|]. split.
  - rewrite length_firstn. lia.
  - destruct (strip_ends paragraph) as [Hlead _].
    destruct (strip paragraph) as [|ch rest]; [simpl in Hl; lia|]. exact Hlead.
Qed.

Lemma clauses_wellformed_witness :
  20 < length termination_text <= 500.
Proof.
  destruct (@clauses_wellformed termination_text
              {| clause_type := u "termination"; content := termination_text;
                 clause_keyword := u "終了" |}) as (_ & _ & _ & H & _).
  - vm_compute. auto.
  - exact H.
Defined.
(** ** Excerpts *)

Lemma occurs_in_refl s : occurs_in s s.
Proof. exists [], []. now rewrite app_nil_r. Qed.

Lemma occurs_in_trans a b c : occurs_in a b -> occurs_in b c -> occurs_in a c.
Proof.
  intros (p1 & q1 & ->) (p2 & q2 & ->).
  exists (p2 ++ p1), (q1 ++ q2). now rewrite !app_assoc.
Qed.

Lemma occurs_in_firstn n s : occurs_in (firstn n s) s.
Proof. exists [], (skipn n s). apply eq_sym, firstn_skipn. Qed.

Lemma occurs_in_skipn n s : occurs_in (skipn n s) s.
Proof. exists (firstn n s), []. rewrite app_nil_r. apply eq_sym, firstn_skipn. Qed.

Lemma occurs_in_substr s a b : occurs_in (substr s a b) s.
Proof.
  unfold substr. eapply occurs_in_trans; [apply occurs_in_firstn|apply occurs_in_skipn].
Qed.

Lemma occurs_in_rev a b : occurs_in a b -> occurs_in (rev a) (rev b).
Proof.
  intros (p & q & ->). exists (rev q), (rev p).
  now rewrite !rev_app_distr, app_assoc.
Qed.

Lemma occurs_in_lstrip s : occurs_in (lstrip s) s.
Proof. destruct (lstrip_split s) as (sp & Hs & _). exists sp, []. now rewrite app_nil_r. Qed.

Lemma occurs_in_strip s : occurs_in (strip s) s.
Proof.
  unfold strip, rstrip.
  eapply occurs_in_trans; [|apply occurs_in_lstrip].
  rewrite <- (rev_involutive (lstrip s)) at 2.
  apply occurs_in_rev, occurs_in_lstrip.
Qed.

Lemma occurs_in_group source m i : occurs_in (group source m i) source.
Proof.
  unfold group. destruct (span_of i (m_groups m)) as [[a b]|].
  - apply occurs_in_substr.
  - exists [], source. reflexivity.
Qed.

Lemma char_eqb_eq a b : char_eqb a b = true <-> a = b.
Proof. apply N.eqb_eq. Qed.

Lemma starts_with_spec p : forall s,
  starts_with p s = true <-> exists post, s = p ++ post.
Proof.
  induction p as [|x p IH]; intros s; cbn [starts_with].
  - split; [intros _; exists s; reflexivity|reflexivity].
  - destruct s as [|y s].
    + split; [discriminate|intros (post & H); discriminate].
    + rewrite andb_true_iff, char_eqb_eq, IH. split.
      * intros (-> & post & ->). now exists post.
      * intros (post & [= -> ->]). split; [reflexivity|now exists post].
Qed.

(** [needle in hay] holds exactly when [needle] is an excerpt of [hay]. *)
Lemma contains_spec needle : forall hay,
  contains needle hay = true <-> occurs_in needle hay.
Proof.
  induction hay as [|c hay IH]; cbn [contains]; rewrite orb_true_iff, starts_with_spec.
  - split.
    + intros [(post & H)|H]; [|discriminate]. exists [], post. exact H.
    + intros ([|? ?] & post & H); [|discriminate]. left. now exists post.
  - rewrite IH. split.
    + intros [(post & H)|(pre & post & ->)].
      * exists [], post. exact H.
      * exists (c :: pre), post. reflexivity.
    + intros ([|c' pre] & post & H).
      * left. now exists post.
      * injection H as <- ->. right. now exists pre, post.
Qed.

Lemma split_on_occurs sep s : forall cur piece,
  In piece (split_on sep s cur) -> occurs_in piece (rev cur ++ s).
Proof.
  induction s as [|c s IH]; intros cur piece; cbn [split_on].
  - intros [<-|[]]. rewrite app_nil_r. apply occurs_in_refl.
  - destruct (sep c).
    + intros [<-|Hin].
      * exists [], (c :: s). reflexivity.
      * apply IH in Hin. destruct Hin as (pre & post & H). cbn [rev app] in H.
        exists (rev cur ++ c :: pre), post. rewrite H, <- app_assoc. reflexivity.
    + intros Hin. apply IH in Hin. cbn [rev] in Hin.
      now rewrite <- app_assoc in Hin.
Qed.

Lemma split_at_occurs source ms : forall from piece,
  In piece (split_at source ms from) -> occurs_in piece source.
Proof.
  induction ms as [|m ms IH]; intros from piece; cbn [split_at].
  - intros [<-|[]]. apply occurs_in_skipn.
  - intros [<-|Hin]; [apply occurs_in_substr|eauto].
Qed.

Lemma occurs_in_lstrip_keep n s :
  truthy n = true -> no_lead n -> occurs_in n s -> occurs_in n (lstrip s).
Proof.
  intros Hn Hlead (pre & post & ->).
  induction pre as [|x pre IH]; cbn [app lstrip].
  - destruct n as [|c n]; [discriminate|]. cbn [app lstrip].
    cbn [no_lead] in Hlead. rewrite Hlead. exists [], post. reflexivity.
  - destruct (is_space x); [exact IH|].
    exists (x :: pre), post. reflexivity.
Qed.

Lemma solid_spec s :
  solid s = true -> truthy s = true /\ no_lead s /\ no_lead (rev s).
Proof.
  unfold solid. destruct s as [|c s]; [discriminate|].
  destruct (rev (c :: s)) as [|c' r]; [discriminate|].
  rewrite andb_true_iff, !negb_true_iff. intros [H1 H2]. repeat split; assumption.
Qed.

Lemma truthy_rev s : truthy (rev s) = truthy s.
Proof.
  destruct s as [|c s]; [reflexivity|]. cbn [rev].
  destruct (rev s); reflexivity.
Qed.

(** Stripping does not cut into an excerpt that has no whitespace at its
    ends. *)
Lemma occurs_in_strip_keep n s :
  solid n = true -> occurs_in n s -> occurs_in n (strip s).
Proof.
  intros Hn Hin. apply solid_spec in Hn as (Ht & Hl & Hr).
  unfold strip, rstrip.
  apply (occurs_in_lstrip_keep Ht Hl) in Hin.
  apply occurs_in_rev in Hin.
  apply occurs_in_lstrip_keep in Hin; [|now rewrite truthy_rev|exact Hr].
  apply occurs_in_rev in Hin. now rewrite rev_involutive in Hin.
Qed.

(** X10. Every text the extractor returns is a contiguous excerpt of
    the source: a party's name, the matched text of a date and of an
    amount, a key term's sentence and its keyword, a clause's content and
    its keyword. *)
Theorem records_are_excerpts (ucd : UnicodeData) (source : pystr) :
  let info := extract_contract_information ucd source in
  (forall p, In p (parties info) -> occurs_in (name p) source) /\
  (forall e, In e (date_entries (dates info)) ->
     occurs_in (original_text e) source) /\
  (forall a, In a (amounts info) -> occurs_in (amount_original_text a) source) /\
  (forall k, In k (key_terms info) ->
     occurs_in (text k) source /\ occurs_in (keyword k) (text k)) /\
  (forall c, In c (clauses info) ->
     occurs_in (content c) source /\ occurs_in (clause_keyword c) source).
Proof.
  cbn [extract_contract_information parties dates amounts key_terms clauses].
  split; [|split; [|split; [|split]]].
  - intros p Hin. apply in_firstn in Hin.
    destruct (unique_parties_spec (party_matches ucd source) []) as (_ & Hsub & _).
    apply (@subseq_in _ _ _ p Hsub) in Hin.
    unfold party_matches in Hin. apply in_flat_map in Hin as (pattern & _ & Hin).
    apply filter_map_in in Hin as (m & _ & Hp).
    unfold party_of_match in Hp. destruct (truthy _ && _); [|discriminate].
    injection Hp as <-. cbn [name].
    eapply occurs_in_trans; [apply occurs_in_strip|apply occurs_in_group].
  - intros e Hin.
    apply extract_dates_entries, date_pool_in in Hin as (pf & m & _ & _ & He).
    apply date_of_match_spec in He as (y & mo & d & _ & _ & ->).
    apply occurs_in_substr.
  - intros a Hin. apply in_firstn in Hin.
    unfold amount_matches in Hin. apply in_flat_map in Hin as (pattern & _ & Hin).
    apply filter_map_in in Hin as (m & _ & Ha).
    unfold amount_of_match in Ha. destruct (py_float _ _); [|discriminate].
    injection Ha as <-. apply occurs_in_substr.
  - intros k Hin. apply in_firstn in Hin.
    unfold key_term_matches in Hin. apply in_flat_map in Hin as (kw & Hkw & Hin).
    apply filter_map_in in Hin as (sentence & Hs & Hk).
    unfold key_term_of in Hk.
    destruct (contains kw sentence) eqn:Hc; [|discriminate].
    destruct (10 <? length (strip sentence)); [|discriminate].
    injection Hk as <-. cbn [keyword text].
    split.
    + eapply occurs_in_trans; [apply occurs_in_strip|].
      apply (split_on_occurs _ _ [] _ Hs).
    + apply occurs_in_strip_keep; [|now apply contains_spec].
      assert (Hall : forallb solid important_keywords = true) by reflexivity.
      rewrite forallb_forall in Hall. now apply Hall.
  - intros c Hin. unfold classify_clauses in Hin.
    apply in_flat_map in Hin as (tk & _ & Hin).
    apply in_flat_map in Hin as (kw & _ & Hin).
    unfold clauses_of_keyword in Hin.
    destruct (contains kw source) eqn:Hsrc; [|contradiction].
    destruct (first_clause_spec (fst tk) kw (re_split paragraph_break source))
      as [[Hnil _]|(pre & paragraph & post & Hps & _ & _ & _ & Hfc)].
    { rewrite Hnil in Hin. contradiction. }
    rewrite Hfc in Hin. destruct Hin as [<-|[]].
    cbn [clause_keyword content]. split; [|now apply contains_spec].
    eapply occurs_in_trans; [apply occurs_in_firstn|].
    eapply occurs_in_trans; [apply occurs_in_strip|].
    apply (split_at_occurs source (finditer paragraph_break source) 0).
    unfold re_split in Hps. rewrite Hps. apply in_elt.
Qed.
(** ** Soundness of the matcher *)

Section MatcherSoundness.
Variable A : Type.

Lemma rep_sound r body :
  @sound A r body -> forall fuel lo hi, @sound A (Rep r lo hi) (rep body fuel lo hi).
Proof.
  intros Hbody fuel.
  assert (Hstop : forall lo hi pos s cs (k : cont A) x,
             match lo with O => k pos s cs | S _ => None end = Some x ->
             exists w s' cs',
               s = w ++ s' /\ sem (Rep r lo hi) pos w cs cs' /\
               k (pos + length w) s' cs' = Some x).
  { intros lo hi pos s cs k x H. destruct lo; [|discriminate].
    exists [], s, cs. cbn [length]. rewrite Nat.add_0_r.
    split; [reflexivity|]. split; [constructor|exact H]. }
  induction fuel as [|fuel IH]; intros lo hi pos s cs k x H; cbn [rep] in H.
  - eauto.
  - assert (Hmore : hi <> Some 0 ->
      or_else
        (body pos s cs (fun pos' s' cs' =>
           if pos' <=? pos then None
           else rep body fuel (pred lo) (option_map pred hi) pos' s' cs' k))
        match lo with O => k pos s cs | S _ => None end = Some x ->
      exists w s' cs',
        s = w ++ s' /\ sem (Rep r lo hi) pos w cs cs' /\
        k (pos + length w) s' cs' = Some x).
    { intros Hhi H'. apply or_else_some in H' as [H'|H']; [|eauto].
      apply Hbody in H' as (w1 & s1 & cs1 & -> & Hw1 & H').
      destruct (pos + length w1 <=? pos) eqn:Hle; [discriminate|].
      apply Nat.leb_gt in Hle.
      apply IH in H' as (w2 & s2 & cs2 & -> & Hw2 & H').
      exists (w1 ++ w2), s2, cs2. rewrite <- app_assoc.
      split; [reflexivity|]. split.
      - eapply sem_Rep_step; eauto.
        intros ->. cbn [length] in Hle. lia.
      - rewrite length_app, Nat.add_assoc. exact H'. }
    destruct hi as [[|h]|]; [eauto| |]; (apply Hmore; [discriminate|exact H]).
Qed.

Lemma rmatch_sound r : @sound A r (rmatch (A:=A) r).
Proof.
  induction r as [|p|r1 IH1 r2 IH2|r1 IH1 r2 IH2|r IH lo hi|i r IH];
    intros pos s cs k x H; cbn [rmatch] in H.
  - exists [], s, cs. cbn [length]. rewrite Nat.add_0_r.
    split; [reflexivity|]. split; [constructor|exact H].
  - destruct s as [|c s]; [discriminate|].
    destruct (p c) eqn:Hp; [|discriminate].
    exists [c], s, cs. cbn [length]. rewrite Nat.add_1_r.
    split; [reflexivity|]. split; [now constructor|exact H].
  - apply IH1 in H as (w1 & s1 & cs1 & -> & Hw1 & H).
    apply IH2 in H as (w2 & s2 & cs2 & -> & Hw2 & H).
    exists (w1 ++ w2), s2, cs2. rewrite <- app_assoc.
    split; [reflexivity|]. split; [econstructor; eauto|].
    rewrite length_app, Nat.add_assoc. exact H.
  - apply or_else_some in H as [H|H].
    + apply IH1 in H as (w & s' & cs' & -> & Hw & H).
      exists w, s', cs'. split; [reflexivity|]. split; [now apply sem_Alt_l|exact H].
    + apply IH2 in H as (w & s' & cs' & -> & Hw & H).
      exists w, s', cs'. split; [reflexivity|]. split; [now apply sem_Alt_r|exact H].
  - eapply rep_sound; eauto.
  - apply IH in H as (w & s' & cs' & -> & Hw & H).
    exists w, s', ((i, (pos, pos + length w)) :: cs').
    split; [reflexivity|]. split; [now constructor|exact H].
Qed.
End MatcherSoundness.

(** A match at [pos] consumes a word of the pattern, and its groups are
    the spans that word's derivation records, moved by [pos]. *)
Lemma match_at_sem r pos s m :
  match_at r pos s = Some m ->
  exists w s' cs,
    s = w ++ s' /\ sem r 0 w [] cs /\
    m = {| m_start := pos; m_end := pos + length w;
           m_groups := map (shift_span pos) cs |}.
Proof.
  unfold match_at. intros H.
  apply rmatch_sound in H as (w & s' & cs & -> & Hw & H).
  injection H as <-. exists w, s', cs. auto.
Qed.

Lemma finditer_sem r source m :
  In m (finditer r source) ->
  exists w s' cs,
    skipn (m_start m) source = w ++ s' /\ sem r 0 w [] cs /\
    m_start m <= length source /\
    m_end m = m_start m + length w /\
    m_groups m = map (shift_span (m_start m)) cs.
Proof.
  intros H. apply finditer_matches in H as [Hb Hm].
  apply match_at_sem in Hm as (w & s' & cs & Hs & Hw & Heq).
  exists w, s', cs. split; [exact Hs|]. split; [exact Hw|]. split; [exact Hb|].
  rewrite Heq. cbn [m_start m_end m_groups]. split; reflexivity.
Qed.
(** ** Words of the patterns *)

Lemma sem_classes (P : char -> Prop) r pos w cs cs' :
  sem r pos w cs cs' -> classes_within P r -> Forall P w.
Proof.
  induction 1; cbn [classes_within]; intros Hc.
  - constructor.
  - constructor; [auto|constructor].
  - destruct Hc. apply Forall_app. auto.
  - destruct Hc. auto.
  - destruct Hc. auto.
  - constructor.
  - apply Forall_app. auto.
  - auto.
Qed.

Lemma sem_nogroups r pos w cs cs' :
  sem r pos w cs cs' -> nogroups r -> cs' = cs.
Proof.
  induction 1; cbn [nogroups]; intros Hn; try reflexivity.
  - destruct Hn. rewrite IHsem2, IHsem1; auto.
  - destruct Hn. auto.
  - destruct Hn. auto.
  - rewrite IHsem2, IHsem1; auto.
  - contradiction.
Qed.

Lemma sem_Emp_inv pos w cs cs' : sem Emp pos w cs cs' -> w = [] /\ cs' = cs.
Proof. inversion 1; subst; auto. Qed.

Lemma sem_Cls_inv p pos w cs cs' :
  sem (Cls p) pos w cs cs' -> exists c, w = [c] /\ p c = true /\ cs' = cs.
Proof. inversion 1; subst; eauto. Qed.

Lemma sem_Cat_inv r1 r2 pos w cs cs' :
  sem (Cat r1 r2) pos w cs cs' ->
  exists w1 w2 cs1,
    w = w1 ++ w2 /\ sem r1 pos w1 cs cs1 /\ sem r2 (pos + length w1) w2 cs1 cs'.
Proof. inversion 1; subst; eauto 7. Qed.

Lemma sem_Alt_inv r1 r2 pos w cs cs' :
  sem (Alt r1 r2) pos w cs cs' -> sem r1 pos w cs cs' \/ sem r2 pos w cs cs'.
Proof. inversion 1; subst; auto. Qed.

Lemma sem_Grp_inv i r pos w cs cs' :
  sem (Grp i r) pos w cs cs' ->
  exists cs1, sem r pos w cs cs1 /\ cs' = (i, (pos, pos + length w)) :: cs1.
Proof. inversion 1; subst; eauto. Qed.

Lemma sem_lit1 c pos w cs cs' : sem (lit1 c) pos w cs cs' -> w = [c] /\ cs' = cs.
Proof.
  intros H. apply sem_Cls_inv in H as (c' & -> & Hc & ->).
  apply char_eqb_eq in Hc as ->. auto.
Qed.

Lemma sem_lit s : forall pos w cs cs',
  sem (lit s) pos w cs cs' -> w = s /\ cs' = cs.
Proof.
  induction s as [|c s IH]; intros pos w cs cs' H.
  - now apply sem_Emp_inv in H.
  - destruct s as [|c' s].
    + now apply sem_lit1 in H.
    + change (lit (c :: c' :: s)) with (Cat (lit1 c) (lit (c' :: s))) in H.
      apply sem_Cat_inv in H as (w1 & w2 & cs1 & -> & H1 & H2).
      apply sem_lit1 in H1 as [-> ->]. apply IH in H2 as [-> ->]. auto.
Qed.

Lemma sem_alt_lits l : forall pos w cs cs',
  sem (alt (map lit l)) pos w cs cs' -> In w l /\ cs' = cs.
Proof.
  induction l as [|s l IH]; intros pos w cs cs' H.
  - cbn [map alt] in H. apply sem_Cls_inv in H as (c & _ & Hc & _). discriminate.
  - destruct l as [|s' l].
    + cbn [map alt] in H. apply sem_lit in H as [-> ->]. split; [now left|reflexivity].
    + change (alt (map lit (s :: s' :: l)))
        with (Alt (lit s) (alt (map lit (s' :: l)))) in H.
      apply sem_Alt_inv in H as [H|H].
      * apply sem_lit in H as [-> ->]. split; [now left|reflexivity].
      * apply IH in H as [Hin ->]. split; [now right|reflexivity].
Qed.

(** A repetition consumes between [lo] and [hi] non-empty words of its
    body. *)
Lemma sem_rep_inv r0 r pos w cs cs' :
  sem r pos w cs cs' -> forall lo hi, r = Rep r0 lo hi ->
  exists ws,
    w = concat ws /\ lo <= length ws /\
    match hi with Some h => length ws <= h | None => True end /\
    Forall (fun wi => wi <> [] /\ exists p c c', sem r0 p wi c c') ws.
Proof.
  induction 1; intros lo' hi' Heq; try discriminate.
  - injection Heq as -> <- <-. exists []. cbn. repeat split; [lia| |constructor].
    destruct hi; [lia|exact I].
  - injection Heq as -> -> ->.
    destruct (IHsem2 _ _ eq_refl) as (ws & -> & Hlo & Hhi & Hall).
    exists (w1 :: ws). cbn [concat length]. split; [reflexivity|].
    split; [lia|]. split.
    + destruct hi' as [[|h]|]; [congruence|cbn in Hhi; lia|exact I].
    + constructor; [|exact Hall]. split; [assumption|eauto].
Qed.

(** [\d{lo,hi}] and the like: a run of characters of the class. *)
Lemma sem_times_cls p lo hi pos w cs cs' :
  sem (times (Cls p) lo hi) pos w cs cs' ->
  Forall (fun c => p c = true) w /\ lo <= length w <= hi /\ cs' = cs.
Proof.
  intros H. split; [|split].
  - apply (sem_classes (fun c => p c = true) H). cbn. auto.
  - destruct (sem_rep_inv H eq_refl) as (ws & -> & Hlo & Hhi & Hall).
    assert (Hlen : length (concat ws) = length ws).
    { clear H Hlo Hhi. induction Hall as [|wi ws [_ (p0 & c0 & c0' & Hwi)] _ IH];
        [reflexivity|].
      cbn [concat]. rewrite length_app, IH.
      apply sem_Cls_inv in Hwi as (c & -> & _). reflexivity. }
    rewrite Hlen. lia.
  - apply (sem_nogroups H). exact I.
Qed.

(** [text[a:b]] read off the rest of the text at [pos]. *)
Lemma substr_skipn source pos pre g rest a b :
  skipn pos source = pre ++ g ++ rest ->
  a = length pre -> b = a + length g ->
  substr source (pos + a) (pos + b) = g.
Proof.
  intros Hs -> ->. unfold substr.
  replace (skipn (pos + length pre) source)
    with (skipn (length pre) (skipn pos source))
    by (rewrite skipn_skipn; f_equal; lia).
  rewrite Hs, skipn_app_length.
  replace (pos + (length pre + length g) - (pos + length pre)) with (length g) by lia.
  rewrite firstn_app, Nat.sub_diag, firstn_all. cbn. apply app_nil_r.
Qed.

Lemma int_digits_some ucd s : forall acc,
  Forall (fun c => is_digit ucd c = true) s ->
  exists n, int_digits ucd s acc = Some n.
Proof.
  induction s as [|c s IH]; intros acc H; cbn [int_digits]; [eauto|].
  inversion H as [|? ? Hc Hs]; subst. unfold is_digit in Hc.
  destruct (decimal ucd c); [|discriminate]. auto.
Qed.

Lemma py_int_some ucd s :
  Forall (fun c => is_digit ucd c = true) s -> 1 <= length s ->
  exists n, py_int ucd s = Some n.
Proof.
  intros H Hl. destruct s as [|c s]; [cbn in Hl; lia|].
  unfold py_int. now apply int_digits_some.
Qed.

Lemma group_of_span source m i a b pre g rest :
  span_of i (m_groups m) = Some (m_start m + a, m_start m + b) ->
  skipn (m_start m) source = pre ++ g ++ rest ->
  a = length pre -> b = a + length g ->
  group source m i = g.
Proof.
  intros Hsp Hs Ha Hb. unfold group. rewrite Hsp.
  now apply (@substr_skipn source (m_start m) pre g rest a b).
Qed.

Lemma group0_of_word source m w rest :
  skipn (m_start m) source = w ++ rest -> m_end m = m_start m + length w ->
  group0 source m = w.
Proof.
  intros Hs He. unfold group0. rewrite He.
  rewrite <- (Nat.add_0_r (m_start m)) at 1.
  apply (@substr_skipn source (m_start m) [] w rest); auto.
Qed.

(** The first two groups of a date pattern and the separators after
    them. *)
Lemma date_prefix_sem p s1 s2 lo1 hi1 lo2 hi2 (X : regex) w cs :
  sem (Cat (Grp 1 (times (Cls p) lo1 hi1))
        (Cat (lit s1) (Cat (Grp 2 (times (Cls p) lo2 hi2)) (Cat (lit s2) X))))
      0 w [] cs ->
  exists w1 w2 wx,
    w = w1 ++ s1 ++ w2 ++ s2 ++ wx /\
    Forall (fun c => p c = true) w1 /\ lo1 <= length w1 <= hi1 /\
    Forall (fun c => p c = true) w2 /\ lo2 <= length w2 <= hi2 /\
    sem X (length (w1 ++ s1 ++ w2 ++ s2)) wx
        [(2, (length (w1 ++ s1), length (w1 ++ s1) + length w2));
         (1, (0, length w1))] cs.
Proof.
  intros H.
  apply sem_Cat_inv in H as (w1 & t1 & c1 & -> & H1 & H).
  apply sem_Grp_inv in H1 as (c1' & H1 & ->).
  apply sem_times_cls in H1 as (Hw1 & Hl1 & ->).
  apply sem_Cat_inv in H as (x1 & t2 & c2 & -> & Hs1 & H).
  apply sem_lit in Hs1 as [-> ->].
  apply sem_Cat_inv in H as (w2 & t3 & c3 & -> & H2 & H).
  apply sem_Grp_inv in H2 as (c2' & H2 & ->).
  apply sem_times_cls in H2 as (Hw2 & Hl2 & ->).
  apply sem_Cat_inv in H as (x2 & wx & c4 & -> & Hs2 & H).
  apply sem_lit in Hs2 as [-> ->].
  exists w1, w2, wx. repeat (split; [assumption || reflexivity || lia|]).
  rewrite !length_app, !Nat.add_assoc. exact H.
Qed.

Lemma three_groups source m w1 s1 w2 s2 w3 rest :
  skipn (m_start m) source = w1 ++ s1 ++ w2 ++ s2 ++ w3 ++ rest ->
  m_groups m =
    map (shift_span (m_start m))
      [(3, (length (w1 ++ s1 ++ w2 ++ s2),
            length (w1 ++ s1 ++ w2 ++ s2) + length w3));
       (2, (length (w1 ++ s1), length (w1 ++ s1) + length w2));
       (1, (0, length w1))] ->
  group source m 1 = w1 /\ group source m 2 = w2 /\ group source m 3 = w3.
Proof.
  intros Hs Hg. split; [|split].
  - apply (@group_of_span source m 1 0 (length w1) [] w1
             (s1 ++ w2 ++ s2 ++ w3 ++ rest)); auto.
    rewrite Hg. reflexivity.
  - apply (@group_of_span source m 2 (length (w1 ++ s1))
             (length (w1 ++ s1) + length w2) (w1 ++ s1) w2 (s2 ++ w3 ++ rest)); auto.
    + rewrite Hg. reflexivity.
    + rewrite Hs, <- !app_assoc. reflexivity.
  - apply (@group_of_span source m 3 (length (w1 ++ s1 ++ w2 ++ s2))
             (length (w1 ++ s1 ++ w2 ++ s2) + length w3)
             (w1 ++ s1 ++ w2 ++ s2) w3 rest); auto.
    + rewrite Hg. reflexivity.
    + rewrite Hs, <- !app_assoc. reflexivity.
Qed.

(** The three groups of a date match are runs of decimal digits: four
    for the year, one or two for the month and for the day. *)
Lemma date_match_numerals ucd source pf m :
  In pf (date_patterns ucd) -> In m (finditer (fst pf) source) ->
  exists year month day,
    ymd_groups (snd pf) source m = (year, month, day) /\
    Forall (fun c => is_digit ucd c = true) year /\ length year = 4 /\
    Forall (fun c => is_digit ucd c = true) month /\ 1 <= length month <= 2 /\
    Forall (fun c => is_digit ucd c = true) day /\ 1 <= length day <= 2.
Proof.
  intros Hpf Hm. apply finditer_sem in Hm as (w & s' & cs & Hs & Hw & _ & _ & Hg).
  unfold date_patterns in Hpf. unfold digit in Hpf.
  destruct Hpf as [<-|[<-|[<-|[<-|[]]]]]; cbn [fst snd cat ymd_groups] in *;
    apply date_prefix_sem in Hw
      as (w1 & w2 & wx & -> & Hw1 & Hl1 & Hw2 & Hl2 & Hw).
  - apply sem_Cat_inv in Hw as (w3 & t & c3 & -> & H3 & Ht).
    apply sem_Grp_inv in H3 as (c3' & H3 & ->).
    apply sem_times_cls in H3 as (Hw3 & Hl3 & ->).
    apply sem_lit in Ht as [-> ->].
    rewrite <- !app_assoc in Hs.
    destruct (three_groups _ _ _ _ _ _ _ _ Hs Hg) as (-> & -> & ->).
    exists w1, w2, w3. repeat (split; [assumption || reflexivity || lia|]). lia.
  - apply sem_Grp_inv in Hw as (c3' & H3 & ->).
    apply sem_times_cls in H3 as (Hw3 & Hl3 & ->).
    rewrite <- !app_assoc in Hs.
    destruct (three_groups _ _ _ _ _ _ _ _ Hs Hg) as (-> & -> & ->).
    exists w1, w2, wx. repeat (split; [assumption || reflexivity || lia|]). lia.
  - apply sem_Grp_inv in Hw as (c3' & H3 & ->).
    apply sem_times_cls in H3 as (Hw3 & Hl3 & ->).
    rewrite <- !app_assoc in Hs.
    destruct (three_groups _ _ _ _ _ _ _ _ Hs Hg) as (-> & -> & ->).
    exists w1, w2, wx. repeat (split; [assumption || reflexivity || lia|]). lia.
  - apply sem_Grp_inv in Hw as (c3' & H3 & ->).
    apply sem_times_cls in H3 as (Hw3 & Hl3 & ->).
    rewrite <- !app_assoc in Hs.
    destruct (three_groups _ _ _ _ _ _ _ _ Hs Hg) as (-> & -> & ->).
    exists wx, w1, w2. repeat (split; [assumption || reflexivity || lia|]). lia.
Qed.

(** X11. For every match of a date pattern, the strings handed to
    [int()] are runs of decimal digits, four for the year and one or two for
    the month and for the day, so the conversion never fails: the match is
    dropped exactly when the three numbers are not a calendar date. *)
Theorem date_match_always_parses
    (ucd : UnicodeData) (source : pystr) (pf : regex * date_format) (m : Match) :
  In pf (date_patterns ucd) -> In m (finditer (fst pf) source) ->
  (exists year month day,
     ymd_groups (snd pf) source m = (year, month, day) /\
     Forall (fun c => is_digit ucd c = true) year /\ length year = 4 /\
     Forall (fun c => is_digit ucd c = true) month /\ 1 <= length month <= 2 /\
     Forall (fun c => is_digit ucd c = true) day /\ 1 <= length day <= 2) /\
  exists y mo d,
    parsed_ymd ucd (snd pf) source m = Some (y, mo, d) /\
    (date_of_match ucd (snd pf) source m = None <-> ~ valid_ymd y mo d).
Proof.
  intros Hpf Hm.
  pose proof (@date_match_numerals ucd source pf m Hpf Hm)
    as (year & month & day & Hg & Hy & Hly & Hmo & Hlmo & Hd & Hld).
  split; [eauto 12|].
  destruct (@py_int_some ucd year Hy) as [y Hyy]; [lia|].
  destruct (@py_int_some ucd month Hmo) as [mo Hmm]; [lia|].
  destruct (@py_int_some ucd day Hd) as [d Hdd]; [lia|].
  assert (Hp : parsed_ymd ucd (snd pf) source m = Some (y, mo, d)).
  { unfold parsed_ymd. rewrite Hg, Hyy, Hmm, Hdd. reflexivity. }
  exists y, mo, d. split; [exact Hp|]. split.
  - intros Hnone Hv.
    assert (Hs : date_of_match ucd (snd pf) source m
                 = Some (entry_of source m (y, mo, d))).
    { apply date_of_match_spec. exists y, mo, d. auto. }
    congruence.
  - intros Hnv. destruct (date_of_match ucd (snd pf) source m) as [e|] eqn:He;
      [|reflexivity].
    apply date_of_match_spec in He as (y' & mo' & d' & Hp' & Hv & _).
    rewrite Hp in Hp'. injection Hp' as <- <- <-. contradiction.
Qed.

Lemma date_match_always_parses_witness :
  exists y mo d,
    parsed_ymd sample_ucd japanese malformed_dates
      {| m_start := 3; m_end := 13;
         m_groups := [(3, (11, 12)); (2, (8, 10)); (1, (3, 7))] |}
    = Some (y, mo, d) /\
    (date_of_match sample_ucd japanese malformed_dates
       {| m_start := 3; m_end := 13;
          m_groups := [(3, (11, 12)); (2, (8, 10)); (1, (3, 7))] |} = None
     <-> ~ valid_ymd y mo d).
Proof.
  destruct (@date_match_always_parses sample_ucd malformed_dates
              (nth 0 (date_patterns sample_ucd) (Emp, slash))
              {| m_start := 3; m_end := 13;
                 m_groups := [(3, (11, 12)); (2, (8, 10)); (1, (3, 7))] |})
    as [_ H].
  - left. reflexivity.
  - cbn [nth fst]. vm_compute. auto.
  - exact H.
Defined.
(** ** Amounts *)

Lemma classes_within_lit (P : char -> Prop) s : Forall P s -> classes_within P (lit s).
Proof.
  induction s as [|c s IH]; intros H; [exact I|].
  inversion H as [|? ? Hc Hs]; subst.
  destruct s as [|c' s].
  - cbn. intros c0 Hc0. apply char_eqb_eq in Hc0 as <-. exact Hc.
  - change (lit (c :: c' :: s)) with (Cat (lit1 c) (lit (c' :: s))).
    split; [|auto]. cbn. intros c0 Hc0. apply char_eqb_eq in Hc0 as <-. exact Hc.
Qed.

Lemma nogroups_lit s : nogroups (lit s).
Proof.
  induction s as [|c s IH]; [exact I|].
  destruct s as [|c' s]; [exact I|].
  change (lit (c :: c' :: s)) with (Cat (lit1 c) (lit (c' :: s))).
  split; [exact I|exact IH].
Qed.

Lemma nogroups_number ucd : nogroups (number ucd).
Proof.
  unfold number. cbn [cat nogroups times star opt digit].
  repeat split; apply nogroups_lit.
Qed.

(** The shape of [\d{1,3}(?:,\d{3})*(?:\.\d{2})?], as far as [float()] is
    concerned, when the full stop is not itself a digit. *)
Lemma sem_number ucd pos w cs cs' :
  decimal ucd 46%N = None ->
  sem (number ucd) pos w cs cs' ->
  cs' = cs /\
  exists a b c,
    w = a ++ b ++ c /\
    Forall (fun ch => is_digit ucd ch = true) a /\ 1 <= length a <= 3 /\
    Forall (fun ch => ch <> 46%N) b /\
    (c = [] \/
     exists dd, c = 46%N :: dd /\
                Forall (fun ch => is_digit ucd ch = true) dd /\ length dd = 2).
Proof.
  intros Hdot H. split; [apply (sem_nogroups H), nogroups_number|].
  unfold number in H. cbn [cat] in H. unfold digit in H.
  apply sem_Cat_inv in H as (a & t & c1 & -> & Ha & H).
  apply sem_times_cls in Ha as (Ha & Hla & ->).
  apply sem_Cat_inv in H as (b & c & c2 & -> & Hb & Hc).
  exists a, b, c. split; [reflexivity|]. split; [exact Ha|]. split; [exact Hla|].
  split.
  - apply (sem_classes (fun ch => ch <> 46%N) Hb).
    cbn [star classes_within times]. split.
    + apply classes_within_lit. vm_compute. repeat constructor. discriminate.
    + intros ch Hch ->. unfold is_digit in Hch. rewrite Hdot in Hch. discriminate.
  - unfold opt in Hc.
    destruct (sem_rep_inv Hc eq_refl) as (ws & -> & _ & Hhi & Hall).
    destruct ws as [|x [|y ws]]; [left; reflexivity| |cbn in Hhi; lia].
    right. inversion Hall as [|? ? [_ (p0 & c0 & c0' & Hx)] _]; subst.
    apply sem_Cat_inv in Hx as (x1 & dd & c3 & -> & Hx1 & Hdd).
    apply sem_lit in Hx1 as [-> _].
    apply sem_times_cls in Hdd as (Hdd & Hldd & _).
    exists dd. cbn [concat]. rewrite app_nil_r.
    split; [reflexivity|]. split; [exact Hdd|lia].
Qed.

Section FloatOfNumber.
Variable ucd : UnicodeData.
Hypothesis Hdot : decimal ucd 46%N = None.

Lemma float_digits_run s : forall rest dot num frac digits,
  Forall (fun ch => is_digit ucd ch = true) s ->
  exists num' frac',
    float_digits ucd (s ++ rest) dot num frac digits
    = float_digits ucd rest dot num' frac' (length s + digits).
Proof.
  induction s as [|c s IH]; intros rest dot num frac digits H.
  - exists num, frac. reflexivity.
  - inversion H as [|? ? Hc Hs]; subst. cbn [app float_digits].
    assert (Hne : char_eqb c 46%N = false).
    { destruct (char_eqb c 46%N) eqn:E; [|reflexivity].
      apply char_eqb_eq in E as ->. unfold is_digit in Hc. rewrite Hdot in Hc.
      discriminate. }
    rewrite Hne. unfold is_digit in Hc.
    destruct (decimal ucd c) as [v|]; [|discriminate].
    edestruct (IH rest dot) as (num' & frac' & ->); [exact Hs|].
    exists num', frac'. f_equal. cbn [length]. lia.
Qed.

Lemma filter_digits s :
  Forall (fun ch => is_digit ucd ch = true) s -> filter (fun ch => is_digit ucd ch || char_eqb ch 46%N) s = s.
Proof.
  induction 1 as [|c s Hc _ IH]; [reflexivity|].
  cbn [filter]. rewrite Hc. cbn [orb]. now rewrite IH.
Qed.

Lemma filter_no_dot s :
  Forall (fun ch => ch <> 46%N) s ->
  Forall (fun ch => is_digit ucd ch = true) (filter (fun ch => is_digit ucd ch || char_eqb ch 46%N) s).
Proof.
  induction 1 as [|c s Hc _ IH]; [constructor|].
  cbn [filter].
  destruct (is_digit ucd c) eqn:Hd; cbn [orb].
  - now constructor.
  - destruct (char_eqb c 46%N) eqn:E; [|exact IH].
    apply char_eqb_eq in E. contradiction.
Qed.

(** [float()] accepts what is left of a number once everything but digits
    and full stops is removed. *)
Lemma py_float_number pos w cs cs' :
  sem (number ucd) pos w cs cs' ->
  exists q, py_float ucd (filter (fun ch => is_digit ucd ch || char_eqb ch 46%N) w) = Some q.
Proof.
  intros H. apply (sem_number Hdot) in H
    as (_ & a & b & c & -> & Ha & Hla & Hb & Hc).
  rewrite !filter_app, (filter_digits Ha). unfold py_float.
  destruct (float_digits_run (filter (fun ch => is_digit ucd ch || char_eqb ch 46%N) b ++ filter (fun ch => is_digit ucd ch || char_eqb ch 46%N) c) false 0 0 0 Ha)
    as (n1 & f1 & E1).
  rewrite E1.
  destruct (float_digits_run (filter (fun ch => is_digit ucd ch || char_eqb ch 46%N) c) false n1 f1 (length a + 0)
                             (filter_no_dot Hb)) as (n2 & f2 & E2).
  rewrite E2.
  destruct Hc as [->|(dd & -> & Hdd & Hldd)].
  - cbn [filter float_digits].
    destruct (length (filter (fun ch => is_digit ucd ch || char_eqb ch 46%N) b) + (length a + 0)) eqn:E; [lia|eauto].
  - cbn [filter].
    change (char_eqb 46 46) with true. rewrite orb_true_r.
    rewrite (filter_digits Hdd). cbn [float_digits].
    change (char_eqb 46 46) with true. cbv iota.
    destruct (float_digits_run [] true n2 f2
                (length (filter (fun ch => is_digit ucd ch || char_eqb ch 46%N) b) + (length a + 0)) Hdd) as (n3 & f3 & E3).
    rewrite app_nil_r in E3. rewrite E3. cbn [float_digits].
    destruct (length dd + _) eqn:E; [lia|eauto].
Qed.
End FloatOfNumber.

(** What a match of an amount pattern consists of: the number captured as
    group 1, between the currency mark before it or after it. *)
Lemma amount_match_sem ucd source pattern m :
  In pattern (amount_patterns ucd) -> In m (finditer pattern source) ->
  exists pre n post p cs cs',
    group0 source m = pre ++ n ++ post /\
    group source m 1 = n /\
    sem (number ucd) p n cs cs' /\
    ((pre = [] /\ In post [u "円"; u "万円"; u "億円"]) \/
     (pre = u "¥" /\ post = []) \/
     (pre = u "$" /\ post = []) \/
     (pre = [] /\
      exists sp t, post = sp ++ t /\ Forall (eq 32%N) sp /\
                   In t [u "USD"; u "JPY"; u "EUR"])).
Proof.
  intros Hp Hm.
  apply finditer_sem in Hm as (w & s' & cs & Hs & Hw & _ & He & Hg).
  pose proof (@group0_of_word source m w s' Hs He) as H0. rewrite H0. clear H0 He.
  unfold amount_patterns in Hp.
  destruct Hp as [<-|[<-|[<-|[<-|[]]]]]; cbn [cat] in Hw.
  - apply sem_Cat_inv in Hw as (n & t & c1 & -> & Hn & Ht).
    apply sem_Grp_inv in Hn as (c1' & Hn & ->).
    pose proof (sem_nogroups Hn (nogroups_number ucd)) as ->.
    change (alt [lit (u "円"); lit (u "万円"); lit (u "億円")])
      with (alt (map lit [u "円"; u "万円"; u "億円"])) in Ht.
    apply sem_alt_lits in Ht as [Ht ->].
    exists [], n, t, 0, [], []. split; [reflexivity|]. split; [|split; [exact Hn|auto]].
    apply (@group_of_span source m 1 0 (0 + length n) [] n (t ++ s')); auto;
      solve [rewrite Hg; reflexivity | rewrite Hs, <- ?app_assoc; reflexivity].
  - apply sem_Cat_inv in Hw as (y & n & c1 & -> & Hy & Hn).
    apply sem_lit in Hy as [-> ->].
    apply sem_Grp_inv in Hn as (c1' & Hn & ->).
    pose proof (sem_nogroups Hn (nogroups_number ucd)) as ->.
    exists (u "¥"), n, [], (0 + length (u "¥")), [], [].
    rewrite app_nil_r. split; [reflexivity|]. split; [|split; [exact Hn|auto]].
    apply (@group_of_span source m 1 (0 + length (u "¥"))
             (0 + length (u "¥") + length n) (u "¥") n s'); auto;
      solve [rewrite Hg; reflexivity | rewrite Hs, <- ?app_assoc; reflexivity].
  - apply sem_Cat_inv in Hw as (y & n & c1 & -> & Hy & Hn).
    apply sem_lit in Hy as [-> ->].
    apply sem_Grp_inv in Hn as (c1' & Hn & ->).
    pose proof (sem_nogroups Hn (nogroups_number ucd)) as ->.
    exists (u "$"), n, [], (0 + length (u "$")), [], [].
    rewrite app_nil_r. split; [reflexivity|]. split; [|split; [exact Hn|auto 6]].
    apply (@group_of_span source m 1 (0 + length (u "$"))
             (0 + length (u "$") + length n) (u "$") n s'); auto;
      solve [rewrite Hg; reflexivity | rewrite Hs, <- ?app_assoc; reflexivity].
  - apply sem_Cat_inv in Hw as (n & rest & c1 & -> & Hn & Hw).
    apply sem_Grp_inv in Hn as (c1' & Hn & ->).
    pose proof (sem_nogroups Hn (nogroups_number ucd)) as ->.
    apply sem_Cat_inv in Hw as (sp & t & c2 & -> & Hsp & Ht).
    assert (Hcs : c2 = [(1, (0, 0 + length n))]).
    { apply (sem_nogroups Hsp). cbn [star nogroups]. apply nogroups_lit. }
    subst c2.
    assert (Hsp' : Forall (eq 32%N) sp).
    { apply (sem_classes (eq 32%N) Hsp). cbn [star classes_within].
      apply classes_within_lit. vm_compute. repeat constructor. }
    change (alt [lit (u "USD"); lit (u "JPY"); lit (u "EUR")])
      with (alt (map lit [u "USD"; u "JPY"; u "EUR"])) in Ht.
    apply sem_alt_lits in Ht as [Ht ->].
    exists [], n, (sp ++ t), 0, [], []. split; [reflexivity|].
    split; [|split; [exact Hn|]].
    + apply (@group_of_span source m 1 0 (0 + length n) [] n ((sp ++ t) ++ s')); auto;
      solve [rewrite Hg; reflexivity | rewrite Hs, <- ?app_assoc; reflexivity].
    + right. right. right. split; [reflexivity|]. exists sp, t. auto.
Qed.

Lemma float_digits_nonneg ucd s : forall dot num frac digits q,
  float_digits ucd s dot num frac digits = Some q -> (0 <= q)%Q.
Proof.
  induction s as [|c s IH]; intros dot num frac digits q; cbn [float_digits].
  - destruct digits; [discriminate|]. intros [= <-].
    unfold Qle. cbn. lia.
  - destruct (char_eqb c 46%N).
    + destruct dot; [discriminate|apply IH].
    + destruct (decimal ucd c); [apply IH|discriminate].
Qed.

Lemma filter_map_total {X Y Z : Type} (f : X -> option Y) (g : Y -> Z) (h : X -> Z) l :
  (forall x, In x l -> exists y, f x = Some y /\ g y = h x) ->
  map g (filter_map f l) = map h l.
Proof.
  induction l as [|x l IH]; intros H; [reflexivity|].
  cbn [filter_map map]. destruct (H x (or_introl eq_refl)) as (y & -> & <-).
  cbn [map]. f_equal. apply IH. intros x' Hx'. apply H. now right.
Qed.

Lemma amount_match_kept ucd source pattern m :
  decimal ucd 46%N = None ->
  In pattern (amount_patterns ucd) -> In m (finditer pattern source) ->
  exists v,
    amount_of_match ucd source m =
      Some {| value := v; amount_original_text := group0 source m;
              currency := detect_currency (group0 source m);
              amount_position := m_start m |} /\
    (0 <= v)%Q.
Proof.
  intros Hdot Hp Hm.
  destruct (amount_match_sem _ _ Hp Hm)
    as (pre & n & post & p & cs & cs' & _ & Hg1 & Hn & _).
  destruct (py_float_number Hdot Hn) as [v Hv].
  exists v. unfold amount_of_match. rewrite Hg1, Hv.
  split; [reflexivity|]. unfold py_float in Hv.
  now apply float_digits_nonneg in Hv.
Qed.

(** X12. When the full stop is not a decimal digit of the tables,
    [float()] never fails on a matched amount: every match of every amount
    pattern gives an amount with a non-negative value, so the amounts before
    the cut to five are the matches, pattern by pattern. *)
Theorem amounts_never_dropped (ucd : UnicodeData) (source : pystr) :
  decimal ucd 46%N = None ->
  (forall pattern m,
     In pattern (amount_patterns ucd) -> In m (finditer pattern source) ->
     exists v,
       amount_of_match ucd source m =
         Some {| value := v; amount_original_text := group0 source m;
                 currency := detect_currency (group0 source m);
                 amount_position := m_start m |} /\
       (0 <= v)%Q) /\
  map amount_position (amount_matches ucd source) =
  map m_start (flat_map (fun pattern => finditer pattern source) (amount_patterns ucd)).
Proof.
  intros Hdot. split; [intros pattern m; now apply amount_match_kept|].
  unfold amount_matches.
  assert (H : forall pattern, In pattern (amount_patterns ucd) ->
            map amount_position
                (filter_map (amount_of_match ucd source) (finditer pattern source))
            = map m_start (finditer pattern source)).
  { intros pattern Hp. apply filter_map_total. intros m Hm.
    destruct (@amount_match_kept ucd source pattern m Hdot Hp Hm) as (v & -> & _).
    eexists. split; reflexivity. }
  induction (amount_patterns ucd) as [|pattern ps IH]; [reflexivity|].
  cbn [flat_map]. rewrite !map_app, H, IH; [reflexivity| |now left].
  intros p Hp. apply H. now right.
Qed.

Lemma amounts_never_dropped_witness :
  map amount_position (amount_matches sample_ucd fee_text) =
  map m_start (flat_map (fun pattern => finditer pattern fee_text)
                        (amount_patterns sample_ucd)).
Proof.
  apply (proj2 (amounts_never_dropped sample_ucd fee_text eq_refl)).
Defined.

Lemma amount_text_marked ucd source pattern m :
  In pattern (amount_patterns ucd) -> In m (finditer pattern source) ->
  occurs_in (u "円") (group0 source m) \/ occurs_in (u "¥") (group0 source m) \/
  occurs_in (u "$") (group0 source m) \/ occurs_in (u "USD") (group0 source m) \/
  occurs_in (u "JPY") (group0 source m) \/ occurs_in (u "EUR") (group0 source m).
Proof.
  intros Hp Hm.
  destruct (amount_match_sem _ _ Hp Hm)
    as (pre & n & post & p & cs & cs' & -> & _ & _ & H).
  destruct H as [[-> H]|[[-> ->]|[[-> ->]|(-> & sp & t & -> & _ & H)]]].
  - left. destruct H as [<-|[<-|[<-|[]]]].
    + exists n, []. now rewrite app_nil_r.
    + exists (n ++ firstn 1 (u "万円")), []. cbn [app].
      rewrite <- app_assoc, app_nil_r. reflexivity.
    + exists (n ++ firstn 1 (u "億円")), []. cbn [app].
      rewrite <- app_assoc, app_nil_r. reflexivity.
  - right. left. exists [], (n ++ []). reflexivity.
  - right. right. left. exists [], (n ++ []). reflexivity.
  - right. right. right. cbn [app].
    destruct H as [<-|[<-|[<-|[]]]]; [left|right; left|right; right];
      exists (n ++ sp), []; now rewrite <- app_assoc, app_nil_r.
Qed.

Lemma detect_currency_known w :
  occurs_in (u "円") w \/ occurs_in (u "¥") w \/ occurs_in (u "$") w \/
  occurs_in (u "USD") w \/ occurs_in (u "JPY") w \/ occurs_in (u "EUR") w ->
  detect_currency w = u "JPY" \/ detect_currency w = u "USD" \/
  detect_currency w = u "EUR".
Proof.
  rewrite <- !contains_spec. unfold detect_currency. intros H.
  destruct (contains (u "円") w); [now left|].
  destruct (contains (u "¥") w); [now left|].
  destruct (contains (u "JPY") w); [now left|].
  destruct (contains (u "$") w); [right; now left|].
  destruct (contains (u "USD") w); [right; now left|].
  destruct (contains (u "EUR") w); [right; now right|].
  repeat destruct H as [H|H]; discriminate.
Qed.

(** X13. The currency of an extracted amount is never [UNKNOWN]: the
    matched text always holds one of the marks the patterns require, so the
    currency is [JPY], [USD] or [EUR]; it is [JPY] whenever the matched text
    holds the yen sign or the character for yen.  The value is not
    negative. *)
Theorem amount_currency_known (ucd : UnicodeData) (source : pystr) (a : Amount) :
  In a (extract_amounts ucd source) ->
  (currency a = u "JPY" \/ currency a = u "USD" \/ currency a = u "EUR") /\
  (occurs_in (u "円") (amount_original_text a) \/
   occurs_in (u "¥") (amount_original_text a) -> currency a = u "JPY") /\
  (0 <= value a)%Q.
Proof.
  intros Hin. apply in_firstn in Hin.
  unfold amount_matches in Hin. apply in_flat_map in Hin as (pattern & Hp & Hin).
  apply filter_map_in in Hin as (m & Hm & Ha).
  unfold amount_of_match in Ha.
  destruct (py_float ucd _) as [v|] eqn:Hv; [|discriminate].
  injection Ha as <-. cbn [currency amount_original_text value].
  split; [|split].
  - apply detect_currency_known. exact (@amount_text_marked ucd source pattern m Hp Hm).
  - rewrite <- !contains_spec. unfold detect_currency.
    intros [->| ->]; [reflexivity|]. now rewrite orb_true_r.
  - unfold py_float in Hv. now apply float_digits_nonneg in Hv.
Qed.

Lemma amount_currency_known_witness :
  currency fee_amount = u "JPY" \/ currency fee_amount = u "USD" \/
  currency fee_amount = u "EUR".
Proof.
  destruct (@amount_currency_known sample_ucd fee_text fee_amount) as [H _].
  - vm_compute. auto.
  - exact H.
Defined.
(** ** Parties *)

(** X14. Every party is a company whose name is longer than two
    characters and has no whitespace at either end, found at an offset
    inside the text. *)
Theorem parties_wellformed (ucd : UnicodeData) (source : pystr) (p : Party) :
  In p (extract_parties ucd source) ->
  type p = u "company" /\
  2 < length (name p) /\
  strip (name p) = name p /\
  party_position p <= length source.
Proof.
  intros Hin. apply in_firstn in Hin.
  destruct (unique_parties_spec (party_matches ucd source) []) as (_ & Hsub & _).
  apply (@subseq_in _ _ _ p Hsub) in Hin.
  unfold party_matches in Hin. apply in_flat_map in Hin as (pattern & _ & Hin).
  apply filter_map_in in Hin as (m & Hm & Hp).
  unfold party_of_match in Hp.
  destruct (truthy _ && (2 <? _)) eqn:Hq; [|discriminate].
  injection Hp as <-. cbn [type name party_position].
  apply andb_true_iff in Hq as [_ Hl]. apply Nat.ltb_lt in Hl.
  split; [reflexivity|]. split; [exact Hl|]. split; [apply strip_strip|].
  now apply finditer_matches in Hm as [Hb _].
Qed.

Lemma parties_wellformed_witness :
  2 < length (u "Acme Trading Inc.") /\
  strip (u "Acme Trading Inc.") = u "Acme Trading Inc.".
Proof.
  destruct (@parties_wellformed sample_ucd two_companies
              {| name := u "Acme Trading Inc."; type := u "company";
                 party_position := 0 |}) as (_ & H1 & H2 & _).
  - vm_compute. auto.
  - split; [exact H1|exact H2].
Defined.
(** ** Matches of one pattern do not overlap *)

Lemma scan_from r s : forall pos skip m,
  In m (scan r pos s skip) -> pos + skip <= m_start m.
Proof.
  induction s as [|c s IH]; intros pos skip m Hin.
  - destruct skip; [|contradiction]. cbn [scan] in Hin.
    destruct (match_at r pos []) as [m'|] eqn:Hm; [|contradiction].
    destruct Hin as [<-|[]]. apply match_at_span in Hm as [-> _]. lia.
  - destruct skip; cbn [scan] in Hin.
    + destruct (match_at r pos (c :: s)) as [m'|] eqn:Hm.
      * destruct Hin as [<-|Hin].
        -- apply match_at_span in Hm as [-> _]. lia.
        -- apply IH in Hin. lia.
      * apply IH in Hin. lia.
    + apply IH in Hin. lia.
Qed.

Lemma scan_disjoint r s : forall pos skip,
  StronglySorted (fun a b => m_end a <= m_start b) (scan r pos s skip).
Proof.
  induction s as [|c s IH]; intros pos skip.
  - destruct skip; cbn [scan]; [|constructor].
    destruct (match_at r pos []); repeat constructor.
  - destruct skip; cbn [scan]; [|apply IH].
    destruct (match_at r pos (c :: s)) as [m|] eqn:Hm; [|apply IH].
    constructor; [apply IH|].
    apply Forall_forall. intros m' Hin. apply scan_from in Hin.
    apply match_at_span in Hm as [Hs He]. lia.
Qed.

Lemma group0_length source m r :
  In m (finditer r source) -> length (group0 source m) = m_end m - m_start m.
Proof.
  intros Hm. apply finditer_sem in Hm as (w & s' & cs & Hs & _ & _ & He & _).
  rewrite (@group0_of_word source m w s' Hs He). lia.
Qed.

Lemma StronglySorted_filter_map {X Y : Type} (R : X -> X -> Prop) (Q : Y -> Y -> Prop)
      (f : X -> option Y) l :
  StronglySorted R l ->
  (forall a b a' b', In a l -> In b l -> R a b ->
                     f a = Some a' -> f b = Some b' -> Q a' b') ->
  StronglySorted Q (filter_map f l).
Proof.
  induction 1 as [|x l Hs IH Hx]; intros HRQ; cbn [filter_map]; [constructor|].
  assert (IH' : StronglySorted Q (filter_map f l)).
  { apply IH. intros a b a' b' Ha Hb. apply HRQ; now right. }
  destruct (f x) as [y|] eqn:Hy; [|exact IH'].
  constructor; [exact IH'|].
  apply Forall_forall. intros y' Hin.
  apply filter_map_in in Hin as (x' & Hx' & Hy').
  rewrite Forall_forall in Hx.
  apply (HRQ x x' y y'); auto; [now left|now right].
Qed.

(** X15. The dates found by one pattern are disjoint stretches of the
    text, in the order of the text: each ends before the next begins.  The
    same holds for the amounts found by one pattern. *)
Theorem same_pattern_items_disjoint (ucd : UnicodeData) (source : pystr) :
  (forall pf,
     StronglySorted
       (fun a b => position a + length (original_text a) <= position b)
       (filter_map (date_of_match ucd (snd pf) source) (finditer (fst pf) source))) /\
  (forall pattern,
     StronglySorted
       (fun a b => amount_position a + length (amount_original_text a)
                   <= amount_position b)
       (filter_map (amount_of_match ucd source) (finditer pattern source))).
Proof.
  assert (Hend : forall r m, In m (finditer r source) ->
            m_start m + length (group0 source m) = m_end m).
  { intros r m Hm. rewrite (@group0_length source m r Hm).
    apply finditer_sem in Hm as (w & s' & cs & _ & _ & _ & He & _). lia. }
  split.
  - intros pf.
    eapply StronglySorted_filter_map; [exact (scan_disjoint (fst pf) source 0 0)|].
    intros a b a' b' Ha Hb Hab Ha' Hb'.
    apply date_of_match_spec in Ha' as (y & mo & d & _ & _ & ->).
    apply date_of_match_spec in Hb' as (y' & mo' & d' & _ & _ & ->).
    cbn [entry_of position original_text].
    rewrite (Hend _ a Ha). exact Hab.
  - intros pattern.
    eapply StronglySorted_filter_map; [exact (scan_disjoint pattern source 0 0)|].
    intros a b a' b' Ha Hb Hab Ha' Hb'.
    unfold amount_of_match in Ha', Hb'.
    destruct (py_float ucd _) in Ha'; [|discriminate].
    destruct (py_float ucd _) in Hb'; [|discriminate].
    injection Ha' as <-. injection Hb' as <-.
    cbn [amount_position amount_original_text].
    rewrite (Hend _ a Ha). exact Hab.
Qed.
(** ** Date strings *)

Lemma zero_pad_length w (bound : N) :
  forallb (fun n => length (zero_pad w (N.of_nat n)) =? w) (seq 0 (N.to_nat bound))
  = true ->
  forall n, (n < bound)%N -> length (zero_pad w n) = w.
Proof.
  intros H n Hn. rewrite forallb_forall in H.
  specialize (H (N.to_nat n)). rewrite N2Nat.id in H.
  apply Nat.eqb_eq, H, in_seq. lia.
Qed.

(** X16. Every date the extractor returns is a calendar date of the
    years 1 to 9999, written as the 19 characters [YYYY-MM-DDT00:00:00]
    with the year padded to four digits and the month and day to two. *)
Theorem date_strings_iso (ucd : UnicodeData) (source : pystr) (e : DateEntry) :
  In e (date_entries (extract_dates ucd source)) ->
  exists y mo d,
    valid_ymd y mo d /\
    date e = zero_pad 4 y ++ u "-" ++ zero_pad 2 mo ++ u "-" ++ zero_pad 2 d
             ++ u "T00:00:00" /\
    length (zero_pad 4 y) = 4 /\ length (zero_pad 2 mo) = 2 /\
    length (zero_pad 2 d) = 2 /\
    length (date e) = 19.
Proof.
  intros Hin.
  apply extract_dates_entries, date_pool_in in Hin as (pf & m & _ & _ & He).
  apply date_of_match_spec in He as (y & mo & d & _ & Hv & ->).
  exists y, mo, d. split; [exact Hv|]. split; [reflexivity|].
  destruct Hv as (Hy & Hmo & Hd).
  assert (Hdm : (days_in_month y mo <= 31)%N).
  { unfold days_in_month.
    destruct mo as [|[[[[|[]|]|[[]|[]|]|]|[[[]|[]|]|[[]|[]|]|]|]|[[[[]|[]|]|[[]|[]|]|]|[[[]|[]|]|[[]|[]|]|]|]|]];
      try destruct (is_leap y); lia. }
  assert (H4 : length (zero_pad 4 y) = 4).
  { apply (@zero_pad_length 4 10000%N); [vm_compute; reflexivity|lia]. }
  assert (H2 : length (zero_pad 2 mo) = 2).
  { apply (@zero_pad_length 2 100%N); [vm_compute; reflexivity|lia]. }
  assert (H2' : length (zero_pad 2 d) = 2).
  { apply (@zero_pad_length 2 100%N); [vm_compute; reflexivity|lia]. }
  repeat (split; [assumption|]).
  cbn [entry_of date]. unfold isoformat. cbn [dt_year dt_month dt_day].
  rewrite !length_app, H4, H2, H2'. reflexivity.
Qed.

Lemma date_strings_iso_witness :
  exists y mo d,
    valid_ymd y mo d /\
    iso1 = zero_pad 4 y ++ u "-" ++ zero_pad 2 mo ++ u "-" ++ zero_pad 2 d
           ++ u "T00:00:00" /\
    length (zero_pad 4 y) = 4 /\ length (zero_pad 2 mo) = 2 /\
    length (zero_pad 2 d) = 2 /\
    length iso1 = 19.
Proof.
  apply (@date_strings_iso sample_ucd two_dates_text
           {| date := iso1; original_text := date1; position := 6 |}).
  vm_compute. auto.
Defined.
(** ** The storage URL *)

Lemma split_on_run sep a : forall cur,
  Forall (fun c => sep c = false) a ->
  (split_on sep a cur = [rev cur ++ a]) /\
  (forall c s, sep c = true ->
     split_on sep (a ++ c :: s) cur = (rev cur ++ a) :: split_on sep s []).
Proof.
  induction a as [|x a IH]; intros cur Ha.
  - split.
    + cbn. now rewrite app_nil_r.
    + intros c s Hc. cbn [app split_on]. rewrite Hc, app_nil_r. reflexivity.
  - inversion Ha as [|? ? Hx Ha']; subst.
    destruct (IH (x :: cur) Ha') as [H1 H2]. cbn [rev] in H1, H2.
    split.
    + cbn [split_on]. rewrite Hx, H1, <- app_assoc. reflexivity.
    + intros c s Hc. cbn [app split_on]. rewrite Hx, (H2 c s Hc), <- app_assoc.
      reflexivity.
Qed.

Lemma split_on_nonempty sep s cur : split_on sep s cur <> [].
Proof.
  revert cur. induction s as [|c s IH]; intros cur; cbn [split_on]; [discriminate|].
  destruct (sep c); [discriminate|apply IH].
Qed.

Lemma join_split s : forall cur, join_slash (split_on is_slash s cur) = rev cur ++ s.
Proof.
  induction s as [|c s IH]; intros cur; cbn [split_on].
  - cbn. now rewrite app_nil_r.
  - destruct (is_slash c) eqn:Hc.
    + apply char_eqb_eq in Hc as ->.
      pose proof (split_on_nonempty is_slash s []) as Hne.
      pose proof (IH []) as Hj. cbn [rev app] in Hj.
      destruct (split_on is_slash s []) as [|p rest]; [contradiction|].
      change (join_slash (rev cur :: p :: rest))
        with (rev cur ++ 47%N :: join_slash (p :: rest)).
      now rewrite Hj.
    + rewrite IH. cbn [rev]. now rewrite <- app_assoc.
Qed.

(** X17. For a URL of the shape [a/b/bucket/path], with no slash in
    [a], [b] and [bucket], the bucket is the third segment and the object
    path is everything after the third slash, slashes included; without a
    third slash the path is empty.  With [a = "gs:"] and [b] empty this is
    [gs://bucket/path]; the scheme itself is not looked at. *)
Theorem storage_url_parsed (a b bucket path : pystr) :
  Forall (fun c => is_slash c = false) a ->
  Forall (fun c => is_slash c = false) b ->
  Forall (fun c => is_slash c = false) bucket ->
  (bucket_name (a ++ u "/" ++ b ++ u "/" ++ bucket ++ u "/" ++ path) = Some bucket /\
   file_path (a ++ u "/" ++ b ++ u "/" ++ bucket ++ u "/" ++ path) = path) /\
  (bucket_name (a ++ u "/" ++ b ++ u "/" ++ bucket) = Some bucket /\
   file_path (a ++ u "/" ++ b ++ u "/" ++ bucket) = []).
Proof.
  intros Ha Hb Hk. change (u "/") with [47%N]. cbn [app].
  unfold bucket_name, file_path, split_slash.
  destruct (split_on_run is_slash [] Ha) as [_ Ha2].
  destruct (split_on_run is_slash [] Hb) as [_ Hb2].
  destruct (split_on_run is_slash [] Hk) as [Hk1 Hk2].
  cbn [rev app] in *.
  rewrite !Ha2, !Hb2, Hk2, Hk1 by reflexivity.
  cbn [nth_error skipn]. rewrite (join_split path []).
  repeat split.
Qed.

Lemma storage_url_parsed_witness :
  bucket_name test_url = Some (u "test-bucket") /\
  file_path test_url = u "sample.pdf".
Proof.
  apply (@storage_url_parsed (u "gs:") [] (u "test-bucket") (u "sample.pdf")).
  - vm_compute. repeat constructor.
  - constructor.
  - vm_compute. repeat constructor.
Defined.

(** X18. The subscript fails exactly on a URL with fewer than two
    slashes; on any other the bucket is a stretch without slashes.
    Splitting on slashes and joining again gives the URL back, so no
    character of it is lost. *)
Theorem storage_url_edges (file_url : pystr) :
  (bucket_name file_url = None <-> length (filter is_slash file_url) < 2) /\
  (forall bucket, bucket_name file_url = Some bucket ->
     Forall (fun c => is_slash c = false) bucket /\ occurs_in bucket file_url) /\
  join_slash (split_slash file_url) = file_url.
Proof.
  unfold bucket_name, split_slash.
  destruct (split_on_spec is_slash file_url (Forall_nil _)) as (_ & Hlen & Hall).
  split; [|split].
  - rewrite nth_error_None, Hlen. lia.
  - intros bucket Hb. apply nth_error_In in Hb. split.
    + rewrite Forall_forall in Hall. now apply Hall.
    + apply (split_on_occurs _ _ [] _ Hb).
  - apply (join_split file_url []).
Qed.
(** ** The second structural stage *)

Lemma pdfplumber_kept_truthy outs : forall page_num,
  Forall (fun np => truthy (snd np) = true) (kept_pages pdfplumber_keeps outs page_num).
Proof.
  induction outs as [|o outs IH]; intros page_num; cbn [kept_pages]; [constructor|].
  destruct o as [[page_text|]|e]; cbn [pdfplumber_keeps]; try constructor; try apply IH.
  destruct (truthy page_text) eqn:Ht; [|apply IH].
  constructor; [exact Ht|apply IH].
Qed.

Lemma stage_entries_numbers keeps method r :
  StronglySorted lt (map entry_number (stage_entries keeps method r)) /\
  Forall (fun e => entry_method e = Some method) (stage_entries keeps method r).
Proof.
  destruct r as [e|outs]; cbn [stage_entries]; [split; constructor|].
  unfold entries. rewrite map_map. cbn [entry_number]. split.
  - apply (kept_pages_numbers keeps outs 0).
  - apply Forall_map, Forall_forall. reflexivity.
Qed.

(** X19. When PyPDF2 gives nothing and pdfplumber returns, the result
    has confidence 0.85 and its pages are the entries PyPDF2 appended before
    it gave up, followed by the entries of pdfplumber.  The text is made of
    the pdfplumber entries alone, each with a non-empty text; within each of
    the two runs the page numbers increase strictly, so a page number can
    occur twice in [pages]. *)
Theorem pdfplumber_result_pages (doc : Document) (t : pystr) :
  stage_yield pypdf2_keeps (pypdf2 doc) = None ->
  stage_yield pdfplumber_keeps (pdfplumber doc) = Some t ->
  let d := extract_text_from_pdf doc in
  exists left own,
    pages d = left ++ own /\
    left = stage_entries pypdf2_keeps (u "PyPDF2") (pypdf2 doc) /\
    Forall (fun e => entry_method e = Some (u "PyPDF2")) left /\
    Forall (fun e => entry_method e = Some (u "pdfplumber") /\
                     truthy (entry_text e) = true) own /\
    own <> [] /\
    doc_text d = concat (map entry_marker own) /\
    StronglySorted lt (map entry_number left) /\
    StronglySorted lt (map entry_number own) /\
    confidence d = 0.85%Q.
Proof.
  intros H1 H2. cbv zeta. rewrite extract_text_from_pdf_cases, H1, H2.
  cbn [pages doc_text confidence].
  exists (stage_entries pypdf2_keeps (u "PyPDF2") (pypdf2 doc)),
         (stage_entries pdfplumber_keeps (u "pdfplumber") (pdfplumber doc)).
  destruct (stage_entries_numbers pypdf2_keeps (u "PyPDF2") (pypdf2 doc)) as [Hs1 Hm1].
  destruct (stage_entries_numbers pdfplumber_keeps (u "pdfplumber") (pdfplumber doc))
    as [Hs2 Hm2].
  pose proof (stage_yield_entries pdfplumber_keeps (u "pdfplumber") _ H2) as Hne.
  repeat (split; [assumption || reflexivity|]).
  split; [|split; [exact Hne|split; [|auto]]].
  - destruct (pdfplumber doc) as [e|outs]; cbn [stage_entries]; [constructor|].
    unfold entries. apply Forall_map.
    eapply Forall_impl; [|apply (pdfplumber_kept_truthy outs 0)].
    cbn [entry_method entry_text]. auto.
  - destruct (pdfplumber doc) as [e|outs]; [discriminate|].
    cbn [stage_yield] in H2. destruct (first_raise _ _); [discriminate|].
    destruct (truthy _); [|discriminate]. injection H2 as <-.
    cbn [stage_entries]. unfold entries. rewrite map_map. reflexivity.
Qed.

Lemma pdfplumber_result_pages_witness :
  exists left own,
    pages (extract_text_from_pdf doc_second_stage) = left ++ own /\
    left = stage_entries pypdf2_keeps (u "PyPDF2") (pypdf2 doc_second_stage) /\
    Forall (fun e => entry_method e = Some (u "PyPDF2")) left /\
    Forall (fun e => entry_method e = Some (u "pdfplumber") /\
                     truthy (entry_text e) = true) own /\
    own <> [] /\
    doc_text (extract_text_from_pdf doc_second_stage)
    = concat (map entry_marker own) /\
    StronglySorted lt (map entry_number left) /\
    StronglySorted lt (map entry_number own) /\
    confidence (extract_text_from_pdf doc_second_stage) = 0.85%Q.
Proof.
  exact (@pdfplumber_result_pages doc_second_stage _ eq_refl eq_refl).
Defined.
(** ** Texts without digits *)

Lemma occurs_in_Forall (P : char -> Prop) s t :
  occurs_in s t -> Forall P t -> Forall P s.
Proof.
  intros (pre & post & ->) H.
  apply Forall_app in H as [_ H]. now apply Forall_app in H as [H _].
Qed.

Lemma sem_number_digit ucd pos w cs cs' :
  sem (number ucd) pos w cs cs' -> exists c, In c w /\ is_digit ucd c = true.
Proof.
  intros H. unfold number in H. cbn [cat] in H. unfold digit in H.
  apply sem_Cat_inv in H as (a & t & c1 & -> & Ha & _).
  apply sem_times_cls in Ha as (Ha & Hla & _).
  destruct a as [|c a]; [cbn in Hla; lia|].
  exists c. split; [now left|]. now inversion Ha.
Qed.

(** X20. A text without a decimal digit, the empty text included, has
    no dates and no amounts: the dates mapping is empty and so is the list
    of amounts. *)
Theorem digitless_text_has_no_dates_or_amounts (ucd : UnicodeData) (source : pystr) :
  Forall (fun c => is_digit ucd c = false) source ->
  dates (extract_contract_information ucd source) = None /\
  amounts (extract_contract_information ucd source) = [].
Proof.
  intros Hnd. cbn [extract_contract_information dates amounts]. split.
  - unfold extract_dates.
    destruct (date_pool ucd source) as [|e pool] eqn:Hpool; [reflexivity|].
    exfalso.
    assert (Hin : In e (date_pool ucd source)) by (rewrite Hpool; now left).
    apply date_pool_in in Hin as (pf & m & Hpf & Hm & _).
    destruct (@date_match_numerals ucd source pf m Hpf Hm)
      as (year & month & day & Hg & Hy & Hly & _).
    assert (Hocc : occurs_in year source).
    { unfold ymd_groups in Hg.
      destruct (snd pf); injection Hg as <- _ _; apply occurs_in_group. }
    apply (occurs_in_Forall Hocc) in Hnd.
    destruct year as [|c year]; [discriminate|].
    inversion Hy; inversion Hnd; subst. congruence.
  - unfold extract_amounts, amount_matches.
    destruct (flat_map _ (amount_patterns ucd)) as [|a l] eqn:Hl; [reflexivity|].
    exfalso.
    assert (Hin : In a (a :: l)) by now left.
    rewrite <- Hl in Hin. apply in_flat_map in Hin as (pattern & Hp & Hin).
    apply filter_map_in in Hin as (m & Hm & _).
    destruct (@amount_match_sem ucd source pattern m Hp Hm)
      as (pre & n & post & p & cs & cs' & _ & Hg1 & Hn & _).
    apply sem_number_digit in Hn as (c & Hc & Hd).
    assert (Hocc : occurs_in n source) by (rewrite <- Hg1; apply occurs_in_group).
    apply (occurs_in_Forall Hocc) in Hnd.
    rewrite Forall_forall in Hnd. specialize (Hnd c Hc). congruence.
Qed.

Lemma digitless_text_has_no_dates_or_amounts_witness :
  dates (extract_contract_information sample_ucd termination_text) = None /\
  amounts (extract_contract_information sample_ucd termination_text) = [].
Proof.
  apply digitless_text_has_no_dates_or_amounts.
  assert (H : forallb (fun c => negb (is_digit sample_ucd c)) termination_text = true)
    by (vm_compute; reflexivity).
  rewrite forallb_forall in H. apply Forall_forall. intros c Hc.
  apply H in Hc. now apply negb_true_iff in Hc.
Defined.
